(** * A shallow embedding of the dictionary core of [src/dictionary/main.js]

    The development follows the JavaScript source function by function:
    the [RandomDictionary] class (its loader [parseJSON],
    [buildSearchIndexes], the random picks, [_editDistance], [_fuzzyMatch]
    and [searchWords]) and the result cache of [performLiveSearch].

    Modelling conventions.
    - A JavaScript string is a [string]; each [ascii] stands for one UTF-16
      code unit in the range 0..255 (the Latin-1 block), on which
      [toLowerCase] and [trim] are defined exactly as ECMAScript does.
    - A JavaScript number that holds a length, an index or an edit distance
      is a [nat]; a score is a rational [Q]: the source computes
      [(maxLength - editDist) / maxLength * 100] in double precision, and
      the embedding keeps the exact quotient.
    - A JavaScript [Map] is an association list in insertion order.
    - Mutation of [this] is explicit state passing over the record [Store];
      a thrown exception is a returned error next to the state reached.
    - [Math.random] is an oracle: the list of the values it returns, each
      one a double of the interval [0, 1). The product
      [Math.random() * length] is the exact product rounded to the nearest
      double, ties to even, as IEEE 754 binary64 multiplication gives it
      ([roundDouble]). *)

From Stdlib Require Import Bool Arith ZArith QArith Qround Qminmax Qpower Lia Lqa.
From Stdlib Require Import List String Ascii DecimalString Permutation Sorted.
Import ListNotations.

Set Warnings "-register-all".

Open Scope string_scope.
Open Scope list_scope.
Open Scope nat_scope.

(** ** Built-ins of the host that the embedding does not fix

    [localeCompare] depends on the collation of the host, and the numbers
    of a parsed dataset are used only through ToBoolean and
    [Number.prototype.toString]; these stay parameters. *)

Class Host := {
  localeCompare : string -> string -> Z;
  Number : Type;
  numberIsZero : Number -> bool;
  numberToString : Number -> string
}.

(** ** Strings *)

Module Str.

(** Code-unit case mapping on 0..255: [A-Z] and U+00C0..U+00DE, except the
    multiplication sign U+00D7, move up by 32. *)
Definition lower_unit (c : ascii) : ascii :=
  let n := nat_of_ascii c in
  if ((65 <=? n) && (n <=? 90))
     || ((192 <=? n) && (n <=? 222) && negb (n =? 215))
  then ascii_of_nat (n + 32) else c.

Fixpoint toLowerCase (s : string) : string :=
  match s with
  | EmptyString => EmptyString
  | String c s' => String (lower_unit c) (toLowerCase s')
  end.

(** White space and line terminators among the code units 0..255. *)
Definition is_space (c : ascii) : bool :=
  let n := nat_of_ascii c in
  ((9 <=? n) && (n <=? 13)) || (n =? 32) || (n =? 160).

Fixpoint trimStart (s : string) : string :=
  match s with
  | EmptyString => EmptyString
  | String c s' => if is_space c then trimStart s' else s
  end.

Fixpoint trimEnd (s : string) : string :=
  match s with
  | EmptyString => EmptyString
  | String c s' =>
      let t := trimEnd s' in
      if is_space c && String.eqb t "" then EmptyString else String c t
  end.

Definition trim (s : string) : string := trimEnd (trimStart s).

Fixpoint startsWith (s p : string) : bool :=
  match p with
  | EmptyString => true
  | String c p' =>
      match s with
      | EmptyString => false
      | String d s' => Ascii.eqb d c && startsWith s' p'
      end
  end.

Fixpoint includes (s p : string) : bool :=
  startsWith s p ||
  match s with
  | EmptyString => false
  | String _ s' => includes s' p
  end.

(** [s[i]], [None] standing for [undefined]. *)
Definition charAt (i : nat) (s : string) : option ascii := String.get i s.

Definition unit_eqb (a b : option ascii) : bool :=
  match a, b with
  | Some x, Some y => Ascii.eqb x y
  | None, None => true
  | _, _ => false
  end.

End Str.

(** ** JavaScript [Map] with string keys, in insertion order *)

Module JSMap.

Definition t (V : Type) : Type := list (string * V).

Definition empty {V} : t V := [].

Definition size {V} (m : t V) : nat := List.length m.

Fixpoint get {V} (k : string) (m : t V) : option V :=
  match m with
  | [] => None
  | (k', v) :: m' => if String.eqb k' k then Some v else get k m'
  end.

Definition has {V} (k : string) (m : t V) : bool :=
  match get k m with Some _ => true | None => false end.

(** [set] on a key already present keeps its position. *)
Fixpoint set {V} (k : string) (v : V) (m : t V) : t V :=
  match m with
  | [] => [(k, v)]
  | (k', v') :: m' =>
      if String.eqb k' k then (k, v) :: m' else (k', v') :: set k v m'
  end.

Fixpoint delete {V} (k : string) (m : t V) : t V :=
  match m with
  | [] => []
  | (k', v') :: m' => if String.eqb k' k then m' else (k', v') :: delete k m'
  end.

Definition keys {V} (m : t V) : list string := List.map fst m.

(** [m.keys().next().value]: the oldest key, [None] for [undefined]. *)
Definition firstKey {V} (m : t V) : option string :=
  match m with
  | [] => None
  | (k, _) :: _ => Some k
  end.

End JSMap.

(** ** [Array.prototype.sort]

    The sort of ECMAScript is stable; for a consistent comparator its result
    is the stable insertion sort below, where [cmp a b <= 0] keeps [a]
    before [b]. *)

Section ArraySort.
Context {A : Type} (cmp : A -> A -> Q).

Fixpoint sort_insert (x : A) (l : list A) : list A :=
  match l with
  | [] => [x]
  | y :: l' =>
      if Qle_bool (cmp x y) 0%Q then x :: l else y :: sort_insert x l'
  end.

Definition array_sort (l : list A) : list A :=
  fold_right sort_insert [] l.
End ArraySort.

(** ** Data model *)

Record Entry := mkEntry { word : string; definition : string }.

Record SearchResult := mkResult {
  res_word : string;
  res_definition : string;
  score : Q;
  matchType : string
}.

(** [{ ...entry, score: s, matchType: 'word' }] *)
Definition scored (e : Entry) (s : Q) : SearchResult :=
  mkResult (word e) (definition e) s "word".

Record Store := mkStore {
  words : list Entry;
  isLoaded : bool;
  wordIndex : JSMap.t (Entry * nat);
  sortedWords : list Entry
}.

(** The constructor: [words = []], [isLoaded = false], an empty [Map]. *)
Definition newStore : Store := mkStore [] false JSMap.empty [].

Inductive Thrown :=
| Error (message : string)
| TypeError.

Definition InvalidFormat : Thrown :=
  Error "Invalid JSON format. Expected array of objects or object with word-definition pairs.".

Definition NoValidEntries : Thrown :=
  Error "No valid word entries found in JSON file.".

Section Loader.
Context {host : Host}.

(** Values produced by [response.json()]. [JObj] lists the own properties
    in the order [Object.entries] enumerates them. *)
Inductive JSValue :=
| JNull
| JBool (b : bool)
| JNum (n : Number)
| JStr (s : string)
| JArr (elems : list JSValue)
| JObj (props : list (string * JSValue)).

(** ToBoolean *)
Definition truthy (v : JSValue) : bool :=
  match v with
  | JNull => false
  | JBool b => b
  | JNum n => negb (numberIsZero n)
  | JStr s => negb (String.eqb s "")
  | JArr _ | JObj _ => true
  end.

(** [typeof v === 'object'] for a value that is not [null]. *)
Definition is_object (v : JSValue) : bool :=
  match v with
  | JArr _ | JObj _ => true
  | _ => false
  end.

Fixpoint own {V} (k : string) (props : list (string * V)) : option V :=
  match props with
  | [] => None
  | (k', v) :: rest => if String.eqb k' k then Some v else own k rest
  end.

(** [v.word] and [v.definition]: [None] is [undefined]. An array has no
    such property. *)
Definition field (k : string) (v : JSValue) : option JSValue :=
  match v with
  | JObj props => own k props
  | _ => None
  end.

Definition truthy_field (k : string) (v : JSValue) : bool :=
  match field k v with
  | Some x => truthy x
  | None => false
  end.

(** [v.toString()]; [None] when the call throws a [TypeError]: on [null],
    and on an object whose own property [toString] shadows the method
    (parsed JSON holds no function). An array joins its elements with a
    comma, [null] elements giving the empty string. *)
Fixpoint toString (v : JSValue) : option string :=
  match v with
  | JNull => None
  | JBool b => Some (if b then "true" else "false")
  | JNum n => Some (numberToString n)
  | JStr s => Some s
  | JArr elems =>
      (fix join (l : list JSValue) : option string :=
         match l with
         | [] => Some ""
         | x :: rest =>
             let sx := match x with JNull => Some "" | _ => toString x end in
             match rest with
             | [] => sx
             | _ :: _ =>
                 match sx, join rest with
                 | Some a, Some b => Some (a ++ "," ++ b)%string
                 | _, _ => None
                 end
             end
         end) elems
  | JObj props =>
      match own "toString" props with
      | Some _ => None
      | None => Some "[object Object]"
      end
  end.

Definition toString_field (k : string) (v : JSValue) : option string :=
  match field k v with
  | Some x => toString x
  | None => None
  end.

(** [xs.map(f)] where [f] may throw. *)
Fixpoint map_throwing {X Y} (f : X -> option Y) (xs : list X) : option (list Y) :=
  match xs with
  | [] => Some []
  | x :: xs' =>
      match f x, map_throwing f xs' with
      | Some y, Some ys => Some (y :: ys)
      | _, _ => None
      end
  end.

Definition entryOfObject (entry : JSValue) : option Entry :=
  match toString_field "word" entry, toString_field "definition" entry with
  | Some w, Some d => Some (mkEntry (Str.trim w) (Str.trim d))
  | _, _ => None
  end.

Definition entryOfPair (p : string * JSValue) : option Entry :=
  match toString (snd p) with
  | Some d => Some (mkEntry (Str.trim (fst p)) (Str.trim d))
  | None => None
  end.

Definition with_words (ws : list Entry) (st : Store) : Store :=
  mkStore ws (isLoaded st) (wordIndex st) (sortedWords st).

Definition indexed {X} (l : list X) : list (nat * X) :=
  combine (seq 0 (List.length l)) l.

Definition buildIndex (ws : list Entry) : JSMap.t (Entry * nat) :=
  fold_left
    (fun m ie => JSMap.set (Str.toLowerCase (word (snd ie))) (snd ie, fst ie) m)
    (indexed ws) JSMap.empty.

Definition byWord (a b : Entry) : Q :=
  inject_Z (localeCompare (Str.toLowerCase (word a)) (Str.toLowerCase (word b))).

Definition buildSearchIndexes (st : Store) : Store :=
  mkStore (words st) (isLoaded st)
          (buildIndex (words st))
          (array_sort byWord (words st)).

(** The tail of [parseJSON], after [this.words] has been assigned. *)
Definition checkAndIndex (st : Store) : Store * option Thrown :=
  match words st with
  | [] => (st, Some NoValidEntries)
  | _ :: _ => (buildSearchIndexes st, None)
  end.

Definition parseJSON (st : Store) (jsonData : JSValue) : Store * option Thrown :=
  match jsonData with
  | JArr items =>
      let kept :=
        filter (fun entry =>
                  truthy entry && is_object entry
                  && truthy_field "word" entry
                  && truthy_field "definition" entry) items in
      match map_throwing entryOfObject kept with
      | Some ws => checkAndIndex (with_words ws st)
      | None => (st, Some TypeError)
      end
  | JObj props =>
      let kept :=
        filter (fun p => negb (String.eqb (fst p) "") && truthy (snd p)) props in
      match map_throwing entryOfPair kept with
      | Some ws => checkAndIndex (with_words ws st)
      | None => (st, Some TypeError)
      end
  | _ => (st, Some InvalidFormat)
  end.

(** [loadWords] once the dataset has been fetched: [isLoaded] is set only
    when [parseJSON] returns. *)
Definition loadWords (st : Store) (jsonData : JSValue) : Store * option Thrown :=
  match parseJSON st jsonData with
  | (st', None) =>
      (mkStore (words st') true (wordIndex st') (sortedWords st'), None)
  | (st', Some e) => (st', Some e)
  end.

End Loader.

(** ** Double-precision arithmetic

    A finite double is a rational [m * 2^e] with [|m| < 2^53] and
    [-1074 <= e]. The result of an arithmetic operation is the double
    nearest to the exact result, ties going to the even significand. The
    products of this program stay far below the overflow threshold, which
    is left out. *)

Section Doubles.
Local Open Scope Q_scope.

(** The exponent [b] with [2^b <= x < 2^(b+1)], for [0 < x]. *)
Definition binade (x : Q) : Z :=
  if Qle_bool 1 x then Z.log2 (Qfloor x)
  else (- Z.log2_up (Qceiling (/ x)))%Z.

(** The nearest integer, ties to even. *)
Definition roundHalfEven (q : Q) : Z :=
  let f := Qfloor q in
  let d := q - inject_Z f in
  if Qle_bool d (1 # 2) then
    if Qle_bool (1 # 2) d then (if Z.even f then f else (f + 1)%Z) else f
  else (f + 1)%Z.

(** The exponent of the unit in the last place of the doubles around [x]:
    53 significant bits, and the subnormal spacing [2^-1074] at the
    bottom. *)
Definition scaleExp (x : Q) : Z := Z.max (binade x - 52) (-1074).

Definition roundPositive (x : Q) : Q :=
  let e := scaleExp x in
  inject_Z (roundHalfEven (x / 2 ^ e)) * 2 ^ e.

(** Round to nearest, ties to even. *)
Definition roundDouble (x : Q) : Q :=
  match x ?= 0 with
  | Eq => 0
  | Gt => roundPositive x
  | Lt => - roundPositive (- x)
  end.

(** The reciprocal of that spacing, an integer wherever the exponent is not
    positive. *)
Definition scaleP (x : Q) : Z := (2 ^ (- scaleExp x))%Z.

(** Half of the spacing of the doubles just below 1. *)
Definition halfUlp : Q := 1 # 9007199254740992.

(** The rational is a double. *)
Definition isDouble (r : Q) : bool := Qeq_bool (roundDouble r) r.

(** What [Math.random()] may return: a double, at least 0 and below 1. *)
Definition isRandomValue (r : Q) : bool :=
  isDouble r && Qle_bool 0 r && negb (Qle_bool 1 r).

End Doubles.

(** The length of an array is below [2^32]. *)
Definition arrayLengthLimit : Z := 2 ^ 32.

(** ** Random picks *)

(** [Math.floor(r * n)] for a value [r] returned by [Math.random()]: the
    floor of the double that the multiplication gives. *)
Definition randomIndex (r : Q) (n : nat) : nat :=
  Z.to_nat (Qfloor (roundDouble (r * inject_Z (Z.of_nat n))%Q)).

(** [getRandomWord]; [None] is [null]. [r] is the value [Math.random()]
    returns when it is called. *)
Definition getRandomWord (st : Store) (r : Q) : option Entry :=
  if negb (isLoaded st) || (List.length (words st) =? 0) then None
  else nth_error (words st) (randomIndex r (List.length (words st))).

(** The [while] loop of [getMultipleRandomWords]. [draws] lists the values
    that the successive calls of [Math.random()] return; the loop is still
    running when they are used up, which is the result [None]. An element of
    [result] is [this.words[randomIndex]], [None] standing for [undefined]. *)
Fixpoint pickLoop (ws : list Entry) (maxCount : Z) (draws : list Q)
         (selectedIndices : list nat) (result : list (option Entry))
  : option (list (option Entry)) :=
  if (Z.of_nat (List.length selectedIndices) <? maxCount)%Z then
    match draws with
    | [] => None
    | r :: draws' =>
        let randomIndex := randomIndex r (List.length ws) in
        if existsb (Nat.eqb randomIndex) selectedIndices
        then pickLoop ws maxCount draws' selectedIndices result
        else pickLoop ws maxCount draws'
                      (selectedIndices ++ [randomIndex])
                      (result ++ [nth_error ws randomIndex])
    end
  else Some result.

Definition getMultipleRandomWords (st : Store) (count : Z) (draws : list Q)
  : option (list (option Entry)) :=
  if negb (isLoaded st) || (List.length (words st) =? 0) then Some []
  else
    let maxCount := Z.min count (Z.of_nat (List.length (words st))) in
    pickLoop (words st) maxCount draws [] [].

(** ** Matcher *)

(** One row of the table [dp]: [diag] is [dp[i-1][j-1]], the head of [above]
    is [dp[i-1][j]] and [left] is [dp[i][j-1]]. *)
Fixpoint fillRow (c : ascii) (s2 : string) (diag : nat) (above : list nat)
         (left : nat) : list nat :=
  match s2, above with
  | String d s2', up :: above' =>
      let v := if Ascii.eqb c d then diag
               else 1 + Nat.min up (Nat.min left diag) in
      v :: fillRow c s2' up above' v
  | _, _ => []
  end.

(** Row [i >= 1] from row [i - 1]: [dp[i][0] = i]. *)
Definition nextRow (i : nat) (c : ascii) (s2 : string) (prev : list nat)
  : list nat :=
  match prev with
  | [] => []
  | diag :: above => i :: fillRow c s2 diag above i
  end.

(** The rows below row [i], whose value is [prev]; the result is the last
    row of the table. *)
Fixpoint dpRows (s1 s2 : string) (i : nat) (prev : list nat) : list nat :=
  match s1 with
  | EmptyString => prev
  | String c s1' => dpRows s1' s2 (S i) (nextRow (S i) c s2 prev)
  end.

(** [dp[s1.length][s2.length]], row 0 being [0, 1, ..., s2.length]. *)
Definition _editDistance (s1 s2 : string) : nat :=
  last (dpRows s1 s2 0 (seq 0 (S (String.length s2)))) 0.

(** The [for] loop of the subsequence check, from position [i] of [str] on;
    its result is the final [termIndex]. *)
Fixpoint subsequenceLoop (str term : string) (termIndex : nat) : nat :=
  match str with
  | EmptyString => termIndex
  | String c str' =>
      if termIndex <? String.length term then
        if Str.unit_eqb (Some c) (Str.charAt termIndex term)
        then subsequenceLoop str' term (S termIndex)
        else subsequenceLoop str' term termIndex
      else termIndex
  end.

(** [Math.abs(a - b)] on lengths. *)
Definition absDiff (a b : nat) : nat := (a - b) + (b - a).

Definition ofNat (n : nat) : Q := inject_Z (Z.of_nat n).

(** [Math.max(0, (maxLength - editDist) / maxLength * 100)], kept exact.
    The lengths that reach this point are at most 16, so two such quotients
    are equal or far apart, and the tests that the program makes on them
    ([> 40], [> 0], the comparator of the sort) come out the same on the
    doubles. *)
Definition similarityOf (maxLength editDist : nat) : Q :=
  Qmax 0 ((ofNat maxLength - ofNat editDist) / ofNat maxLength * 100)%Q.

Definition _fuzzyMatch (str term : string) : Q :=
  let strLower := Str.toLowerCase str in
  let termLower := Str.toLowerCase term in
  if String.eqb strLower termLower then 100%Q
  else if Str.includes strLower termLower then 80%Q
  else if String.length termLower
          <? absDiff (String.length strLower) (String.length termLower)
  then 0%Q
  else if subsequenceLoop strLower termLower 0 =? String.length termLower
  then 60%Q
  else if String.length termLower <=? 8 then
    let maxLength := Nat.max (String.length strLower) (String.length termLower) in
    let editDist := _editDistance strLower termLower in
    let similarity := similarityOf maxLength editDist in
    if Qle_bool similarity 40%Q then 0%Q else similarity
  else 0%Q.

(** ** Search engine *)

Definition maxResults : nat := 1000.

(** The exact match of strategy 1, as the content of [results]. *)
Definition exactResults (st : Store) (termLower : string) : list SearchResult :=
  match JSMap.get termLower (wordIndex st) with
  | Some (entry, _) => [scored entry 100%Q]
  | None => []
  end.

(** The scan of strategy 2 over the entries not yet visited; a fast match
    is the pair of an entry and its score. The result is
    [(fastMatches, expensiveMatches)]. *)
Fixpoint scanWords (termLower searchTerm : string) (ws : list Entry)
         (fastMatches : list (Entry * Q)) (expensiveMatches : list Entry)
  : list (Entry * Q) * list Entry :=
  match ws with
  | [] => (fastMatches, expensiveMatches)
  | entry :: ws' =>
      if String.eqb (Str.toLowerCase (word entry)) termLower
      then scanWords termLower searchTerm ws' fastMatches expensiveMatches
      else
        let wordLower := Str.toLowerCase (word entry) in
        let '(fast, expensive) :=
          if Str.startsWith wordLower termLower
          then (fastMatches ++ [(entry, 90%Q)], expensiveMatches)
          else if Str.includes wordLower termLower
          then (fastMatches ++ [(entry, 80%Q)], expensiveMatches)
          else if 3 <=? String.length searchTerm
          then (fastMatches, expensiveMatches ++ [entry])
          else (fastMatches, expensiveMatches) in
        if maxResults / 2 <=? List.length fast
        then (fast, expensive)
        else scanWords termLower searchTerm ws' fast expensive
  end.

(** The fuzzy loop over the candidates [expensiveMatches[i]], [i] below
    [fuzzyLimit]. *)
Fixpoint fuzzyLoop (searchTerm : string) (candidates : list Entry)
         (results : list SearchResult) : list SearchResult :=
  match candidates with
  | [] => results
  | entry :: rest =>
      let wordScore := _fuzzyMatch (word entry) searchTerm in
      let results' :=
        if Qle_bool wordScore 0%Q then results
        else results ++ [scored entry wordScore] in
      if maxResults <=? List.length results' then results'
      else fuzzyLoop searchTerm rest results'
  end.

(** [results] as it stands just before the final sort. *)
Definition collectResults (st : Store) (searchTerm : string)
  : list SearchResult :=
  let termLower := Str.toLowerCase searchTerm in
  let results := exactResults st termLower in
  let '(fastMatches, expensiveMatches) :=
    scanWords termLower searchTerm (words st) [] [] in
  let results := results ++ List.map (fun m => scored (fst m) (snd m)) fastMatches in
  if (List.length results <? 50) && (0 <? List.length expensiveMatches) then
    let fuzzyLimit := Nat.min (List.length expensiveMatches) 500 in
    fuzzyLoop searchTerm (firstn fuzzyLimit expensiveMatches) results
  else results.

(** [(a, b) => b.score - a.score] *)
Definition byScore (a b : SearchResult) : Q := (score b - score a)%Q.

Definition searchWords (st : Store) (searchTerm : string) : list SearchResult :=
  if negb (isLoaded st) || String.eqb searchTerm "" then []
  else firstn maxResults (array_sort byScore (collectResults st searchTerm)).

(** ** Result cache *)

Definition CACHE_SIZE_LIMIT : nat := 50.

Definition Cache : Type := JSMap.t (list SearchResult).

(** The caching step of [performLiveSearch] for a cache bounded by [limit]:
    at the bound the key that [keys().next()] yields is deleted, then the
    results are stored. *)
Definition cacheStore (limit : nat) (cache : Cache) (searchTerm : string)
           (results : list SearchResult) : Cache :=
  let cache' :=
    if limit <=? JSMap.size cache then
      match JSMap.firstKey cache with
      | Some firstKey => JSMap.delete firstKey cache
      | None => cache
      end
    else cache in
  JSMap.set searchTerm results cache'.

(** [performLiveSearch] on the cache, the animation-frame callback run to
    its end before the next call: a hit leaves the cache as it is, a miss
    searches and stores. *)
Definition performLiveSearch (st : Store) (cache : Cache) (searchTerm : string)
  : Cache :=
  if negb (isLoaded st) then cache
  else if JSMap.has searchTerm cache then cache
  else cacheStore CACHE_SIZE_LIMIT cache searchTerm (searchWords st searchTerm).

(** ** A sample host, for evaluation on concrete datasets

    Collation by code units and integer-valued numbers printed in decimal. *)

Definition codeUnitCompare (a b : string) : Z :=
  match String.compare a b with
  | Lt => (-1)%Z
  | Eq => 0%Z
  | Gt => 1%Z
  end.

Definition sampleHost : Host := {|
  localeCompare := codeUnitCompare;
  Number := Z;
  numberIsZero := Z.eqb 0;
  numberToString := fun z => NilZero.string_of_int (Z.to_int z)
|}.

(** The parsed object with the fields [word] and [definition]. *)
Definition entryObject (w d : string) : @JSValue sampleHost :=
  JObj [("word", JStr w); ("definition", JStr d)].

Definition sampleDataset : @JSValue sampleHost :=
  JArr [entryObject "apple" "a fruit";
        entryObject "application" "a program";
        entryObject "Apple" "a company"].

Definition sampleStore : Store := fst (loadWords newStore sampleDataset).

(** A dataset whose only word is a single space. *)
Definition blankWordDataset : @JSValue sampleHost :=
  JArr [entryObject " " "x"].

(** ** Vocabulary of the statements *)

(** [cellsOK p pre suf cells]: [cells] are the cells of the row of [dp] for
    the prefix [p] of [s1], from column [length pre] on, where [s2] is
    [pre ++ suf]; a cell that holds 0 sits at a column whose prefix of [s2]
    is [p] itself. *)
Fixpoint cellsOK (p pre suf : string) (cells : list nat) {struct cells} : Prop :=
  match cells with
  | [] => False
  | v :: cells' =>
      (v = 0 -> p = pre) /\
      match suf with
      | EmptyString => cells' = []
      | String d suf' => cellsOK p (pre ++ String d "") suf' cells'
      end
  end.

(** A score that is a whole number. *)
Definition isInteger (q : Q) : Prop := exists z : Z, (q == inject_Z z)%Q.

(** Descending order of score. *)
Definition descending (a b : SearchResult) : Prop := (score b <= score a)%Q.

Definition hasScore (s : Q) (r : SearchResult) : bool := Qeq_bool (score r) s.

(** A result that is not the exact match: its score stays below 100 and its
    word differs from the query, case folded. *)
Definition nonExact (termLower : string) (r : SearchResult) : Prop :=
  (score r < 100)%Q /\ Str.toLowerCase (res_word r) <> termLower.

Definition fastOK (termLower : string) (m : Entry * Q) : Prop :=
  nonExact termLower (scored (fst m) (snd m)).

Definition notTerm (termLower : string) (e : Entry) : Prop :=
  Str.toLowerCase (word e) <> termLower.

(** The cache that holds the results [v k] for the keys [ks], oldest first. *)
Definition cacheOf (v : string -> list SearchResult) (ks : list string) : Cache :=
  List.map (fun k => (k, v k)) ks.

(** Storing the results of the queries [ks], one after the other. *)
Definition storeAll (limit : nat) (v : string -> list SearchResult)
           (ks : list string) (cache : Cache) : Cache :=
  fold_left (fun c k => cacheStore limit c k (v k)) ks cache.

Fixpoint distinctKeys (ks : list string) : bool :=
  match ks with
  | [] => true
  | k :: ks' => negb (existsb (String.eqb k) ks') && distinctKeys ks'
  end.

(** The searches of the program itself, one query after the other. *)
Definition liveSearches (st : Store) (ks : list string) (cache : Cache) : Cache :=
  fold_left (performLiveSearch st) ks cache.

(** The invariant of an entry: word and definition are not empty once
    trimmed. *)
Definition entryInvariant (e : Entry) : bool :=
  negb (String.eqb (Str.trim (word e)) "") &&
  negb (String.eqb (Str.trim (definition e)) "").

(** The indices that the draws select in an array of length [n]. *)
Definition drawnIndices (n : nat) (draws : list Q) : list nat :=
  List.map (fun r => randomIndex r n) draws.

(** How many different values a list of indices holds. *)
Definition distinctCount (l : list nat) : nat :=
  List.length (nodup Nat.eq_dec l).

(** The last element of a list that passes a test. *)
Fixpoint findLast {X} (p : X -> bool) (l : list X) : option X :=
  match l with
  | [] => None
  | x :: l' =>
      match findLast p l' with
      | Some y => Some y
      | None => if p x then Some x else None
      end
  end.

Definition indexStep (m : JSMap.t (Entry * nat)) (ie : nat * Entry)
  : JSMap.t (Entry * nat) :=
  JSMap.set (Str.toLowerCase (word (snd ie))) (snd ie, fst ie) m.

(** The characters of a string, and those of its prefixes read from the
    last one back. *)
Definition chars (s : string) : list ascii := list_ascii_of_string s.

(** The recurrence that [_editDistance] tabulates, written as a recursive
    function on two prefixes given by their characters from the last one
    back: [dp[i][j]] is its value on the first [i] characters of [s1] and
    the first [j] of [s2]. *)
Fixpoint prefixDistance (u : list ascii) : list ascii -> nat :=
  fix inner (v : list ascii) : nat :=
    match u, v with
    | [], _ => List.length v
    | _, [] => List.length u
    | a :: u', b :: v' =>
        if Ascii.eqb a b then prefixDistance u' v'
        else 1 + Nat.min (prefixDistance u' v)
                         (Nat.min (inner v') (prefixDistance u' v'))
    end.

(** The row of the table for the prefix [u], from the column of the prefix
    [v] of [s2] on, [suf] being the rest of [s2]. *)
Fixpoint rowOf (u v : list ascii) (suf : string) : list nat :=
  prefixDistance u v ::
  match suf with
  | EmptyString => []
  | String d suf' => rowOf u (d :: v) suf'
  end.

(** [term] can be read in [str] from left to right, skipping characters. *)
Inductive isSubsequence : string -> string -> Prop :=
| sub_done : forall str, isSubsequence "" str
| sub_take : forall c term str,
    isSubsequence term str -> isSubsequence (String c term) (String c str)
| sub_skip : forall c term str,
    isSubsequence term str -> isSubsequence term (String c str).

(** [term] without its first [k] characters. *)
Fixpoint dropChars (k : nat) (term : string) : string :=
  match k, term with
  | 0, _ => term
  | S k', String _ term' => dropChars k' term'
  | S _, EmptyString => EmptyString
  end.

(** The fast match that the scan records for an entry, if any. *)
Definition fastMatchOf (termLower : string) (entry : Entry) : list (Entry * Q) :=
  let wordLower := Str.toLowerCase (word entry) in
  if String.eqb wordLower termLower then []
  else if Str.startsWith wordLower termLower then [(entry, 90%Q)]
  else if Str.includes wordLower termLower then [(entry, 80%Q)]
  else [].

(** Whether the word of an entry contains the query, case folded. *)
Definition containsTerm (termLower : string) (entry : Entry) : bool :=
  Str.includes (Str.toLowerCase (word entry)) termLower.

(** The parsed object [{word: w, definition: d}] on any host. *)
Definition objectOf {host : Host} (w d : string) : JSValue :=
  JObj [("word", JStr w); ("definition", JStr d)].

(** The order of the own property keys of an object: the array indices
    (the decimal numerals, without a leading zero, of the integers below
    [2^32 - 1]) come first, in ascending order; the other keys follow, each
    one once, in the order of their creation. [ownKeyOrder ks] says that a
    list of keys is one that [Object.entries] can enumerate in that
    order. *)
Definition isDigit (c : ascii) : bool :=
  (48 <=? nat_of_ascii c) && (nat_of_ascii c <=? 57).

Fixpoint digitsValue (s : string) (acc : Z) : Z :=
  match s with
  | EmptyString => acc
  | String c s' => digitsValue s' (10 * acc + Z.of_nat (nat_of_ascii c - 48))%Z
  end.

Fixpoint allDigits (s : string) : bool :=
  match s with
  | EmptyString => true
  | String c s' => isDigit c && allDigits s'
  end.

Definition arrayIndex (k : string) : option Z :=
  match k with
  | EmptyString => None
  | String c rest =>
      if allDigits k
         && (negb (Ascii.eqb c "0") || String.eqb rest "")
         && (digitsValue k 0 <? 2 ^ 32 - 1)%Z
      then Some (digitsValue k 0)
      else None
  end.

Fixpoint ownKeyOrder (ks : list string) : bool :=
  match ks with
  | [] => true
  | k :: rest =>
      match arrayIndex k with
      | Some i =>
          forallb (fun k' => match arrayIndex k' with
                             | Some j => (i <? j)%Z
                             | None => true
                             end) rest
      | None =>
          forallb (fun k' => match arrayIndex k' with
                             | Some _ => false
                             | None => negb (String.eqb k k')
                             end) rest
      end && ownKeyOrder rest
  end.

(** The entries that a dataset of string pairs yields: the pairs whose word
    and definition are both non-empty, trimmed, in the order of the dataset. *)
Definition entriesOfPairs (pairs : list (string * string)) : list Entry :=
  List.map (fun p => mkEntry (Str.trim (fst p)) (Str.trim (snd p)))
           (filter (fun p => negb (String.eqb (fst p) "")
                             && negb (String.eqb (snd p) "")) pairs).

(** ** The search session of the page

    The module-level variables of the page, without the timer handle. *)

Definition RESULTS_PER_PAGE : nat := 10.

Record Session := mkSession {
  currentSearchResults : list SearchResult;
  currentSearchTerm : string;
  displayedResultsCount : nat;
  isSearchMode : bool;
  lastSearchTerm : string;
  cachedSearchResults : Cache
}.

Definition initialSession : Session := mkSession [] "" 0 false "" JSMap.empty.

(** What one call of [displaySearchResults] hands to the page: the results
    it renders, and the numbers on the load-more button when it adds one
    (how many the next click loads, how many remain). *)
Record Page := mkPage {
  resultsToShow : list SearchResult;
  loadMoreButton : option (nat * nat)
}.

(** [l.slice(start, stop)] for indices within the array. *)
Definition slice {X} (start stop : nat) (l : list X) : list X :=
  firstn (stop - start) (skipn start l).

Definition displaySearchResults (s : Session) (results : list SearchResult)
           (searchTerm : string) (isLoadMore : bool) : Session * Page :=
  let s1 :=
    if isLoadMore then s
    else mkSession results searchTerm 0 (isSearchMode s) (lastSearchTerm s)
                   (cachedSearchResults s) in
  let startIndex := displayedResultsCount s1 in
  let endIndex := Nat.min (startIndex + RESULTS_PER_PAGE) (List.length results) in
  let resultsToShow := slice startIndex endIndex results in
  let s2 := mkSession (currentSearchResults s1) (currentSearchTerm s1) endIndex
                      (isSearchMode s1) (lastSearchTerm s1)
                      (cachedSearchResults s1) in
  let button :=
    if endIndex <? List.length results then
      let remainingCount := List.length results - endIndex in
      Some (Nat.min RESULTS_PER_PAGE remainingCount, remainingCount)
    else None in
  (s2, mkPage resultsToShow button).

Definition loadMoreResults (s : Session) : Session * option Page :=
  if 0 <? List.length (currentSearchResults s) then
    let '(s', page) :=
      displaySearchResults s (currentSearchResults s) (currentSearchTerm s) true in
    (s', Some page)
  else (s, None).

Definition clearSearch (s : Session) : Session :=
  mkSession [] "" 0 false ""
            (if 20 <? JSMap.size (cachedSearchResults s) then JSMap.empty
             else cachedSearchResults s).

(** [performLiveSearch] on the whole session, the animation-frame callback
    run to its end before the next event. *)
Definition performLiveSearchSession (st : Store) (s : Session) (searchTerm : string)
  : Session * option Page :=
  if negb (isLoaded st) then (s, None)
  else
    match JSMap.get searchTerm (cachedSearchResults s) with
    | Some cachedResults =>
        let '(s', page) := displaySearchResults s cachedResults searchTerm false in
        (s', Some page)
    | None =>
        let results := searchWords st searchTerm in
        let cache := cacheStore CACHE_SIZE_LIMIT (cachedSearchResults s)
                                searchTerm results in
        let s1 := mkSession (currentSearchResults s) (currentSearchTerm s)
                            (displayedResultsCount s) true searchTerm cache in
        if 0 <? List.length results then
          let '(s', page) := displaySearchResults s1 results searchTerm false in
          (s', Some page)
        else
          (mkSession [] "" 0 true searchTerm cache, None)
    end.

(** The global functions behind the two buttons, as far as the session
    goes: a search in progress is cleared first. *)
Definition randomPressed (s : Session) : Session :=
  if isSearchMode s then clearSearch s else s.

(** The events of the page that reach the session. [Typed] and
    [EnterPressed] carry the content of the search box; [KeyPressed] is a key
    pressed while the search box does not have the focus. *)
Inductive Event :=
| Typed (value : string)
| EnterPressed (value : string)
| KeyPressed (key : string)
| RandomClicked
| MultipleClicked
| LoadMoreClicked.

Definition step (st : Store) (s : Session) (ev : Event) : Session :=
  match ev with
  | Typed value =>
      let query := Str.trim value in
      if String.length query =? 0 then clearSearch s
      else if String.length query <? 2 then s
      else fst (performLiveSearchSession st s query)
  | EnterPressed value =>
      let query := Str.trim value in
      if 2 <=? String.length query
      then fst (performLiveSearchSession st s query)
      else s
  | KeyPressed key =>
      if String.eqb key "r" || String.eqb key "R" || String.eqb key " "
      then randomPressed s
      else if String.eqb key "5" then randomPressed s
      else if String.eqb key "/" then s
      else if String.eqb key "Escape" then clearSearch s
      else s
  | RandomClicked => randomPressed s
  | MultipleClicked => randomPressed s
  | LoadMoreClicked => fst (loadMoreResults s)
  end.

Definition run (st : Store) (events : list Event) : Session :=
  fold_left (step st) events initialSession.

(** [n] clicks on the load-more button: the session reached and the pages
    rendered, in order. *)
Fixpoint loadMoreTimes (n : nat) (s : Session) : Session * list Page :=
  match n with
  | 0 => (s, [])
  | S n' =>
      match loadMoreResults s with
      | (s', Some page) =>
          let '(s'', pages) := loadMoreTimes n' s' in (s'', page :: pages)
      | (s', None) => loadMoreTimes n' s'
      end
  end.

(** [Math.round(score / 10)], the number of filled marks of the relevance
    bar; the bar is [repeat(scoreBar)] followed by [repeat(10 - scoreBar)]. *)
Definition scoreBar (r : SearchResult) : Z :=
  Qfloor (score r / 10 + (1 # 2))%Q.

(** A cache whose values are what the search returns for their keys. *)
Definition coherent (st : Store) (cache : Cache) : Prop :=
  Forall (fun kv => snd kv = searchWords st (fst kv)) cache.

(** The keys of a cache are trimmed queries of at least 2 characters. *)
Definition properKeys (cache : Cache) : Prop :=
  Forall (fun k => 2 <= String.length k /\ Str.trim k = k) (JSMap.keys cache).

(** What every session reached by the events of the page satisfies. *)
Definition sessionOK (st : Store) (s : Session) : Prop :=
  JSMap.size (cachedSearchResults s) <= CACHE_SIZE_LIMIT /\
  properKeys (cachedSearchResults s) /\
  coherent st (cachedSearchResults s) /\
  displayedResultsCount s <= List.length (currentSearchResults s) /\
  (currentSearchResults s = [] \/
   currentSearchResults s = searchWords st (currentSearchTerm s)).

(** A draw that selects the index [i] of an array of length [n]: the
    largest multiple of [2^-53] that is at most the middle [(2i+1) / 2n] of
    the [i]-th of [n] equal parts of the unit interval. *)
Definition drawFor (i n : nat) : Q :=
  (inject_Z ((2 * Z.of_nat i + 1) * 2 ^ 52 / Z.of_nat n) * halfUlp)%Q.

(** * Properties *)

(** ** Strings *)

Lemma string_eqb_false_iff (a b : string) : String.eqb a b = false <-> a <> b.
Proof.
  destruct (String.eqb_spec a b); split; intros; congruence.
Qed.

Lemma append_empty_r (s : string) : (s ++ "")%string = s.
Proof.
  induction s as [|c s IH]; simpl; [reflexivity | now rewrite IH].
Qed.

Lemma append_snoc (p : string) (c : ascii) (s : string) :
  ((p ++ String c "") ++ s)%string = (p ++ String c s)%string.
Proof.
  induction p as [|d p IH]; simpl; [reflexivity | now rewrite IH].
Qed.

Lemma toLowerCase_empty_iff (s : string) : Str.toLowerCase s = "" <-> s = "".
Proof.
  split; [| now intros ->].
  destruct s; [reflexivity | discriminate].
Qed.

Lemma lower_unit_idem (c : ascii) :
  Str.lower_unit (Str.lower_unit c) = Str.lower_unit c.
Proof.
  destruct c as [[] [] [] [] [] [] [] []]; reflexivity.
Qed.

Lemma toLowerCase_idem (s : string) :
  Str.toLowerCase (Str.toLowerCase s) = Str.toLowerCase s.
Proof.
  induction s as [|c s IH]; simpl; [reflexivity|].
  now rewrite lower_unit_idem, IH.
Qed.

Lemma startsWith_empty (s : string) : Str.startsWith s "" = true.
Proof. destruct s; reflexivity. Qed.

Lemma includes_empty (s : string) : Str.includes s "" = true.
Proof.
  destruct s; simpl; [reflexivity|]. reflexivity.
Qed.

(** ** The edit-distance table *)

Lemma cellsOK_row0 (pre suf : string) :
  cellsOK "" pre suf (seq (String.length pre) (S (String.length suf))).
Proof.
  revert pre; induction suf as [|d suf IH]; intros pre; simpl.
  - split; [|reflexivity]. intros H. destruct pre; [reflexivity | discriminate].
  - split.
    + intros H. destruct pre; [reflexivity | discriminate].
    + specialize (IH (pre ++ String d "")%string).
      replace (String.length (pre ++ String d "")) with (S (String.length pre)) in IH.
      * exact IH.
      * clear. induction pre as [|a pre IH]; simpl; [reflexivity | now rewrite <- IH].
Qed.

Lemma cellsOK_fillRow (c : ascii) (p : string) :
  forall suf pre diag above left,
    cellsOK p pre suf (diag :: above) ->
    (left = 0 -> (p ++ String c "")%string = pre) ->
    cellsOK (p ++ String c "") pre suf (left :: fillRow c suf diag above left).
Proof.
  induction suf as [|d suf IH]; intros pre diag above left Hrow Hleft.
  - cbn [cellsOK fillRow] in *. destruct Hrow as [_ Hab]. subst above. now split.
  - cbn [cellsOK] in Hrow. destruct Hrow as [Hdiag Hab].
    destruct above as [|up above']; [now cbn in Hab|].
    split; [exact Hleft|].
    cbn [fillRow].
    apply IH; [exact Hab|].
    destruct (Ascii.eqb_spec c d) as [->|Hcd].
    + intros Hz. now rewrite (Hdiag Hz).
    + intros Hz. discriminate.
Qed.

Lemma cellsOK_last (p : string) :
  forall suf pre cells,
    cellsOK p pre suf cells -> last cells 0 = 0 -> p = (pre ++ suf)%string.
Proof.
  induction suf as [|d suf IH]; intros pre cells H Hl.
  - destruct cells as [|v cells']; [now cbn in H|].
    destruct H as [Hv ->]. simpl in Hl. rewrite append_empty_r. auto.
  - destruct cells as [|v cells']; [now cbn in H|].
    destruct H as [_ H].
    destruct cells' as [|w cells'']; [now cbn in H|].
    rewrite <- append_snoc. apply (IH _ _ H). exact Hl.
Qed.

Lemma cellsOK_dpRows (s2 : string) :
  forall s1 p i prev,
    cellsOK p "" s2 prev ->
    cellsOK (p ++ s1) "" s2 (dpRows s1 s2 i prev).
Proof.
  induction s1 as [|c s1 IH]; intros p i prev H; simpl.
  - now rewrite append_empty_r.
  - rewrite <- append_snoc. apply IH.
    destruct prev as [|diag above]; [now cbn in H|].
    unfold nextRow. apply cellsOK_fillRow; [exact H | discriminate].
Qed.

(** An edit distance of 0 is found between equal strings only. *)
Lemma editDistance_zero (s1 s2 : string) :
  _editDistance s1 s2 = 0 -> s1 = s2.
Proof.
  unfold _editDistance. intros H.
  pose proof (cellsOK_row0 "" s2) as H0. simpl String.length in H0.
  pose proof (cellsOK_dpRows s2 s1 "" 0 _ H0) as H1.
  exact (cellsOK_last _ _ _ _ H1 H).
Qed.

(** ** The matcher *)

Lemma ofNat_nonneg (n : nat) : (0 <= ofNat n)%Q.
Proof.
  unfold ofNat. change 0%Q with (inject_Z 0). rewrite <- Zle_Qle. lia.
Qed.

Lemma ofNat_pos (n : nat) : 0 < n -> (0 < ofNat n)%Q.
Proof.
  intros H. unfold ofNat. change 0%Q with (inject_Z 0). rewrite <- Zlt_Qlt. lia.
Qed.

Lemma ofNat_ge_1 (n : nat) : 1 <= n -> (1 <= ofNat n)%Q.
Proof.
  intros H. unfold ofNat. change 1%Q with (inject_Z 1). rewrite <- Zle_Qle. lia.
Qed.

Lemma quotient_zero (x : Q) : (x / ofNat 0 * 100 == 0)%Q.
Proof.
  destruct x as [a b]. unfold ofNat, Qdiv, Qmult, Qinv, Qeq. simpl. lia.
Qed.

Lemma similarityOf_range (maxLength editDist : nat) :
  (0 <= similarityOf maxLength editDist <= 100)%Q.
Proof.
  unfold similarityOf. split; [apply Q.le_max_l|].
  apply Q.max_lub; [discriminate|].
  destruct maxLength as [|m].
  - rewrite quotient_zero. lra.
  - pose proof (ofNat_pos (S m) (Nat.lt_0_succ m)) as Ha.
    pose proof (ofNat_nonneg editDist) as Hb.
    assert (Hq : ((ofNat (S m) - ofNat editDist) / ofNat (S m) <= 1)%Q)
      by (apply Qle_shift_div_r; [exact Ha | lra]).
    lra.
Qed.

Lemma similarityOf_lt_100 (maxLength editDist : nat) :
  1 <= editDist -> (similarityOf maxLength editDist < 100)%Q.
Proof.
  intros Hd. unfold similarityOf.
  apply Q.max_lub_lt; [reflexivity|].
  destruct maxLength as [|m].
  - rewrite quotient_zero. lra.
  - pose proof (ofNat_pos (S m) (Nat.lt_0_succ m)) as Ha.
    pose proof (ofNat_ge_1 editDist Hd) as Hb.
    assert (Hq : ((ofNat (S m) - ofNat editDist) / ofNat (S m) < 1)%Q)
      by (apply Qlt_shift_div_r; [exact Ha | lra]).
    lra.
Qed.

Lemma fuzzyMatch_range (str term : string) :
  (0 <= _fuzzyMatch str term <= 100)%Q.
Proof.
  unfold _fuzzyMatch.
  repeat match goal with
         | |- context [if ?b then _ else _] => destruct b
         end;
    try (split; discriminate).
  apply similarityOf_range.
Qed.

(** A score of 100 is the score of an exact match only. *)
Lemma fuzzyMatch_lt_100 (str term : string) :
  Str.toLowerCase str <> Str.toLowerCase term ->
  (_fuzzyMatch str term < 100)%Q.
Proof.
  intros Hne. unfold _fuzzyMatch.
  destruct (String.eqb_spec (Str.toLowerCase str) (Str.toLowerCase term))
    as [Heq|_]; [contradiction|].
  repeat match goal with
         | |- context [if ?b then _ else _] => destruct b
         end;
    try reflexivity.
  apply similarityOf_lt_100.
  destruct (_editDistance (Str.toLowerCase str) (Str.toLowerCase term)) eqn:Hd;
    [|lia].
  apply editDistance_zero in Hd. contradiction.
Qed.

(** C2, as stated, fails: the empty query is a substring of every
    candidate, so the contains tier answers 80. *)
Lemma C2_empty_query_scores_positively :
  ~ (forall x : string, (_fuzzyMatch x "" == 0)%Q).
Proof.
  intros H. specialize (H "hello"). vm_compute in H. discriminate H.
Qed.

(** C2, amended: the score of a candidate against the empty query is 100
    for the empty candidate and 80 for every other one. *)
Theorem C2_fuzzyMatch_empty_query :
  forall x : string,
    _fuzzyMatch x "" = if String.eqb x "" then 100%Q else 80%Q.
Proof.
  intros x. unfold _fuzzyMatch. simpl Str.toLowerCase.
  destruct x as [|c x]; [reflexivity|].
  cbn [Str.toLowerCase]. 
  replace (String.eqb (String (Str.lower_unit c) (Str.toLowerCase x)) "") with false
    by (symmetry; apply string_eqb_false_iff; discriminate).
  rewrite includes_empty.
  replace (String.eqb (String c x) "") with false
    by (symmetry; apply string_eqb_false_iff; discriminate).
  reflexivity.
Qed.

(** C3, as stated, fails: the edit-distance tier returns the quotient
    itself; for ["abc"] against ["abd"] it is 200/3. *)
Lemma C3_score_not_integer :
  ~ (forall candidate query : string,
        isInteger (_fuzzyMatch candidate query) /\
        (0 <= _fuzzyMatch candidate query <= 100)%Q).
Proof.
  intros H. destruct (H "abc" "abd") as [[z Hz] _].
  assert (E : _fuzzyMatch "abc" "abd" = 200 # 3) by (vm_compute; reflexivity).
  rewrite E in Hz. unfold Qeq in Hz. simpl in Hz. lia.
Qed.

(** C3, amended: every score is a number between 0 and 100 inclusive. *)
Theorem C3_fuzzyMatch_range :
  forall candidate query : string,
    (0 <= _fuzzyMatch candidate query)%Q /\ (_fuzzyMatch candidate query <= 100)%Q.
Proof.
  intros candidate query. apply fuzzyMatch_range.
Qed.

(** ** The sort *)

Section SortFacts.
Context {A : Type} (cmp : A -> A -> Q).

Lemma sort_insert_perm (x : A) (l : list A) :
  Permutation (x :: l) (sort_insert cmp x l).
Proof.
  induction l as [|y l IH]; simpl; [apply Permutation_refl|].
  destruct (Qle_bool (cmp x y) 0); [apply Permutation_refl|].
  eapply perm_trans; [apply perm_swap|]. now apply perm_skip.
Qed.

Lemma array_sort_perm (l : list A) : Permutation l (array_sort cmp l).
Proof.
  induction l as [|x l IH]; simpl; [apply perm_nil|].
  eapply perm_trans; [apply perm_skip, IH | apply sort_insert_perm].
Qed.

Lemma array_sort_length (l : list A) :
  List.length (array_sort cmp l) = List.length l.
Proof. symmetry. apply Permutation_length, array_sort_perm. Qed.

End SortFacts.

Lemma byScore_keeps (a b : SearchResult) :
  Qle_bool (byScore a b) 0 = true <-> (score b <= score a)%Q.
Proof.
  rewrite Qle_bool_iff. unfold byScore. split; intros H; lra.
Qed.

Lemma byScore_moves (a b : SearchResult) :
  Qle_bool (byScore a b) 0 = false -> (score a < score b)%Q.
Proof.
  intros H. apply Qnot_le_lt. intros Hle.
  apply byScore_keeps in Hle. congruence.
Qed.

Lemma sort_insert_descending (x : SearchResult) (l : list SearchResult) :
  StronglySorted descending l ->
  StronglySorted descending (sort_insert byScore x l).
Proof.
  induction l as [|y l IH]; intros Hs; simpl.
  - constructor; constructor.
  - apply StronglySorted_inv in Hs. destruct Hs as [Hl Hy].
    destruct (Qle_bool (byScore x y) 0) eqn:E.
    + apply byScore_keeps in E.
      constructor; [constructor; assumption|].
      constructor; [exact E|].
      eapply Forall_impl; [|exact Hy].
      intros z Hz. unfold descending in *. lra.
    + apply byScore_moves in E.
      constructor; [now apply IH|].
      eapply Permutation_Forall; [apply sort_insert_perm|].
      constructor; [unfold descending; lra | exact Hy].
Qed.

Lemma array_sort_descending (l : list SearchResult) :
  StronglySorted descending (array_sort byScore l).
Proof.
  induction l as [|x l IH]; simpl; [constructor|].
  now apply sort_insert_descending.
Qed.

Lemma sort_insert_stable (s : Q) (x : SearchResult) (l : list SearchResult) :
  filter (hasScore s) (sort_insert byScore x l) = filter (hasScore s) (x :: l).
Proof.
  induction l as [|y l IH]; [reflexivity|].
  cbn [sort_insert].
  destruct (Qle_bool (byScore x y) 0) eqn:E; [reflexivity|].
  apply byScore_moves in E.
  cbn [filter] in *. rewrite IH.
  destruct (hasScore s y) eqn:Ey; [|reflexivity].
  destruct (hasScore s x) eqn:Ex; [|reflexivity].
  unfold hasScore in Ex, Ey. apply Qeq_bool_iff in Ex, Ey. lra.
Qed.

(** Results of equal score keep their relative order. *)
Lemma array_sort_stable (s : Q) (l : list SearchResult) :
  filter (hasScore s) (array_sort byScore l) = filter (hasScore s) l.
Proof.
  induction l as [|x l IH]; [reflexivity|].
  cbn [array_sort fold_right]. fold (array_sort byScore l).
  rewrite sort_insert_stable. cbn [filter]. now rewrite IH.
Qed.

(** A result that no later one beats stays in front. *)
Lemma array_sort_head (x : SearchResult) (l : list SearchResult) :
  Forall (fun r => (score r <= score x)%Q) l ->
  array_sort byScore (x :: l) = x :: array_sort byScore l.
Proof.
  intros H. cbn [array_sort fold_right]. fold (array_sort byScore l).
  assert (Hs : Forall (fun r => (score r <= score x)%Q) (array_sort byScore l))
    by (eapply Permutation_Forall; [apply array_sort_perm | exact H]).
  destruct (array_sort byScore l) as [|y l']; [reflexivity|].
  cbn [sort_insert]. inversion Hs as [|? ? Hy _]; subst.
  apply byScore_keeps in Hy. now rewrite Hy.
Qed.

(** ** The search engine *)

Lemma scanWords_spec (termLower searchTerm : string) :
  forall ws fastMatches expensiveMatches,
    Forall (fastOK termLower) fastMatches ->
    Forall (notTerm termLower) expensiveMatches ->
    List.length fastMatches < 500 ->
    Forall (fastOK termLower)
           (fst (scanWords termLower searchTerm ws fastMatches expensiveMatches)) /\
    Forall (notTerm termLower)
           (snd (scanWords termLower searchTerm ws fastMatches expensiveMatches)) /\
    List.length
      (fst (scanWords termLower searchTerm ws fastMatches expensiveMatches)) <= 500.
Proof.
  induction ws as [|entry ws IH]; intros fast expensive Hf He Hn.
  - cbn [scanWords fst snd]. repeat split; [assumption | assumption | lia].
  - cbn [scanWords].
    destruct (String.eqb_spec (Str.toLowerCase (word entry)) termLower) as [Heq|Hne];
      [now apply IH|].
    change (maxResults / 2) with 500.
    assert (Hfast : forall s, (s < 100)%Q -> Forall (fastOK termLower) (fast ++ [(entry, s)])).
    { intros s Hs. apply Forall_app. split; [assumption|].
      constructor; [|constructor]. split; [exact Hs | exact Hne]. }
    assert (Hexp : Forall (notTerm termLower) (expensive ++ [entry])).
    { apply Forall_app. split; [assumption|]. constructor; [exact Hne | constructor]. }
    assert (Hlen : forall s, List.length (fast ++ [(entry, s)]) = S (List.length fast)).
    { intros s. rewrite length_app. simpl. lia. }
    destruct (Str.startsWith (Str.toLowerCase (word entry)) termLower);
      [|destruct (Str.includes (Str.toLowerCase (word entry)) termLower);
        [|destruct (3 <=? String.length searchTerm)]];
      match goal with
      | |- context [500 <=? ?n] => destruct (Nat.leb_spec 500 n) as [Hge|Hlt]
      end;
      try (apply IH; auto; try (apply Hfast; reflexivity); lia);
      cbn [fst snd]; repeat split; auto;
      try (apply Hfast; reflexivity); rewrite ?Hlen in *; lia.
Qed.

Lemma fuzzyLoop_spec (searchTerm : string) :
  forall candidates results,
    Forall (notTerm (Str.toLowerCase searchTerm)) candidates ->
    exists added,
      fuzzyLoop searchTerm candidates results = results ++ added /\
      Forall (nonExact (Str.toLowerCase searchTerm)) added /\
      List.length added <= List.length candidates.
Proof.
  induction candidates as [|entry rest IH]; intros results Hc.
  - exists []. cbn [fuzzyLoop]. rewrite app_nil_r. repeat split; auto.
  - inversion Hc as [|? ? Hentry Hrest]; subst.
    cbn [fuzzyLoop].
    assert (Hne : nonExact (Str.toLowerCase searchTerm)
                           (scored entry (_fuzzyMatch (word entry) searchTerm))).
    { split; [now apply fuzzyMatch_lt_100 | exact Hentry]. }
    destruct (Qle_bool (_fuzzyMatch (word entry) searchTerm) 0).
    + destruct (maxResults <=? List.length results).
      * exists []. rewrite app_nil_r. repeat split; auto. simpl; lia.
      * destruct (IH results Hrest) as [added [E [Ha Hl]]].
        exists added. repeat split; auto. simpl; lia.
    + destruct (maxResults <=? List.length (results ++ [scored entry (_fuzzyMatch (word entry) searchTerm)])).
      * eexists. split; [reflexivity|]. split; [now constructor | simpl; lia].
      * destruct (IH (results ++ [scored entry (_fuzzyMatch (word entry) searchTerm)]) Hrest)
          as [added [E [Ha Hl]]].
        exists (scored entry (_fuzzyMatch (word entry) searchTerm) :: added).
        rewrite E, <- app_assoc. split; [reflexivity|].
        split; [now constructor | simpl; lia].
Qed.

Lemma exactResults_cases (st : Store) (termLower : string) :
  exactResults st termLower = [] \/
  exists e i, JSMap.get termLower (wordIndex st) = Some (e, i) /\
              exactResults st termLower = [scored e 100].
Proof.
  unfold exactResults.
  destruct (JSMap.get termLower (wordIndex st)) as [[e i]|]; [right | now left].
  now exists e, i.
Qed.

Lemma exactResults_length (st : Store) (termLower : string) :
  List.length (exactResults st termLower) <= 1.
Proof.
  destruct (exactResults_cases st termLower) as [->|[e [i [_ ->]]]]; simpl; lia.
Qed.

(** What [results] holds before the sort: the exact match, if any, then
    results that are not exact; never more than [maxResults]. *)
Lemma collectResults_shape (st : Store) (searchTerm : string) :
  exists rest,
    collectResults st searchTerm
    = exactResults st (Str.toLowerCase searchTerm) ++ rest /\
    Forall (nonExact (Str.toLowerCase searchTerm)) rest /\
    List.length (collectResults st searchTerm) <= maxResults.
Proof.
  unfold collectResults.
  set (termLower := Str.toLowerCase searchTerm).
  destruct (scanWords_spec termLower searchTerm (words st) [] [])
    as [Hf [He Hn]]; [constructor | constructor | simpl; lia |].
  destruct (scanWords termLower searchTerm (words st) [] []) as [fast expensive].
  cbn [fst snd] in Hf, He, Hn.
  assert (Hmap : Forall (nonExact termLower)
                        (List.map (fun m => scored (fst m) (snd m)) fast)).
  { rewrite Forall_map. exact Hf. }
  pose proof (exactResults_length st termLower) as Hx.
  destruct ((List.length (exactResults st termLower
                          ++ List.map (fun m => scored (fst m) (snd m)) fast) <? 50)
            && (0 <? List.length expensive)) eqn:Hcond.
  - apply andb_prop in Hcond. destruct Hcond as [H50 _].
    apply Nat.ltb_lt in H50.
    set (cands := firstn (Nat.min (List.length expensive) 500) expensive).
    assert (Hc : Forall (notTerm termLower) cands).
    { rewrite Forall_forall in *. intros e Hin.
      apply He. rewrite <- (firstn_skipn (Nat.min (List.length expensive) 500) expensive).
      apply in_or_app. now left. }
    destruct (fuzzyLoop_spec searchTerm cands
                (exactResults st termLower
                 ++ List.map (fun m => scored (fst m) (snd m)) fast) Hc)
      as [added [E [Ha Hl]]].
    exists (List.map (fun m => scored (fst m) (snd m)) fast ++ added).
    rewrite E, <- app_assoc. split; [reflexivity|].
    split; [apply Forall_app; now split|].
    assert (List.length cands <= 500)
      by (unfold cands; rewrite length_firstn; lia).
    rewrite !length_app in *. unfold maxResults. lia.
  - exists (List.map (fun m => scored (fst m) (snd m)) fast).
    split; [reflexivity|]. split; [exact Hmap|].
    rewrite length_app, length_map. unfold maxResults. lia.
Qed.

Lemma searchWords_unfold (st : Store) (searchTerm : string) :
  isLoaded st = true -> searchTerm <> "" ->
  searchWords st searchTerm
  = array_sort byScore (collectResults st searchTerm).
Proof.
  intros Hl Hq. unfold searchWords. rewrite Hl. cbn [negb orb].
  apply string_eqb_false_iff in Hq. rewrite Hq.
  apply firstn_all2. rewrite array_sort_length.
  destruct (collectResults_shape st searchTerm) as [_ [_ [_ H]]]. exact H.
Qed.

Lemma searchWords_guard (st : Store) (searchTerm : string) :
  isLoaded st = false \/ searchTerm = "" -> searchWords st searchTerm = [].
Proof.
  unfold searchWords. intros [H | H]; rewrite H; [reflexivity|].
  now rewrite orb_true_r.
Qed.

(** The sorted results: the exact match first, when there is one. *)
Lemma searchWords_shape (st : Store) (searchTerm : string) :
  exists exact rest,
    searchWords st searchTerm = exact ++ rest /\
    (exact = [] \/
     exists e i,
       JSMap.get (Str.toLowerCase searchTerm) (wordIndex st) = Some (e, i) /\
       exact = [scored e 100]) /\
    Forall (nonExact (Str.toLowerCase searchTerm)) rest.
Proof.
  destruct (isLoaded st) eqn:Hl; [destruct (String.eqb_spec searchTerm "") as [Hq|Hq]|].
  - exists [], []. rewrite searchWords_guard by now right. repeat split; auto.
  - rewrite (searchWords_unfold _ _ Hl Hq).
    destruct (collectResults_shape st searchTerm) as [rest [E [Hrest _]]].
    rewrite E.
    destruct (exactResults_cases st (Str.toLowerCase searchTerm))
      as [Hx | [e [i [Hget Hx]]]]; rewrite Hx.
    + exists [], (array_sort byScore rest). cbn [app].
      split; [reflexivity|]. split; [now left|].
      eapply Permutation_Forall; [apply array_sort_perm | exact Hrest].
    + exists [scored e 100], (array_sort byScore rest).
      split.
      * cbn [app]. apply array_sort_head.
        eapply Forall_impl; [|exact Hrest].
        intros r [Hr _]. simpl. lra.
      * split; [right; now exists e, i|].
        eapply Permutation_Forall; [apply array_sort_perm | exact Hrest].
  - exists [], []. rewrite searchWords_guard by now left. repeat split; auto.
Qed.

Lemma nonExact_filtered (termLower : string) (rest : list SearchResult) :
  Forall (nonExact termLower) rest -> filter (hasScore 100) rest = [].
Proof.
  induction 1 as [|r rest [Hr _] _ IH]; [reflexivity|].
  cbn [filter]. rewrite IH.
  destruct (hasScore 100 r) eqn:E; [|reflexivity].
  unfold hasScore in E. apply Qeq_bool_iff in E. lra.
Qed.

(** C6: the results of a search are in descending order of score, hold at
    most 1000 elements and, whenever the search goes past its guard, are a
    rearrangement of the collected results in which those of equal score
    keep the order in which they were collected. *)
Theorem C6_search_sorted_stable_capped :
  forall (st : Store) (query : string),
    StronglySorted descending (searchWords st query) /\
    List.length (searchWords st query) <= 1000 /\
    ((searchWords st query = [] /\ (isLoaded st = false \/ query = "")) \/
     (Permutation (collectResults st query) (searchWords st query) /\
      forall s : Q,
        filter (hasScore s) (searchWords st query)
        = filter (hasScore s) (collectResults st query))).
Proof.
  intros st query.
  assert (Hguard : isLoaded st = false \/ query = "" \/
                   (isLoaded st = true /\ query <> "")).
  { destruct (isLoaded st); [|now left].
    destruct (String.eqb_spec query ""); [right; now left | right; right; now split]. }
  destruct Hguard as [H | [H | [Hl Hq]]].
  - rewrite searchWords_guard by now left.
    split; [constructor|]. split; [simpl; lia|]. left. split; [reflexivity | now left].
  - rewrite searchWords_guard by now right.
    split; [constructor|]. split; [simpl; lia|]. left. split; [reflexivity | now right].
  - rewrite (searchWords_unfold _ _ Hl Hq).
    split; [apply array_sort_descending|].
    split.
    + rewrite array_sort_length.
      destruct (collectResults_shape st query) as [_ [_ [_ H]]]. exact H.
    + right. split; [apply array_sort_perm|].
      intros s. apply array_sort_stable.
Qed.

(** C9: a search on a store that is not loaded, or with the empty query,
    returns the empty sequence, and a random pick on a store that is not
    loaded, or that holds no entry, returns [None]; both functions are
    total. *)
Theorem C9_search_and_random_degrade :
  forall (ws : list Entry) (loaded : bool) (index : JSMap.t (Entry * nat))
         (sorted : list Entry) (query : string) (r : Q),
    searchWords (mkStore ws false index sorted) query = [] /\
    searchWords (mkStore ws loaded index sorted) "" = [] /\
    getRandomWord (mkStore ws false index sorted) r = None /\
    getRandomWord (mkStore [] loaded index sorted) r = None.
Proof.
  intros. repeat split.
  - unfold searchWords. cbn. now rewrite orb_true_r.
  - unfold getRandomWord. cbn. now rewrite orb_true_r.
Qed.

(** C10: the scan skips every entry whose word equals the query, case
    folded, so the results are the exact match taken from [wordIndex], if
    there is one, followed by results whose score is below 100 and whose
    word differs from the query; at most one result has score 100. *)
Theorem C10_single_exact_result :
  forall (st : Store) (query : string),
    (let '(fastMatches, expensiveMatches) :=
       scanWords (Str.toLowerCase query) query (words st) [] [] in
     Forall (fun m => Str.toLowerCase (word (fst m)) <> Str.toLowerCase query)
            fastMatches /\
     Forall (fun e => Str.toLowerCase (word e) <> Str.toLowerCase query)
            expensiveMatches) /\
    (exists exact rest,
        searchWords st query = exact ++ rest /\
        (exact = [] \/
         exists e i,
           JSMap.get (Str.toLowerCase query) (wordIndex st) = Some (e, i) /\
           exact = [scored e 100]) /\
        Forall (fun r => (score r < 100)%Q /\
                         Str.toLowerCase (res_word r) <> Str.toLowerCase query)
               rest) /\
    List.length (filter (hasScore 100) (searchWords st query)) <= 1.
Proof.
  intros st query. split; [|split].
  - destruct (scanWords_spec (Str.toLowerCase query) query (words st) [] [])
      as [Hf [He _]]; [constructor | constructor | simpl; lia |].
    destruct (scanWords (Str.toLowerCase query) query (words st) [] [])
      as [fast expensive].
    cbn [fst snd] in Hf, He. split; [|exact He].
    eapply Forall_impl; [|exact Hf]. intros m [_ H]. exact H.
  - destruct (searchWords_shape st query) as [exact [rest [E [Hx Hrest]]]].
    exists exact, rest. repeat split; assumption.
  - destruct (searchWords_shape st query) as [exact [rest [E [Hx Hrest]]]].
    rewrite E, filter_app, (nonExact_filtered _ _ Hrest), app_nil_r.
    destruct Hx as [-> | [e [i [_ ->]]]]; simpl; lia.
Qed.

(** ** The result cache *)

Lemma existsb_eqb_In (k : string) (ks : list string) :
  existsb (String.eqb k) ks = true <-> In k ks.
Proof.
  rewrite existsb_exists. split.
  - intros [x [Hin Hx]]. apply String.eqb_eq in Hx. now subst.
  - intros Hin. exists k. split; [assumption | apply String.eqb_refl].
Qed.

Lemma distinctKeys_NoDup (ks : list string) :
  distinctKeys ks = true <-> NoDup ks.
Proof.
  induction ks as [|k ks IH]; simpl.
  - split; [constructor | reflexivity].
  - rewrite andb_true_iff, negb_true_iff, IH. split.
    + intros [Hk Hks]. constructor; [|assumption].
      intros Hin. apply existsb_eqb_In in Hin. congruence.
    + intros H. inversion H as [|? ? Hk Hks]; subst. split; [|assumption].
      destruct (existsb (String.eqb k) ks) eqn:E; [|reflexivity].
      apply existsb_eqb_In in E. contradiction.
Qed.

Lemma get_cacheOf_in (v : string -> list SearchResult) (k : string) (ks : list string) :
  In k ks -> JSMap.get k (cacheOf v ks) = Some (v k).
Proof.
  induction ks as [|k' ks IH]; intros Hin; [destruct Hin|].
  cbn [cacheOf List.map JSMap.get]. fold (cacheOf v ks).
  destruct (String.eqb_spec k' k) as [->|Hne]; [reflexivity|].
  destruct Hin as [->|Hin]; [contradiction | now apply IH].
Qed.

Lemma get_cacheOf_notin (v : string -> list SearchResult) (k : string) (ks : list string) :
  ~ In k ks -> JSMap.get k (cacheOf v ks) = None.
Proof.
  induction ks as [|k' ks IH]; intros Hin; [reflexivity|].
  cbn [cacheOf List.map JSMap.get]. fold (cacheOf v ks).
  destruct (String.eqb_spec k' k) as [->|Hne].
  - exfalso. apply Hin. now left.
  - apply IH. intros H. apply Hin. now right.
Qed.

(** [set] of a key that is not in the map appends it. *)
Lemma set_cacheOf_fresh (v : string -> list SearchResult) (k : string) (ks : list string) :
  ~ In k ks -> JSMap.set k (v k) (cacheOf v ks) = cacheOf v (ks ++ [k]).
Proof.
  induction ks as [|k' ks IH]; intros Hin; [reflexivity|].
  cbn [cacheOf List.map JSMap.set app]. fold (cacheOf v ks). fold (cacheOf v (ks ++ [k])).
  destruct (String.eqb_spec k' k) as [->|Hne].
  - exfalso. apply Hin. now left.
  - f_equal. apply IH. intros H. apply Hin. now right.
Qed.

(** Below the bound nothing is evicted. *)
Lemma cacheStore_below (limit : nat) (v : string -> list SearchResult)
      (k : string) (ks : list string) :
  List.length ks < limit -> ~ In k ks ->
  cacheStore limit (cacheOf v ks) k (v k) = cacheOf v (ks ++ [k]).
Proof.
  intros Hlen Hin. unfold cacheStore, JSMap.size, cacheOf at 1.
  rewrite length_map.
  destruct (Nat.leb_spec limit (List.length ks)) as [H|_]; [lia|].
  now apply set_cacheOf_fresh.
Qed.

(** At the bound the oldest key goes, and only that one. *)
Lemma cacheStore_full (limit : nat) (v : string -> list SearchResult)
      (k first : string) (ks : list string) :
  limit <= S (List.length ks) -> ~ In k ks ->
  cacheStore limit (cacheOf v (first :: ks)) k (v k) = cacheOf v (ks ++ [k]).
Proof.
  intros Hlen Hin. unfold cacheStore, JSMap.size, cacheOf at 1.
  rewrite length_map. cbn [List.length].
  destruct (Nat.leb_spec limit (S (List.length ks))) as [_|H]; [|lia].
  cbn [cacheOf List.map JSMap.firstKey JSMap.delete].
  rewrite String.eqb_refl. fold (cacheOf v ks).
  now apply set_cacheOf_fresh.
Qed.

Lemma storeAll_below (limit : nat) (v : string -> list SearchResult) :
  forall ks done,
    NoDup (done ++ ks) -> List.length (done ++ ks) <= limit ->
    storeAll limit v ks (cacheOf v done) = cacheOf v (done ++ ks).
Proof.
  induction ks as [|k ks IH]; intros done Hnd Hlen.
  - now rewrite app_nil_r.
  - cbn [storeAll fold_left]. fold (storeAll limit v ks).
    rewrite length_app in Hlen. cbn [List.length] in Hlen.
    rewrite cacheStore_below.
    + replace (done ++ k :: ks) with ((done ++ [k]) ++ ks) in *
        by (now rewrite <- app_assoc).
      apply IH; [assumption|]. rewrite !length_app. simpl. lia.
    + lia.
    + apply NoDup_remove_2 in Hnd. intros H. apply Hnd, in_or_app. now left.
Qed.

Lemma storeAll_snoc (limit : nat) (v : string -> list SearchResult)
      (ks : list string) (k : string) (cache : Cache) :
  storeAll limit v (ks ++ [k]) cache
  = cacheStore limit (storeAll limit v ks cache) k (v k).
Proof.
  unfold storeAll. now rewrite fold_left_app.
Qed.

(** C8: a cache of capacity [limit >= 1], empty at first, that stores the
    results of [limit + 1] distinct queries holds the last [limit] of them
    in the order of their insertion: the query stored first, and no other,
    has been evicted, so it misses and each of the others hits. *)
Theorem C8_cache_evicts_first_inserted :
  forall (limit : nat) (v : string -> list SearchResult)
         (first : string) (others : list string),
    1 <= limit ->
    List.length others = limit ->
    distinctKeys (first :: others) = true ->
    let cache := storeAll limit v (first :: others) JSMap.empty in
    JSMap.get first cache = None /\
    (forall k, In k others -> JSMap.get k cache = Some (v k)) /\
    JSMap.keys cache = others.
Proof.
  intros limit v first others Hlimit Hlen Hd cache.
  apply distinctKeys_NoDup in Hd.
  assert (Hcache : cache = cacheOf v others).
  { subst cache.
    destruct (exists_last (l := others)) as [init [lastKey Ho]];
      [intros ->; simpl in Hlen; lia|].
    subst others.
    replace (first :: init ++ [lastKey]) with ((first :: init) ++ [lastKey]) in *
      by reflexivity.
    rewrite storeAll_snoc.
    change (@JSMap.empty (list SearchResult)) with (cacheOf v []).
    rewrite length_app in Hlen. cbn [List.length] in Hlen.
    rewrite (storeAll_below limit v (first :: init) []).
    - cbn [app]. apply cacheStore_full; [lia|].
      apply NoDup_remove_2 in Hd. rewrite app_nil_r in Hd.
      intros H. apply Hd. now right.
    - cbn [app]. now apply NoDup_remove_1 in Hd; rewrite app_nil_r in Hd.
    - cbn [app List.length]. lia. }
  rewrite Hcache. inversion Hd as [|? ? Hfirst Hothers]; subst.
  split; [now apply get_cacheOf_notin|].
  split; [intros k Hk; now apply get_cacheOf_in|].
  unfold JSMap.keys, cacheOf. rewrite map_map. cbn [fst]. apply map_id.
Qed.

Lemma C8_cache_evicts_first_inserted_witness :
  1 <= 2 /\ List.length ["b"; "c"] = 2 /\ distinctKeys ["a"; "b"; "c"] = true /\
  let cache := storeAll 2 (fun _ => []) ["a"; "b"; "c"] JSMap.empty in
  JSMap.get "a" cache = None /\
  (forall k, In k ["b"; "c"] -> JSMap.get k cache = Some []) /\
  JSMap.keys cache = ["b"; "c"].
Proof.
  split; [lia|]. split; [reflexivity|]. split; [reflexivity|].
  apply (C8_cache_evicts_first_inserted 2 (fun _ => []) "a" ["b"; "c"]);
    [lia | reflexivity | reflexivity].
Defined.

(** A hit leaves the cache as it is (no reordering on access), and a miss
    stores through [cacheStore] at the bound [CACHE_SIZE_LIMIT]. *)
Lemma performLiveSearch_hit (st : Store) (cache : Cache) (searchTerm : string) :
  JSMap.has searchTerm cache = true ->
  performLiveSearch st cache searchTerm = cache.
Proof.
  intros H. unfold performLiveSearch. rewrite H. now destruct (isLoaded st).
Qed.

Lemma performLiveSearch_miss (st : Store) (cache : Cache) (searchTerm : string) :
  isLoaded st = true -> JSMap.has searchTerm cache = false ->
  performLiveSearch st cache searchTerm
  = cacheStore CACHE_SIZE_LIMIT cache searchTerm (searchWords st searchTerm).
Proof.
  intros Hl H. unfold performLiveSearch. now rewrite Hl, H.
Qed.

Lemma has_cacheOf_notin (v : string -> list SearchResult) (k : string) (ks : list string) :
  ~ In k ks -> JSMap.has k (cacheOf v ks) = false.
Proof.
  intros H. unfold JSMap.has. now rewrite get_cacheOf_notin.
Qed.

Lemma liveSearches_below (st : Store) :
  isLoaded st = true ->
  forall ks done,
    NoDup (done ++ ks) -> List.length (done ++ ks) <= CACHE_SIZE_LIMIT ->
    liveSearches st ks (cacheOf (searchWords st) done)
    = cacheOf (searchWords st) (done ++ ks).
Proof.
  intros Hl. induction ks as [|k ks IH]; intros done Hnd Hlen.
  - now rewrite app_nil_r.
  - cbn [liveSearches fold_left]. fold (liveSearches st ks).
    rewrite length_app in Hlen. cbn [List.length] in Hlen.
    assert (Hk : ~ In k done).
    { apply NoDup_remove_2 in Hnd. intros H. apply Hnd, in_or_app. now left. }
    rewrite performLiveSearch_miss by (auto using has_cacheOf_notin).
    rewrite cacheStore_below by (auto; lia).
    replace (done ++ k :: ks) with ((done ++ [k]) ++ ks) in *
      by (now rewrite <- app_assoc).
    apply IH; [assumption|]. rewrite !length_app. simpl. lia.
Qed.

(** The program at its own bound: after 51 distinct queries on a loaded
    store the cache holds the last 50, the first one gone. *)
Lemma liveSearches_evict_first (st : Store) (first : string) (others : list string) :
  isLoaded st = true ->
  List.length others = CACHE_SIZE_LIMIT ->
  distinctKeys (first :: others) = true ->
  liveSearches st (first :: others) JSMap.empty = cacheOf (searchWords st) others.
Proof.
  intros Hl Hlen Hd. apply distinctKeys_NoDup in Hd.
  destruct (exists_last (l := others)) as [init [lastKey Ho]];
    [intros ->; discriminate Hlen|].
  subst others.
  replace (first :: init ++ [lastKey]) with ((first :: init) ++ [lastKey]) in *
    by reflexivity.
  unfold liveSearches at 1. rewrite fold_left_app.
  fold (liveSearches st (first :: init) JSMap.empty).
  change (@JSMap.empty (list SearchResult)) with (cacheOf (searchWords st) []).
  rewrite length_app in Hlen. cbn [List.length] in Hlen.
  rewrite (liveSearches_below st Hl (first :: init) []).
  - cbn [app fold_left].
    assert (Hk : ~ In lastKey (first :: init)).
    { apply NoDup_remove_2 in Hd. now rewrite app_nil_r in Hd. }
    rewrite performLiveSearch_miss by (auto using has_cacheOf_notin).
    apply cacheStore_full; [lia|]. intros H. apply Hk. now right.
  - cbn [app]. now apply NoDup_remove_1 in Hd; rewrite app_nil_r in Hd.
  - cbn [app List.length]. lia.
Qed.

(** ** Rounding to the nearest double *)

Section DoubleFacts.
Local Open Scope Q_scope.

Lemma pow2_neg (k : Z) : (0 <= k)%Z -> 2 ^ (- k) == / inject_Z (2 ^ k).
Proof.
  intros Hk. rewrite Qpower_opp. rewrite Zpower_Qpower by exact Hk. reflexivity.
Qed.

Lemma pow2_nonneg (k : Z) : (0 <= k)%Z -> 2 ^ k == inject_Z (2 ^ k).
Proof.
  intros Hk. symmetry. apply (Zpower_Qpower 2 k Hk).
Qed.

Lemma pow2_pos (z : Z) : 0 < 2 ^ z.
Proof. apply Qpower_0_lt. reflexivity. Qed.

Lemma binade_pow_le (x : Q) : 0 < x -> 2 ^ binade x <= x.
Proof.
  intros Hx. unfold binade.
  destruct (Qle_bool 1 x) eqn:E.
  - apply Qle_bool_iff in E.
    assert (Hf : (1 <= Qfloor x)%Z).
    { rewrite <- (Qfloor_Z 1). now apply Qfloor_resp_le. }
    pose proof (Z.log2_spec (Qfloor x) ltac:(lia)) as [Hlo _].
    rewrite pow2_nonneg by apply Z.log2_nonneg.
    apply Qle_trans with (inject_Z (Qfloor x)); [|apply Qfloor_le].
    rewrite <- Zle_Qle. exact Hlo.
  - assert (Hlt : x < 1).
    { apply Qnot_le_lt. intros H. apply Qle_bool_iff in H. congruence. }
    set (y := / x).
    assert (Hy : 0 < y) by (apply Qinv_lt_0_compat; exact Hx).
    assert (Hxy : x * y == 1).
    { subst y. apply Qmult_inv_r. intros H. lra. }
    clearbody y.
    assert (Hy1 : 1 < y).
    { apply Qnot_le_lt. intros Hle.
      assert (H : x * y <= x * 1) by (apply Qmult_le_l; assumption).
      lra. }
    pose proof (Qle_ceiling y) as Hc.
    assert (Hc2 : (1 < Qceiling y)%Z).
    { rewrite Zlt_Qlt. change (inject_Z 1) with 1. lra. }
    pose proof (Z.log2_up_spec (Qceiling y) Hc2) as [_ Hup].
    set (k := Z.log2_up (Qceiling y)) in *.
    assert (Hk : (0 <= k)%Z) by apply Z.log2_up_nonneg.
    rewrite (pow2_neg k Hk).
    assert (HP : y <= inject_Z (2 ^ k)).
    { apply Qle_trans with (inject_Z (Qceiling y)); [exact Hc|].
      rewrite <- Zle_Qle. exact Hup. }
    assert (HPpos : 0 < inject_Z (2 ^ k)) by lra.
    apply Qle_shift_inv_r; [exact HPpos|]. nra.
Qed.

Lemma binade_le_52 (x : Q) :
  0 < x -> x < inject_Z (2 ^ 53) -> (binade x <= 52)%Z.
Proof.
  intros Hx Hlt. unfold binade.
  destruct (Qle_bool 1 x) eqn:E.
  - apply Qle_bool_iff in E.
    assert (Hf : (1 <= Qfloor x)%Z).
    { rewrite <- (Qfloor_Z 1). now apply Qfloor_resp_le. }
    assert (Hf2 : (Qfloor x < 2 ^ 53)%Z).
    { rewrite Zlt_Qlt. pose proof (Qfloor_le x). lra. }
    apply Z.log2_lt_pow2 in Hf2; lia.
  - pose proof (Z.log2_up_nonneg (Qceiling (/ x))). lia.
Qed.

Lemma roundHalfEven_ge (q : Q) (z : Z) :
  inject_Z z <= q -> (z <= roundHalfEven q)%Z.
Proof.
  intros H. unfold roundHalfEven.
  assert (Hf : (z <= Qfloor q)%Z).
  { rewrite <- (Qfloor_Z z). now apply Qfloor_resp_le. }
  destruct (Qle_bool _ _); [destruct (Qle_bool _ _); [destruct (Z.even _)|]|]; lia.
Qed.

Lemma roundHalfEven_lt (q : Q) (z : Z) :
  q < inject_Z z - (1 # 2) -> (roundHalfEven q < z)%Z.
Proof.
  intros H. unfold roundHalfEven.
  pose proof (Qfloor_le q) as Hf.
  assert (Hfz : (Qfloor q < z)%Z) by (rewrite Zlt_Qlt; lra).
  destruct (Z.eq_dec (Qfloor q) (z - 1)) as [E|E].
  - assert (Hd : q - inject_Z (Qfloor q) < 1 # 2).
    { rewrite E. unfold Z.sub. rewrite inject_Z_plus, inject_Z_opp.
      change (inject_Z 1) with 1. lra. }
    destruct (Qle_bool (q - inject_Z (Qfloor q)) (1 # 2)) eqn:E1.
    + destruct (Qle_bool (1 # 2) (q - inject_Z (Qfloor q))) eqn:E2; [|lia].
      apply Qle_bool_iff in E2. lra.
    + exfalso. assert (Hle : q - inject_Z (Qfloor q) <= 1 # 2) by lra.
      apply Qle_bool_iff in Hle. congruence.
  - destruct (Qle_bool _ _); [destruct (Qle_bool _ _); [destruct (Z.even _)|]|]; lia.
Qed.

Lemma roundDouble_positive (x : Q) : 0 < x -> roundDouble x = roundPositive x.
Proof.
  intros H. unfold roundDouble. apply Qgt_alt in H. now rewrite H.
Qed.

Lemma roundDouble_zero (x : Q) : x == 0 -> roundDouble x = 0.
Proof.
  intros H. unfold roundDouble. apply Qeq_alt in H. now rewrite H.
Qed.


Lemma scaleExp_nonpos (x : Q) :
  0 < x -> x < inject_Z (2 ^ 53) -> (scaleExp x <= 0)%Z.
Proof.
  intros Hx Hbig. unfold scaleExp. pose proof (binade_le_52 x Hx Hbig). lia.
Qed.

Lemma scaleP_pos (x : Q) :
  0 < x -> x < inject_Z (2 ^ 53) -> 0 < inject_Z (scaleP x).
Proof.
  intros Hx Hbig. unfold scaleP. change 0 with (inject_Z 0). rewrite <- Zlt_Qlt.
  apply Z.pow_pos_nonneg; [lia|]. pose proof (scaleExp_nonpos x Hx Hbig). lia.
Qed.

Lemma scale_inv (x : Q) :
  0 < x -> x < inject_Z (2 ^ 53) -> 2 ^ scaleExp x * inject_Z (scaleP x) == 1.
Proof.
  intros Hx Hbig.
  pose proof (scaleExp_nonpos x Hx Hbig) as He.
  pose proof (scaleP_pos x Hx Hbig) as HP.
  replace (scaleExp x) with (- (- scaleExp x))%Z at 1 by lia.
  rewrite pow2_neg by lia. fold (scaleP x).
  rewrite Qmult_comm. apply Qmult_inv_r. lra.
Qed.

Lemma scale_quotient (x : Q) :
  0 < x -> x < inject_Z (2 ^ 53) ->
  x / 2 ^ scaleExp x == x * inject_Z (scaleP x).
Proof.
  intros Hx Hbig.
  pose proof (scale_inv x Hx Hbig) as Hi. pose proof (pow2_pos (scaleExp x)) as Ht.
  unfold Qdiv.
  assert (E : / 2 ^ scaleExp x == inject_Z (scaleP x)).
  { apply (Qmult_inj_l _ _ (2 ^ scaleExp x)); [lra|].
    rewrite Qmult_inv_r by lra. now rewrite Hi. }
  now rewrite E.
Qed.

Lemma scale_half_ulp (x : Q) :
  0 < x ->
  2 ^ scaleExp x * (1 # 2) <= Qmax (x * halfUlp) ((1 # 2) * 2 ^ (-1074)).
Proof.
  intros Hx. unfold scaleExp.
  destruct (Z.max_spec (binade x - 52) (-1074)) as [[_ ->] | [_ ->]].
  - rewrite Qmult_comm. apply Q.le_max_r.
  - eapply Qle_trans; [|apply Q.le_max_l].
    unfold Z.sub. rewrite Qpower_plus by discriminate.
    pose proof (binade_pow_le x Hx) as Hb.
    pose proof (pow2_pos (binade x)) as Hp.
    change (2 ^ (- (52))) with (1 # 4503599627370496).
    unfold halfUlp.
    set (t := 2 ^ binade x) in *. clearbody t. lra.
Qed.

Lemma roundPositive_ge (x : Q) (i : Z) :
  0 < x -> x < inject_Z (2 ^ 53) ->
  inject_Z i <= x -> inject_Z i <= roundPositive x.
Proof.
  intros Hx Hbig Hi. unfold roundPositive. cbv zeta.
  pose proof (scale_inv x Hx Hbig) as Hinv.
  pose proof (scaleP_pos x Hx Hbig) as HP.
  pose proof (pow2_pos (scaleExp x)) as Ht.
  assert (Hq : inject_Z (i * scaleP x) <= x / 2 ^ scaleExp x).
  { rewrite scale_quotient, inject_Z_mult by assumption.
    apply Qmult_le_compat_r; [exact Hi | lra]. }
  apply roundHalfEven_ge in Hq. rewrite Zle_Qle, inject_Z_mult in Hq.
  set (m := inject_Z (roundHalfEven (x / 2 ^ scaleExp x))) in *. clearbody m.
  set (t := 2 ^ scaleExp x) in *. clearbody t.
  set (p := inject_Z (scaleP x)) in *. clearbody p.
  assert (H : inject_Z i * p * t <= m * t)
    by (apply Qmult_le_compat_r; [exact Hq | lra]).
  assert (E : inject_Z i * p * t == inject_Z i) by (rewrite <- Qmult_assoc, (Qmult_comm p t), Hinv; ring).
  lra.
Qed.

Lemma roundPositive_lt (x : Q) (n : Z) :
  0 < x -> x < inject_Z (2 ^ 53) ->
  x * halfUlp < inject_Z n - x ->
  (1 # 2) * 2 ^ (-1074) < inject_Z n - x ->
  roundPositive x < inject_Z n.
Proof.
  intros Hx Hbig Hs1 Hs2. unfold roundPositive. cbv zeta.
  pose proof (scale_inv x Hx Hbig) as Hinv.
  pose proof (scaleP_pos x Hx Hbig) as HP.
  pose proof (pow2_pos (scaleExp x)) as Ht.
  pose proof (scale_half_ulp x Hx) as Hu.
  assert (Hslack : 2 ^ scaleExp x * (1 # 2) < inject_Z n - x).
  { eapply Qle_lt_trans; [exact Hu|]. apply Q.max_lub_lt; assumption. }
  assert (Hq : x / 2 ^ scaleExp x < inject_Z (n * scaleP x) - (1 # 2)).
  { rewrite scale_quotient, inject_Z_mult by assumption.
    set (t := 2 ^ scaleExp x) in *. clearbody t.
    set (p := inject_Z (scaleP x)) in *. clearbody p.
    assert (H : t * (1 # 2) * p < (inject_Z n - x) * p)
      by (apply Qmult_lt_compat_r; assumption).
    assert (E : t * (1 # 2) * p == 1 # 2)
      by (rewrite (Qmult_comm t), <- Qmult_assoc, Hinv; ring).
    assert (E2 : (inject_Z n - x) * p == inject_Z n * p - x * p) by ring.
    lra. }
  apply roundHalfEven_lt in Hq.
  assert (Hq' : (roundHalfEven (x / 2 ^ scaleExp x) <= n * scaleP x - 1)%Z) by lia.
  rewrite Zle_Qle in Hq'. unfold Z.sub in Hq'.
  rewrite inject_Z_plus, inject_Z_opp, inject_Z_mult in Hq'.
  change (inject_Z 1) with 1 in Hq'.
  set (m := inject_Z (roundHalfEven (x / 2 ^ scaleExp x))) in *. clearbody m.
  set (t := 2 ^ scaleExp x) in *. clearbody t.
  set (p := inject_Z (scaleP x)) in *. clearbody p.
  assert (H : m * t <= (inject_Z n * p + - 1) * t)
    by (apply Qmult_le_compat_r; [exact Hq' | lra]).
  assert (E : (inject_Z n * p + - 1) * t == inject_Z n - t).
  { transitivity (inject_Z n * (t * p) - t); [ring|]. rewrite Hinv. ring. }
  lra.
Qed.

Lemma binade_below_one (x : Q) : 0 < x -> x < 1 -> (binade x <= -1)%Z.
Proof.
  intros Hx Hlt. unfold binade.
  destruct (Qle_bool 1 x) eqn:E; [apply Qle_bool_iff in E; lra|].
  set (y := / x).
  assert (Hxy : x * y == 1).
  { subst y. apply Qmult_inv_r. intros H. lra. }
  clearbody y.
  assert (Hy1 : 1 < y).
  { apply Qnot_le_lt. intros Hle.
    assert (H : x * y <= x * 1) by (apply Qmult_le_l; assumption).
    lra. }
  pose proof (Qle_ceiling y) as Hc.
  assert (Hc2 : (1 < Qceiling y)%Z).
  { rewrite Zlt_Qlt. change (inject_Z 1) with 1. lra. }
  pose proof (Z.log2_up_pos (Qceiling y) Hc2). lia.
Qed.

Lemma binade_upper_half (x : Q) : 1 # 2 <= x -> x < 1 -> binade x = (-1)%Z.
Proof.
  intros Hx Hlt. unfold binade.
  destruct (Qle_bool 1 x) eqn:E; [apply Qle_bool_iff in E; lra|].
  set (y := / x).
  assert (Hxy : x * y == 1).
  { subst y. apply Qmult_inv_r. intros H. lra. }
  clearbody y.
  assert (Hy1 : 1 < y).
  { apply Qnot_le_lt. intros Hle.
    assert (H : x * y <= x * 1) by (apply Qmult_le_l; [lra | assumption]).
    lra. }
  assert (Hy2 : y <= 2).
  { apply Qnot_lt_le. intros Hgt.
    assert (H : (1 # 2) * y <= x * y) by (apply Qmult_le_compat_r; lra).
    lra. }
  pose proof (Qle_ceiling y) as Hc.
  pose proof (Qceiling_lt y) as Hc'.
  assert (E2 : Qceiling y = 2%Z).
  { assert (H1 : (1 < Qceiling y)%Z)
      by (rewrite Zlt_Qlt; change (inject_Z 1) with 1; lra).
    assert (H2 : (Qceiling y - 1 < 2)%Z)
      by (rewrite Zlt_Qlt; change (inject_Z 2) with 2; lra).
    lia. }
  rewrite E2. reflexivity.
Qed.

Lemma roundHalfEven_integer (q : Q) (z : Z) :
  q == inject_Z z -> roundHalfEven q = z.
Proof.
  intros E. unfold roundHalfEven.
  assert (Hf : Qfloor q = z) by (rewrite (Qfloor_comp _ _ E); apply Qfloor_Z).
  rewrite Hf.
  assert (Hd : q - inject_Z z == 0) by lra.
  destruct (Qle_bool (q - inject_Z z) (1 # 2)) eqn:E1.
  - destruct (Qle_bool (1 # 2) (q - inject_Z z)) eqn:E2; [|reflexivity].
    apply Qle_bool_iff in E2. lra.
  - assert (H : q - inject_Z z <= 1 # 2) by lra.
    apply Qle_bool_iff in H. congruence.
Qed.

(** No double lies strictly between [1 - 2^-53] and 1. *)
Lemma randomValue_bound (r : Q) :
  isRandomValue r = true -> 0 <= r /\ r <= 1 - halfUlp.
Proof.
  unfold isRandomValue, isDouble. intros H.
  apply andb_prop in H. destruct H as [H H1].
  apply andb_prop in H. destruct H as [Hd H0].
  apply Qle_bool_iff in H0. apply negb_true_iff in H1.
  assert (Hlt : r < 1).
  { apply Qnot_le_lt. intros Hle. apply Qle_bool_iff in Hle. congruence. }
  apply Qeq_bool_iff in Hd.
  split; [exact H0|].
  apply Qnot_lt_le. intros Hgt.
  assert (Hhalf : 1 # 2 <= r) by (unfold halfUlp in Hgt; lra).
  assert (Hpos : 0 < r) by lra.
  rewrite (roundDouble_positive r Hpos) in Hd.
  unfold roundPositive, scaleExp in Hd. cbv zeta in Hd.
  rewrite (binade_upper_half r Hhalf Hlt) in Hd.
  change (Z.max (-1 - 52) (-1074)) with (-53)%Z in Hd.
  change (2 ^ (-53)) with halfUlp in Hd.
  set (m := roundHalfEven (r / halfUlp)) in *. clearbody m.
  assert (Hm1 : inject_Z (2 ^ 53 - 1) < inject_Z m).
  { change (inject_Z (2 ^ 53 - 1)) with (9007199254740991 # 1).
    unfold halfUlp in *. lra. }
  assert (Hm2 : inject_Z m < inject_Z (2 ^ 53)).
  { change (inject_Z (2 ^ 53)) with (9007199254740992 # 1).
    unfold halfUlp in *. lra. }
  rewrite <- Zlt_Qlt in Hm1, Hm2. lia.
Qed.

(** [k / 2^53] for [0 <= k < 2^53] is a double in the unit interval. *)
Lemma dyadic_isRandomValue (k : Z) :
  (0 <= k < 2 ^ 53)%Z -> isRandomValue (inject_Z k * halfUlp) = true.
Proof.
  intros [Hk0 Hk1]. unfold isRandomValue.
  assert (HkQ0 : 0 <= inject_Z k) by (change 0 with (inject_Z 0); rewrite <- Zle_Qle; lia).
  assert (HkQ1 : inject_Z k < inject_Z (2 ^ 53)) by (rewrite <- Zlt_Qlt; lia).
  change (inject_Z (2 ^ 53)) with (9007199254740992 # 1) in HkQ1.
  assert (H0 : Qle_bool 0 (inject_Z k * halfUlp) = true)
    by (apply Qle_bool_iff; unfold halfUlp; lra).
  assert (H1 : Qle_bool 1 (inject_Z k * halfUlp) = false).
  { destruct (Qle_bool 1 _) eqn:E; [|reflexivity].
    apply Qle_bool_iff in E. unfold halfUlp in E. lra. }
  rewrite H0, H1. cbn [negb]. rewrite !andb_true_r.
  unfold isDouble. apply Qeq_bool_iff.
  destruct (Z.eq_dec k 0) as [->|Hne].
  - reflexivity.
  - set (x := inject_Z k * halfUlp).
    assert (Hx : 0 < x).
    { subst x. assert (inject_Z 1 <= inject_Z k) by (rewrite <- Zle_Qle; lia).
      change (inject_Z 1) with 1 in *. unfold halfUlp. lra. }
    assert (Hx1 : x < 1) by (subst x; unfold halfUlp; lra).
    assert (Hbig : x < inject_Z (2 ^ 53))
      by (change (inject_Z (2 ^ 53)) with (9007199254740992 # 1); lra).
    rewrite (roundDouble_positive x Hx). unfold roundPositive. cbv zeta.
    pose proof (scale_inv x Hx Hbig) as Hinv.
    pose proof (scaleP_pos x Hx Hbig) as HP.
    pose proof (pow2_pos (scaleExp x)) as Ht.
    assert (He : (scaleExp x <= -53)%Z).
    { unfold scaleExp. pose proof (binade_below_one x Hx Hx1). lia. }
    (* the scaled value is the integer k * 2^(-53 - e) *)
    assert (Hsplit : scaleP x = (2 ^ 53 * 2 ^ (- scaleExp x - 53))%Z).
    { unfold scaleP. rewrite <- Z.pow_add_r by lia. f_equal. lia. }
    assert (Hq : x / 2 ^ scaleExp x == inject_Z (k * 2 ^ (- scaleExp x - 53))).
    { rewrite scale_quotient by assumption. rewrite Hsplit.
      rewrite !inject_Z_mult. subst x.
      change (inject_Z (2 ^ 53)) with (9007199254740992 # 1).
      unfold halfUlp. ring. }
    rewrite (roundHalfEven_integer _ _ Hq).
    rewrite inject_Z_mult.
    assert (E : inject_Z (2 ^ (- scaleExp x - 53)) * 2 ^ scaleExp x == halfUlp).
    { apply (Qmult_inj_r _ _ (inject_Z (scaleP x))); [lra|].
      rewrite <- Qmult_assoc, Hinv. rewrite Hsplit, inject_Z_mult.
      change (inject_Z (2 ^ 53)) with (9007199254740992 # 1).
      unfold halfUlp. ring. }
    subst x. rewrite <- Qmult_assoc, E. reflexivity.
Qed.

(** The half unit in the last place outweighs the smallest subnormal step. *)
Lemma subnormal_below_halfUlp : (1 # 2) * 2 ^ (-1074) < halfUlp.
Proof. reflexivity. Qed.

(** [Math.floor] of the rounded product stays below the length. *)
Lemma floor_product_lt (r : Q) (n : Z) :
  isRandomValue r = true -> (1 <= n < 2 ^ 53)%Z ->
  (0 <= Qfloor (roundDouble (r * inject_Z n)) < n)%Z.
Proof.
  intros Hr [Hn1 Hn2].
  destruct (randomValue_bound r Hr) as [H0 H1].
  assert (HnQ1 : 1 <= inject_Z n)
    by (change 1 with (inject_Z 1); rewrite <- Zle_Qle; lia).
  assert (HnQ2 : inject_Z n < inject_Z (2 ^ 53)) by (rewrite <- Zlt_Qlt; lia).
  set (N := inject_Z n) in *.
  destruct (Qeq_dec (r * N) 0) as [Ez|Hnz].
  - rewrite (roundDouble_zero _ Ez). change (Qfloor 0) with 0%Z. lia.
  - assert (Hx0 : 0 <= r * N) by (apply Qmult_le_0_compat; lra).
    assert (Hx : 0 < r * N).
    { apply Qnot_le_lt. intros Hle. apply Hnz. lra. }
    assert (Hxle : r * N <= (1 - halfUlp) * N)
      by (apply Qmult_le_compat_r; lra).
    assert (E : (1 - halfUlp) * N == N - halfUlp * N) by ring.
    rewrite (roundDouble_positive _ Hx).
    pose proof subnormal_below_halfUlp as Hsub.
    change (inject_Z (2 ^ 53)) with (9007199254740992 # 1) in HnQ2.
    assert (Hbig : r * N < inject_Z (2 ^ 53)).
    { change (inject_Z (2 ^ 53)) with (9007199254740992 # 1).
      unfold halfUlp in *. clearbody N. lra. }
    split.
    + rewrite <- (Qfloor_Z 0). apply Qfloor_resp_le.
      apply (roundPositive_ge (r * N) 0); [exact Hx | exact Hbig |].
      change (inject_Z 0) with 0. exact Hx0.
    + rewrite Zlt_Qlt. fold N.
      eapply Qle_lt_trans; [apply Qfloor_le|].
      apply roundPositive_lt; [exact Hx | exact Hbig | |].
      * assert (Hm : r * N * halfUlp <= N * halfUlp)
          by (apply Qmult_le_compat_r;
              [clearbody N; unfold halfUlp in *; lra | unfold halfUlp; lra]).
        assert (Hx2 : r * N * halfUlp < halfUlp * N).
        { clearbody N. set (x := r * N) in *. clearbody x.
          unfold halfUlp in *. lra. }
        fold N. clearbody N. set (x := r * N) in *. clearbody x.
        unfold halfUlp in *. lra.
      * fold N. clearbody N. set (x := r * N) in *. clearbody x.
        unfold halfUlp in *. lra.
Qed.

Lemma Qfloor_unique (x : Q) (z : Z) :
  (inject_Z z <= x)%Q -> (x < inject_Z (z + 1))%Q -> Qfloor x = z.
Proof.
  intros Hle Hlt.
  assert (H1 : (z <= Qfloor x)%Z).
  { rewrite <- (Qfloor_Z z). now apply Qfloor_resp_le. }
  assert (H2 : (Qfloor x < z + 1)%Z).
  { rewrite Zlt_Qlt. pose proof (Qfloor_le x). lra. }
  lia.
Qed.

(** The multiple of [2^-53] below the middle of the [i]-th part selects
    [i]. *)
Lemma floor_dyadic_product (i n : Z) :
  (0 <= i < n)%Z -> (n < 2 ^ 32)%Z ->
  (0 <= (2 * i + 1) * 2 ^ 52 / n < 2 ^ 53)%Z /\
  Qfloor (roundDouble
            (inject_Z ((2 * i + 1) * 2 ^ 52 / n) * halfUlp * inject_Z n)) = i.
Proof.
  intros [Hi0 Hin] Hn.
  set (k := ((2 * i + 1) * 2 ^ 52 / n)%Z).
  assert (Hpos : (0 < n)%Z) by lia.
  assert (Hle : (n * k <= (2 * i + 1) * 2 ^ 52)%Z)
    by (subst k; apply Z.mul_div_le; exact Hpos).
  assert (Hgt : ((2 * i + 1) * 2 ^ 52 < n * Z.succ k)%Z)
    by (subst k; apply Z.mul_succ_div_gt; exact Hpos).
  assert (Hk0 : (0 <= k)%Z) by (subst k; apply Z.div_pos; lia).
  assert (Hk1 : (k < 2 ^ 53)%Z).
  { subst k. apply Z.div_lt_upper_bound; [exact Hpos|].
    change (2 ^ 53)%Z with (2 * 2 ^ 52)%Z. lia. }
  clearbody k.
  split; [lia|].
  assert (HleQ : inject_Z (n * k) <= inject_Z ((2 * i + 1) * 2 ^ 52))
    by (rewrite <- Zle_Qle; exact Hle).
  assert (HgtQ : inject_Z ((2 * i + 1) * 2 ^ 52) < inject_Z (n * Z.succ k))
    by (rewrite <- Zlt_Qlt; exact Hgt).
  assert (HnQ : inject_Z n < inject_Z (2 ^ 32)) by (rewrite <- Zlt_Qlt; exact Hn).
  assert (HiQ : inject_Z 0 <= inject_Z i) by (rewrite <- Zle_Qle; exact Hi0).
  assert (HinQ : inject_Z i < inject_Z n) by (rewrite <- Zlt_Qlt; exact Hin).
  unfold Z.succ in HgtQ.
  assert (E1 : inject_Z (n * (k + 1)) == inject_Z (n * k) + inject_Z n)
    by (rewrite !inject_Z_mult, inject_Z_plus;
        change (inject_Z 1) with 1; ring).
  assert (E2 : inject_Z ((2 * i + 1) * 2 ^ 52)
               == (2 * inject_Z i + 1) * (4503599627370496 # 1)).
  { rewrite inject_Z_mult, inject_Z_plus, inject_Z_mult. reflexivity. }
  assert (E3 : inject_Z k * halfUlp * inject_Z n == inject_Z (n * k) * halfUlp)
    by (rewrite inject_Z_mult; ring).
  rewrite E1 in HgtQ. rewrite E2 in HleQ, HgtQ.
  change (inject_Z (2 ^ 32)) with (4294967296 # 1) in HnQ.
  change (inject_Z 0) with 0 in HiQ.
  set (x := inject_Z k * halfUlp * inject_Z n) in *.
  set (KN := inject_Z (n * k)) in *.
  remember (inject_Z i) as I eqn:EI. set (N := inject_Z n) in *.
  clearbody x KN N.
  assert (Hx0 : I <= x) by (unfold halfUlp in E3; lra).
  assert (Hx1 : x <= I + (1 # 2)) by (unfold halfUlp in E3; lra).
  assert (Hx : 0 < x).
  { unfold halfUlp in E3. lra. }
  assert (Hbig : x < inject_Z (2 ^ 53)).
  { change (inject_Z (2 ^ 53)) with (9007199254740992 # 1). lra. }
  rewrite (roundDouble_positive x Hx).
  apply Qfloor_unique.
  - apply roundPositive_ge; try assumption. now rewrite <- EI.
  - pose proof subnormal_below_halfUlp as Hsub.
    apply roundPositive_lt; try assumption;
      rewrite inject_Z_plus; change (inject_Z 1) with 1; rewrite <- EI;
      unfold halfUlp in *; lra.
Qed.

End DoubleFacts.

(** ** Random picks *)

Lemma randomIndex_lt (r : Q) (n : nat) :
  isRandomValue r = true -> 0 < n -> (Z.of_nat n < arrayLengthLimit)%Z ->
  randomIndex r n < n.
Proof.
  unfold randomIndex, arrayLengthLimit. intros Hr Hn Hlim.
  assert (Hb : (1 <= Z.of_nat n < 2 ^ 53)%Z).
  { split; [lia|]. eapply Z.lt_trans; [exact Hlim | reflexivity]. }
  pose proof (floor_product_lt r (Z.of_nat n) Hr Hb) as H.
  lia.
Qed.

Lemma existsb_nat_In (i : nat) (l : list nat) :
  existsb (Nat.eqb i) l = true <-> In i l.
Proof.
  rewrite existsb_exists. split.
  - intros [x [Hin Hx]]. apply Nat.eqb_eq in Hx. now subst.
  - intros Hin. exists i. split; [assumption | apply Nat.eqb_refl].
Qed.

(** The loop returns as soon as the draws have produced enough different
    indices; what it returns are the entries at the selected indices. *)
Lemma pickLoop_spec (ws : list Entry) (maxCount : Z) :
  forall draws selected,
    NoDup selected ->
    Forall (fun i => i < List.length ws) selected ->
    Forall (fun i => i < List.length ws) (drawnIndices (List.length ws) draws) ->
    (exists S, NoDup S /\
               incl S (selected ++ drawnIndices (List.length ws) draws) /\
               (maxCount <= Z.of_nat (List.length S))%Z) ->
    exists indices,
      pickLoop ws maxCount draws selected (List.map (nth_error ws) selected)
      = Some (List.map (nth_error ws) indices) /\
      NoDup indices /\
      Forall (fun i => i < List.length ws) indices /\
      Z.of_nat (List.length indices)
      = Z.max (Z.of_nat (List.length selected)) maxCount.
Proof.
  induction draws as [|r draws IH]; intros selected Hnd Hsel Hdr Henough.
  - destruct Henough as [S [HS [Hincl Hlen]]].
    cbn [drawnIndices List.map] in Hincl. rewrite app_nil_r in Hincl.
    pose proof (NoDup_incl_length HS Hincl) as Hle.
    cbn [pickLoop].
    destruct (Z.ltb_spec (Z.of_nat (List.length selected)) maxCount) as [H|H]; [lia|].
    exists selected. repeat split; auto. lia.
  - cbn [pickLoop].
    destruct (Z.ltb_spec (Z.of_nat (List.length selected)) maxCount) as [Hlt|Hge].
    + cbn [drawnIndices List.map] in Hdr, Henough.
      fold (drawnIndices (List.length ws) draws) in Hdr, Henough.
      inversion Hdr as [|? ? Hr Hdr']; subst.
      destruct Henough as [S [HS [Hincl Hlen]]].
      destruct (existsb (Nat.eqb (randomIndex r (List.length ws))) selected) eqn:E.
      * apply existsb_nat_In in E.
        apply IH; auto.
        exists S. repeat split; auto.
        intros i Hi. specialize (Hincl i Hi).
        apply in_app_or in Hincl. apply in_or_app.
        destruct Hincl as [H|[H|H]]; [now left | subst; now left | now right].
      * assert (Hnotin : ~ In (randomIndex r (List.length ws)) selected).
        { intros H. apply existsb_nat_In in H. congruence. }
        destruct (IH (selected ++ [randomIndex r (List.length ws)])) as [indices [E' [Hn [Hf Hl]]]].
        -- apply NoDup_app; [assumption | repeat constructor; intros [] |].
           intros i Hi [Hx|[]]. subst. exact (Hnotin Hi).
        -- apply Forall_app. split; [assumption | now constructor].
        -- exact Hdr'.
        -- exists S. repeat split; auto. now rewrite <- app_assoc.
        -- exists indices. rewrite map_app in E'. cbn [List.map] in E'.
           repeat split; auto.
           rewrite Hl, length_app. cbn [List.length]. lia.
    + exists selected. repeat split; auto. lia.
Qed.

(** With fewer different indices than asked for, the loop is still running
    when the draws are used up. *)
Lemma pickLoop_starved (ws : list Entry) (maxCount : Z) :
  forall draws selected result,
    (forall S, NoDup S ->
               incl S (selected ++ drawnIndices (List.length ws) draws) ->
               (Z.of_nat (List.length S) < maxCount)%Z) ->
    NoDup selected ->
    pickLoop ws maxCount draws selected result = None.
Proof.
  induction draws as [|r draws IH]; intros selected result Hfew Hnd;
    cbn [pickLoop];
    assert (Hlt : (Z.of_nat (List.length selected) < maxCount)%Z)
      by (apply Hfew; [assumption | intros i Hi; apply in_or_app; now left]);
    destruct (Z.ltb_spec (Z.of_nat (List.length selected)) maxCount) as [_|H];
    try lia; [reflexivity|].
  cbn [drawnIndices List.map] in Hfew.
  fold (drawnIndices (List.length ws) draws) in Hfew.
  destruct (existsb (Nat.eqb (randomIndex r (List.length ws))) selected) eqn:E.
  - apply IH; [|assumption].
    intros S HS Hincl. apply Hfew; [assumption|].
    intros i Hi. specialize (Hincl i Hi).
    apply in_app_or in Hincl. apply in_or_app.
    destruct Hincl as [H|H]; [now left | right; now right].
  - apply IH.
    + intros S HS Hincl. apply Hfew; [assumption|].
      now rewrite <- app_assoc in Hincl.
    + apply NoDup_app; [assumption | repeat constructor; intros [] |].
      intros i Hi [Hx|[]]. subst.
      apply existsb_nat_In in Hi. congruence.
Qed.

Lemma getMultipleRandomWords_starved (st : Store) (count : Z) (draws : list Q) :
  isLoaded st = true ->
  (Z.of_nat (distinctCount (drawnIndices (List.length (words st)) draws))
   < Z.min count (Z.of_nat (List.length (words st))))%Z ->
  getMultipleRandomWords st count draws = None.
Proof.
  intros Hl Hfew. unfold getMultipleRandomWords. rewrite Hl. cbn [negb orb].
  destruct (Nat.eqb_spec (List.length (words st)) 0) as [H0|_].
  - rewrite H0 in Hfew. lia.
  - apply pickLoop_starved; [|constructor].
    intros S HS Hincl. cbn [app] in Hincl.
    assert (Hle : List.length S
                  <= distinctCount (drawnIndices (List.length (words st)) draws)).
    { unfold distinctCount. apply NoDup_incl_length; [assumption|].
      intros i Hi. apply nodup_In. now apply Hincl. }
    lia.
Qed.

(** The product is rounded before the floor is taken: for the double just
    below [2/3] and the length 3 the exact product is below 2, the double
    nearest to it is 2. *)
Lemma randomIndex_rounded_product :
  isRandomValue (6004799503160661 # 9007199254740992) = true /\
  Qfloor ((6004799503160661 # 9007199254740992) * inject_Z 3)%Q = 1%Z /\
  randomIndex (6004799503160661 # 9007199254740992) 3 = 2.
Proof. split; [|split]; vm_compute; reflexivity. Qed.

Lemma drawnIndices_lt (n : nat) (draws : list Q) :
  0 < n -> (Z.of_nat n < arrayLengthLimit)%Z ->
  forallb isRandomValue draws = true ->
  Forall (fun i => i < n) (drawnIndices n draws).
Proof.
  intros Hn Hlim H. unfold drawnIndices. rewrite Forall_map, Forall_forall.
  rewrite forallb_forall in H. intros r Hr. apply randomIndex_lt; auto.
Qed.

(** Reading an array at every index once, in any order, gives its
    elements once each. *)
Lemma all_indices_permutation {X} (l : list X) (indices : list nat) :
  NoDup indices ->
  Forall (fun i => i < List.length l) indices ->
  List.length indices = List.length l ->
  Permutation (List.map Some l) (List.map (nth_error l) indices).
Proof.
  intros Hnd Hlt Hlen.
  assert (Hp : Permutation (seq 0 (List.length l)) indices).
  { apply Permutation_sym, NoDup_Permutation_bis; auto.
    - rewrite length_seq. lia.
    - intros i Hi. rewrite Forall_forall in Hlt. apply in_seq.
      specialize (Hlt i Hi). lia. }
  eapply perm_trans; [|apply Permutation_map; exact Hp].
  assert (E : forall (k : list X) (pre : list X),
             List.map (nth_error (pre ++ k)) (seq (List.length pre) (List.length k))
             = List.map Some k).
  { induction k as [|x k IH]; intros pre; [reflexivity|].
    cbn [List.length seq List.map]. f_equal.
    - rewrite nth_error_app2 by lia. now rewrite Nat.sub_diag.
    - specialize (IH (pre ++ [x])). rewrite <- app_assoc in IH. cbn [app] in IH.
      rewrite length_app in IH. cbn [List.length] in IH.
      rewrite Nat.add_1_r in IH. exact IH. }
  specialize (E l []). cbn [app List.length] in E. rewrite E. apply Permutation_refl.
Qed.

(** C7: on a loaded store of [N] entries ([N] below the limit of an array
    length) and for [count >= 0], when the values that [Math.random] returns
    are doubles of [0, 1) and the indices
    [Math.floor(Math.random() * N)], computed in double precision, have
    taken [min(count, N)] different values, [getMultipleRandomWords] returns
    the entries at exactly [min(count, N)] pairwise different indices; for
    [count >= N] these are all the entries, once each, and for [count = 0]
    the result is empty. *)
Theorem C7_random_entries_distinct :
  forall (st : Store) (count : Z) (draws : list Q),
    isLoaded st = true ->
    (0 <= count)%Z ->
    (Z.of_nat (List.length (words st)) < arrayLengthLimit)%Z ->
    forallb isRandomValue draws = true ->
    (Z.min count (Z.of_nat (List.length (words st)))
     <=? Z.of_nat (distinctCount (drawnIndices (List.length (words st)) draws)))%Z
    = true ->
    exists indices,
      getMultipleRandomWords st count draws
      = Some (List.map (nth_error (words st)) indices) /\
      NoDup indices /\
      Forall (fun i => i < List.length (words st)) indices /\
      Z.of_nat (List.length indices)
      = Z.min count (Z.of_nat (List.length (words st))) /\
      ((Z.of_nat (List.length (words st)) <= count)%Z ->
       Permutation (List.map Some (words st))
                   (List.map (nth_error (words st)) indices)) /\
      (count = 0%Z -> getMultipleRandomWords st count draws = Some []).
Proof.
  intros st count draws Hl Hc Hlim Hdraws Henough.
  apply Z.leb_le in Henough.
  unfold getMultipleRandomWords. rewrite Hl. cbn [negb orb].
  destruct (Nat.eqb_spec (List.length (words st)) 0) as [H0|Hpos].
  - exists []. rewrite H0. cbn [List.map List.length].
    repeat split; try constructor; try lia.
    intros _. destruct (words st); [constructor | discriminate].
  - set (N := List.length (words st)) in *.
    set (maxCount := Z.min count (Z.of_nat N)) in *.
    destruct (pickLoop_spec (words st) maxCount draws [])
      as [indices [E [Hnd [Hlt Hlen]]]].
    + constructor.
    + constructor.
    + apply drawnIndices_lt; [lia | exact Hlim | assumption].
    + exists (nodup Nat.eq_dec (drawnIndices N draws)).
      split; [apply NoDup_nodup|]. split; [|exact Henough].
      intros i Hi. cbn [app]. now apply nodup_In in Hi.
    + cbn [List.map List.length] in E, Hlen.
      assert (Hlen' : Z.of_nat (List.length indices) = maxCount) by lia.
      exists indices. repeat split; auto.
      * intros Hall. apply all_indices_permutation; auto. lia.
      * intros ->. rewrite E.
        destruct indices; [reflexivity | simpl in Hlen'; lia].
Qed.

Lemma C7_random_entries_distinct_witness :
  isLoaded sampleStore = true /\ (0 <= 2)%Z /\
  (Z.of_nat (List.length (words sampleStore)) < arrayLengthLimit)%Z /\
  forallb isRandomValue
    [6004799503160661 # 9007199254740992;
     6004799503160661 # 9007199254740992; 1 # 2]%Q = true /\
  getMultipleRandomWords sampleStore 2
    [6004799503160661 # 9007199254740992;
     6004799503160661 # 9007199254740992; 1 # 2]%Q
  = Some [Some (mkEntry "Apple" "a company");
          Some (mkEntry "application" "a program")] /\
  exists indices,
    getMultipleRandomWords sampleStore 2
      [6004799503160661 # 9007199254740992;
       6004799503160661 # 9007199254740992; 1 # 2]%Q
    = Some (List.map (nth_error (words sampleStore)) indices) /\
    NoDup indices /\
    Z.of_nat (List.length indices) = 2%Z.
Proof.
  split; [reflexivity|]. split; [lia|]. split; [reflexivity|].
  split; [vm_compute; reflexivity|]. split; [vm_compute; reflexivity|].
  destruct (C7_random_entries_distinct sampleStore 2
              [6004799503160661 # 9007199254740992;
               6004799503160661 # 9007199254740992; 1 # 2]%Q)
    as [indices [E [Hnd [_ [Hlen _]]]]];
    [reflexivity | lia | reflexivity | vm_compute; reflexivity
     | vm_compute; reflexivity |].
  exists indices. split; [exact E|]. split; [exact Hnd | exact Hlen].
Defined.

(** ** The loader *)

Lemma findLast_in {X} (p : X -> bool) (l : list X) (x : X) :
  In x l -> p x = true -> exists y, findLast p l = Some y.
Proof.
  induction l as [|a l IH]; intros Hin Hp; [destruct Hin|].
  cbn [findLast]. destruct (findLast p l) as [y|] eqn:E; [now exists y|].
  destruct Hin as [->|Hin]; [rewrite Hp; now exists x|].
  destruct (IH Hin Hp) as [y Hy]. discriminate.
Qed.


Lemma get_set {V} (k k' : string) (v : V) (m : JSMap.t V) :
  JSMap.get k (JSMap.set k' v m)
  = if String.eqb k' k then Some v else JSMap.get k m.
Proof.
  induction m as [|[k0 v0] m IH]; cbn [JSMap.set JSMap.get].
  - reflexivity.
  - destruct (String.eqb_spec k0 k') as [->|Hne]; cbn [JSMap.get].
    + destruct (String.eqb_spec k' k); reflexivity.
    + rewrite IH. destruct (String.eqb_spec k0 k) as [->|_]; [|reflexivity].
      destruct (String.eqb_spec k' k); [congruence | reflexivity].
Qed.

(** The last writer wins: the index maps a key to the last entry whose
    word, case folded, is that key. *)
Lemma get_fold_indexStep (k : string) :
  forall (l : list (nat * Entry)) (m : JSMap.t (Entry * nat)),
    JSMap.get k (fold_left indexStep l m)
    = match findLast (fun ie => String.eqb (Str.toLowerCase (word (snd ie))) k) l with
      | Some ie => Some (snd ie, fst ie)
      | None => JSMap.get k m
      end.
Proof.
  induction l as [|ie l IH]; intros m; [reflexivity|].
  cbn [fold_left findLast]. rewrite IH.
  destruct (findLast _ l); [reflexivity|].
  unfold indexStep. rewrite get_set.
  now destruct (String.eqb (Str.toLowerCase (word (snd ie))) k).
Qed.

Lemma findLast_indexed (p : Entry -> bool) :
  forall (l : list Entry) (a : nat),
    option_map snd (findLast (fun ie => p (snd ie)) (combine (seq a (List.length l)) l))
    = findLast p l.
Proof.
  induction l as [|x l IH]; intros a; [reflexivity|].
  cbn [List.length seq combine findLast]. specialize (IH (S a)).
  destruct (findLast (fun ie => p (snd ie)) (combine (seq (S a) (List.length l)) l))
    as [ie|]; cbn [option_map] in IH; rewrite <- IH; [reflexivity|].
  cbn [snd]. now destruct (p x).
Qed.

Lemma buildIndex_get (k : string) (ws : list Entry) :
  option_map fst (JSMap.get k (buildIndex ws))
  = findLast (fun e => String.eqb (Str.toLowerCase (word e)) k) ws.
Proof.
  unfold buildIndex. change (fun m ie => JSMap.set _ _ m) with indexStep.
  rewrite get_fold_indexStep. unfold indexed.
  rewrite <- (findLast_indexed (fun e => String.eqb (Str.toLowerCase (word e)) k) ws 0).
  now destruct (findLast _ (combine (seq 0 (List.length ws)) ws)).
Qed.

Section LoaderFacts.
Context {host : Host}.

Lemma checkAndIndex_success (st st' : Store) :
  checkAndIndex st = (st', None) ->
  words st' = words st /\ words st' <> [] /\ isLoaded st' = isLoaded st /\
  wordIndex st' = buildIndex (words st') /\
  sortedWords st' = array_sort byWord (words st').
Proof.
  unfold checkAndIndex. destruct (words st) as [|e ws] eqn:E; [discriminate|].
  intros H. inversion H; subst. cbn. rewrite E. repeat split. discriminate.
Qed.

(** After a load that succeeds the store is loaded and its indexes are
    those of its entries. *)
Lemma loadWords_success (st0 st : Store) (jsonData : JSValue) :
  loadWords st0 jsonData = (st, None) ->
  isLoaded st = true /\ words st <> [] /\
  wordIndex st = buildIndex (words st) /\
  sortedWords st = array_sort byWord (words st).
Proof.
  unfold loadWords.
  destruct (parseJSON st0 jsonData) as [st' [e|]] eqn:E; [discriminate|].
  intros H. inversion H; subst; clear H. cbn.
  assert (Hc : exists st1, checkAndIndex st1 = (st', None)).
  { unfold parseJSON in E.
    destruct jsonData; try discriminate;
      match type of E with
      | context [map_throwing ?f ?l] => destruct (map_throwing f l)
      end; try discriminate; eauto. }
  destruct Hc as [st1 Hc]. apply checkAndIndex_success in Hc.
  destruct Hc as [_ [Hne [_ [Hi Hs]]]]. repeat split; assumption.
Qed.

(** What a load that fails leaves behind: the indexes and the flag are
    untouched, and so are the entries unless the failure is the empty
    dataset, found after [this.words] has been assigned. *)
Lemma parseJSON_failure (st st' : Store) (jsonData : JSValue) (e : Thrown) :
  parseJSON st jsonData = (st', Some e) ->
  wordIndex st' = wordIndex st /\ sortedWords st' = sortedWords st /\
  isLoaded st' = isLoaded st /\
  (e <> NoValidEntries -> st' = st) /\
  (e = NoValidEntries -> words st' = []).
Proof.
  assert (Hc : forall ws, checkAndIndex (with_words ws st) = (st', Some e) ->
                          wordIndex st' = wordIndex st /\
                          sortedWords st' = sortedWords st /\
                          isLoaded st' = isLoaded st /\
                          (e <> NoValidEntries -> st' = st) /\
                          (e = NoValidEntries -> words st' = [])).
  { intros ws. unfold checkAndIndex. cbn [words with_words].
    destruct ws; [|discriminate].
    intros H. inversion H; subst. cbn. repeat split; congruence. }
  unfold parseJSON. intros H.
  destruct jsonData;
    try (inversion H; subst; repeat split; auto; discriminate);
    match type of H with
    | context [map_throwing ?f ?l] => destruct (map_throwing f l)
    end;
    try (now apply Hc in H);
    inversion H; subst; repeat split; auto; discriminate.
Qed.

(** A first load that fails leaves the fresh store as it was. *)
Lemma failed_first_load_keeps_store (jsonData : JSValue) (st' : Store) (e : Thrown) :
  loadWords newStore jsonData = (st', Some e) -> st' = newStore.
Proof.
  unfold loadWords.
  destruct (parseJSON newStore jsonData) as [st1 [e1|]] eqn:E; [|discriminate].
  intros H. inversion H; subst; clear H.
  destruct (parseJSON_failure _ _ _ _ E) as [Hi [Hs [Hl [_ Hw]]]].
  unfold parseJSON, checkAndIndex in E.
  destruct jsonData; try (now inversion E);
    match type of E with
    | context [map_throwing ?f ?l] => destruct (map_throwing f l) as [[|x ws]|]
    end; cbn in E; now inversion E.
Qed.

(** A search for the word of a stored entry, case folded and not empty,
    puts the last entry loaded for that word first, with score 100. *)
Lemma search_exact_word_first (st0 st : Store) (jsonData : JSValue) (e : Entry) :
  loadWords st0 jsonData = (st, None) ->
  In e (words st) ->
  word e <> "" ->
  exists e' rest,
    searchWords st (Str.toLowerCase (word e)) = scored e' 100 :: rest /\
    findLast (fun x => String.eqb (Str.toLowerCase (word x))
                                  (Str.toLowerCase (word e))) (words st)
    = Some e' /\
    Forall (fun r => (score r < 100)%Q) rest.
Proof.
  intros Hload Hin Hw.
  destruct (loadWords_success _ _ _ Hload) as [Hl [_ [Hidx _]]].
  assert (Hq : Str.toLowerCase (word e) <> "")
    by (intros H; apply (proj1 (toLowerCase_empty_iff _)) in H; contradiction).
  destruct (findLast_in (fun x => String.eqb (Str.toLowerCase (word x))
                                             (Str.toLowerCase (word e)))
                        (words st) e Hin (String.eqb_refl _)) as [e' He'].
  pose proof (buildIndex_get (Str.toLowerCase (word e)) (words st)) as Hget.
  rewrite He', <- Hidx in Hget.
  destruct (JSMap.get (Str.toLowerCase (word e)) (wordIndex st)) as [[e1 i]|] eqn:G;
    [|discriminate].
  cbn in Hget. inversion Hget; subst e1.
  rewrite (searchWords_unfold _ _ Hl Hq).
  destruct (collectResults_shape st (Str.toLowerCase (word e))) as [rest [E [Hrest _]]].
  rewrite toLowerCase_idem in E, Hrest.
  unfold exactResults in E. rewrite G in E. rewrite E. cbn [app].
  exists e', (array_sort byScore rest).
  split.
  - apply array_sort_head. eapply Forall_impl; [|exact Hrest].
    intros r [Hr _]. simpl. lra.
  - split; [exact He'|].
    eapply Permutation_Forall; [apply array_sort_perm|].
    eapply Forall_impl; [|exact Hrest]. now intros r [Hr _].
Qed.

End LoaderFacts.

(** ** The edit distance as a recurrence *)

Lemma prefixDistance_nil_l (v : list ascii) : prefixDistance [] v = List.length v.
Proof. destruct v; reflexivity. Qed.

Lemma prefixDistance_nil_r (u : list ascii) : prefixDistance u [] = List.length u.
Proof. destruct u; reflexivity. Qed.

Lemma prefixDistance_cons (a b : ascii) (u v : list ascii) :
  prefixDistance (a :: u) (b :: v)
  = if Ascii.eqb a b then prefixDistance u v
    else 1 + Nat.min (prefixDistance u (b :: v))
                     (Nat.min (prefixDistance (a :: u) v) (prefixDistance u v)).
Proof. reflexivity. Qed.

Lemma rowOf_row0 (v : list ascii) (suf : string) :
  seq (List.length v) (S (String.length suf)) = rowOf [] v suf.
Proof.
  revert v; induction suf as [|d suf IH]; intros v.
  - cbn [String.length seq rowOf]. now rewrite prefixDistance_nil_l.
  - cbn [String.length rowOf]. rewrite <- IH. cbn [List.length seq].
    now rewrite prefixDistance_nil_l.
Qed.

Lemma rowOf_fillRow (c : ascii) (u : list ascii) :
  forall suf v above,
    rowOf u v suf = prefixDistance u v :: above ->
    prefixDistance (c :: u) v
      :: fillRow c suf (prefixDistance u v) above (prefixDistance (c :: u) v)
    = rowOf (c :: u) v suf.
Proof.
  induction suf as [|d suf IH]; intros v above Hrow.
  - cbn [rowOf fillRow]. reflexivity.
  - cbn [rowOf] in Hrow. injection Hrow as Habove.
    assert (Hhead : exists above', rowOf u (d :: v) suf
                                   = prefixDistance u (d :: v) :: above')
      by (destruct suf; cbn [rowOf]; eauto).
    destruct Hhead as [above' Ha]. rewrite Ha in Habove. subst above.
    cbn [rowOf fillRow]. f_equal.
    rewrite <- (IH (d :: v) above' Ha). reflexivity.
Qed.

Lemma rowOf_nextRow (c : ascii) (u : list ascii) (s2 : string) :
  nextRow (S (List.length u)) c s2 (rowOf u [] s2) = rowOf (c :: u) [] s2.
Proof.
  unfold nextRow.
  assert (H : exists above, rowOf u [] s2 = prefixDistance u [] :: above)
    by (destruct s2; cbn [rowOf]; eauto).
  destruct H as [above Ha]. rewrite Ha.
  rewrite <- (rowOf_fillRow c u s2 [] above Ha).
  now rewrite (prefixDistance_nil_r (c :: u)).
Qed.

Lemma rowOf_dpRows (s2 : string) :
  forall s1 u,
    dpRows s1 s2 (List.length u) (rowOf u [] s2)
    = rowOf (rev (chars s1) ++ u) [] s2.
Proof.
  induction s1 as [|c s1 IH]; intros u.
  - reflexivity.
  - cbn [dpRows chars list_ascii_of_string rev]. fold (chars s1).
    rewrite rowOf_nextRow. rewrite <- app_assoc. cbn [app].
    apply (IH (c :: u)).
Qed.

Lemma rowOf_last (u : list ascii) :
  forall suf v, last (rowOf u v suf) 0 = prefixDistance u (rev (chars suf) ++ v).
Proof.
  induction suf as [|d suf IH]; intros v.
  - reflexivity.
  - cbn [rowOf chars list_ascii_of_string rev]. fold (chars suf).
    rewrite <- app_assoc. cbn [app]. rewrite <- IH.
    destruct suf; reflexivity.
Qed.

Lemma editDistance_recurrence (s1 s2 : string) :
  _editDistance s1 s2 = prefixDistance (rev (chars s1)) (rev (chars s2)).
Proof.
  unfold _editDistance.
  change (seq 0 (S (String.length s2)))
    with (seq (List.length (@nil ascii)) (S (String.length s2))).
  rewrite rowOf_row0.
  change 0 with (List.length (@nil ascii)) at 1.
  rewrite rowOf_dpRows, rowOf_last. now rewrite !app_nil_r.
Qed.

Lemma prefixDistance_refl (u : list ascii) : prefixDistance u u = 0.
Proof.
  induction u as [|a u IH]; [reflexivity|].
  rewrite prefixDistance_cons. now rewrite Ascii.eqb_refl.
Qed.

Lemma prefixDistance_sym (u : list ascii) :
  forall v, prefixDistance u v = prefixDistance v u.
Proof.
  induction u as [|a u IHu]; intros v.
  - now rewrite prefixDistance_nil_l, prefixDistance_nil_r.
  - induction v as [|b v IHv].
    + now rewrite prefixDistance_nil_l, prefixDistance_nil_r.
    + rewrite !prefixDistance_cons. rewrite (Ascii.eqb_sym b a).
      rewrite (IHu v), (IHu (b :: v)), IHv.
      destruct (Ascii.eqb a b); lia.
Qed.

Lemma prefixDistance_bounds (u : list ascii) :
  forall v,
    absDiff (List.length u) (List.length v) <= prefixDistance u v /\
    prefixDistance u v <= Nat.max (List.length u) (List.length v).
Proof.
  unfold absDiff.
  induction u as [|a u IHu]; intros v.
  - rewrite prefixDistance_nil_l. cbn [List.length]. lia.
  - induction v as [|b v IHv].
    + rewrite prefixDistance_nil_r. cbn [List.length]. lia.
    + rewrite prefixDistance_cons.
      pose proof (IHu v) as H1. pose proof (IHu (b :: v)) as H2.
      cbn [List.length] in *.
      destruct (Ascii.eqb a b); lia.
Qed.

Lemma chars_length (s : string) : List.length (chars s) = String.length s.
Proof.
  induction s as [|c s IH]; [reflexivity|].
  cbn [chars list_ascii_of_string List.length String.length].
  fold (chars s). now rewrite IH.
Qed.

Lemma rev_chars_length (s : string) :
  List.length (rev (chars s)) = String.length s.
Proof. now rewrite length_rev, chars_length. Qed.

(** X1: the table of [_editDistance] computes the Levenshtein recurrence:
    the value returned is the recurrence on the whole of the two strings. *)
Theorem X1_editDistance_is_recurrence :
  forall s1 s2 : string,
    _editDistance s1 s2 = prefixDistance (rev (chars s1)) (rev (chars s2)).
Proof.
  exact editDistance_recurrence.
Qed.

(** X2: the edit distance of two strings is 0 exactly when they are the
    same string. *)
Theorem X2_editDistance_zero_iff_equal :
  forall s1 s2 : string, _editDistance s1 s2 = 0 <-> s1 = s2.
Proof.
  intros s1 s2. split; [apply editDistance_zero|].
  intros ->. rewrite editDistance_recurrence. apply prefixDistance_refl.
Qed.

(** X3: the edit distance does not depend on the order of its arguments. *)
Theorem X3_editDistance_symmetric :
  forall s1 s2 : string, _editDistance s1 s2 = _editDistance s2 s1.
Proof.
  intros s1 s2. rewrite !editDistance_recurrence. apply prefixDistance_sym.
Qed.

(** X4: the edit distance lies between the difference of the two lengths
    and the longer length; against the empty string it is the length of the
    other string. *)
Theorem X4_editDistance_bounds :
  forall s1 s2 : string,
    absDiff (String.length s1) (String.length s2) <= _editDistance s1 s2 /\
    _editDistance s1 s2 <= Nat.max (String.length s1) (String.length s2) /\
    _editDistance s1 "" = String.length s1 /\
    _editDistance "" s2 = String.length s2.
Proof.
  intros s1 s2. rewrite !editDistance_recurrence.
  pose proof (prefixDistance_bounds (rev (chars s1)) (rev (chars s2))) as [Hl Hu].
  rewrite !rev_chars_length in Hl, Hu.
  repeat split; auto.
  - cbn [chars list_ascii_of_string rev].
    now rewrite prefixDistance_nil_r, rev_chars_length.
  - cbn [chars list_ascii_of_string rev].
    now rewrite prefixDistance_nil_l, rev_chars_length.
Qed.

(** ** The subsequence check *)

Lemma dropChars_empty_iff (term : string) :
  forall k, dropChars k term = "" <-> String.length term <= k.
Proof.
  induction term as [|c term IH]; intros [|k]; cbn [dropChars String.length].
  - split; [lia | reflexivity].
  - split; [lia | reflexivity].
  - split; [discriminate | lia].
  - rewrite IH. lia.
Qed.

Lemma dropChars_step (term : string) :
  forall k, k < String.length term ->
            exists d, Str.charAt k term = Some d /\
                      dropChars k term = String d (dropChars (S k) term).
Proof.
  unfold Str.charAt.
  induction term as [|c term IH]; intros k Hk; cbn [String.length] in Hk; [lia|].
  destruct k as [|k].
  - exists c. split; reflexivity.
  - destruct (IH k) as [d [Hg Hd]]; [lia|].
    exists d. cbn [String.get dropChars]. split; [exact Hg|].
    cbn [dropChars] in Hd. exact Hd.
Qed.

Lemma isSubsequence_empty (term : string) :
  isSubsequence term "" <-> term = "".
Proof.
  split; [intros H; now inversion H | intros ->; constructor].
Qed.

Lemma isSubsequence_tail (c : ascii) (term : string) :
  forall str, isSubsequence (String c term) str -> isSubsequence term str.
Proof.
  induction str as [|a str IH]; intros H; inversion H; subst.
  - now apply sub_skip.
  - apply sub_skip. now apply IH.
Qed.

Lemma subsequenceLoop_spec (term : string) :
  forall str k,
    k <= String.length term ->
    (subsequenceLoop str term k = String.length term
     <-> isSubsequence (dropChars k term) str).
Proof.
  induction str as [|c str IH]; intros k Hk.
  - cbn [subsequenceLoop]. rewrite isSubsequence_empty, dropChars_empty_iff. lia.
  - cbn [subsequenceLoop].
    destruct (Nat.ltb_spec k (String.length term)) as [Hlt|Hge].
    + destruct (dropChars_step term k Hlt) as [d [Hg Hd]].
      rewrite Hg, Hd. cbn [Str.unit_eqb].
      destruct (Ascii.eqb_spec c d) as [->|Hne].
      * rewrite IH by lia. split.
        -- intros H. now apply sub_take.
        -- intros H. inversion H; subst; [assumption|].
           eapply isSubsequence_tail. eassumption.
      * rewrite IH by lia. rewrite Hd. split.
        -- intros H. now apply sub_skip.
        -- intros H. inversion H; subst; [congruence | assumption].
    + assert (Hd : dropChars k term = "") by (apply dropChars_empty_iff; lia).
      rewrite Hd. split; [intros _; constructor | intros _; lia].
Qed.

(** X5: the loop of the subsequence check ends with [termIndex] equal to
    the length of the term exactly when the characters of the term occur in
    the candidate in order, not necessarily next to each other. *)
Theorem X5_subsequence_loop_decides :
  forall str term : string,
    subsequenceLoop str term 0 = String.length term <-> isSubsequence term str.
Proof.
  intros str term.
  apply (subsequenceLoop_spec term str 0). lia.
Qed.

(** ** The values of the matcher *)

Lemma toLowerCase_length (s : string) :
  String.length (Str.toLowerCase s) = String.length s.
Proof.
  induction s as [|c s IH]; simpl; [reflexivity | now rewrite IH].
Qed.

(** X6: the matcher answers 100 exactly when the two strings are equal up
    to case. *)
Theorem X6_fuzzyMatch_100_iff_same_word :
  forall str term : string,
    (_fuzzyMatch str term == 100)%Q
    <-> Str.toLowerCase str = Str.toLowerCase term.
Proof.
  intros str term. split.
  - intros H.
    destruct (string_dec (Str.toLowerCase str) (Str.toLowerCase term))
      as [E|Hne]; [exact E|].
    apply fuzzyMatch_lt_100 in Hne. lra.
  - intros E. unfold _fuzzyMatch. rewrite E, String.eqb_refl. reflexivity.
Qed.

Lemma fuzzyMatch_values :
  forall str term : string,
    _fuzzyMatch str term = 0%Q \/ _fuzzyMatch str term = 60%Q \/
    _fuzzyMatch str term = 80%Q \/ _fuzzyMatch str term = 100%Q \/
    ((40 < _fuzzyMatch str term)%Q /\ (_fuzzyMatch str term < 100)%Q /\
     String.length term <= 8).
Proof.
  intros str term.
  destruct (string_dec (Str.toLowerCase str) (Str.toLowerCase term)) as [E|Hne].
  - right; right; right; left.
    unfold _fuzzyMatch. now rewrite E, String.eqb_refl.
  - pose proof (fuzzyMatch_lt_100 str term Hne) as Hlt.
    revert Hlt. unfold _fuzzyMatch.
    destruct (String.eqb _ _); [intros; now (right; right; right; left)|].
    destruct (Str.includes _ _); [intros; now (right; right; left)|].
    destruct (_ <? _); [intros; now left|].
    destruct (_ =? _); [intros; now (right; left)|].
    destruct (Nat.leb_spec (String.length (Str.toLowerCase term)) 8) as [H8|_];
      [|intros; now left].
    rewrite toLowerCase_length in H8.
    destruct (Qle_bool _ 40) eqn:E40; [intros; now left|].
    intros Hlt. right; right; right; right.
    split; [|split; [exact Hlt | exact H8]].
    apply Qnot_le_lt. intros Hle. apply Qle_bool_iff in Hle. congruence.
Qed.

(** X7: a score is 0, 60, 80 or 100, or else a similarity strictly between
    40 and 100, which only a term of at most 8 characters can get. *)
Theorem X7_fuzzyMatch_values :
  forall str term : string,
    _fuzzyMatch str term = 0%Q \/ _fuzzyMatch str term = 60%Q \/
    _fuzzyMatch str term = 80%Q \/ _fuzzyMatch str term = 100%Q \/
    ((40 < _fuzzyMatch str term)%Q /\ (_fuzzyMatch str term < 100)%Q /\
     String.length term <= 8).
Proof.
  exact fuzzyMatch_values.
Qed.

(** ** More on the search engine *)

Lemma scanWords_from (termLower searchTerm : string)
      (P : Entry -> Prop) (PF : Entry * Q -> Prop) :
  (forall e, P e -> PF (e, 90%Q) /\ PF (e, 80%Q)) ->
  forall ws fastMatches expensiveMatches,
    Forall P ws -> Forall PF fastMatches -> Forall P expensiveMatches ->
    Forall PF (fst (scanWords termLower searchTerm ws fastMatches expensiveMatches)) /\
    Forall P (snd (scanWords termLower searchTerm ws fastMatches expensiveMatches)).
Proof.
  intros HPF. induction ws as [|entry ws IH]; intros fast expensive Hws Hf He.
  - cbn [scanWords fst snd]. now split.
  - inversion Hws as [|? ? Hentry Hws']; subst.
    cbn [scanWords].
    destruct (String.eqb (Str.toLowerCase (word entry)) termLower); [now apply IH|].
    destruct (HPF entry Hentry) as [H90 H80].
    assert (Hf90 : Forall PF (fast ++ [(entry, 90%Q)]))
      by (apply Forall_app; split; [assumption | now constructor]).
    assert (Hf80 : Forall PF (fast ++ [(entry, 80%Q)]))
      by (apply Forall_app; split; [assumption | now constructor]).
    assert (Hexp : Forall P (expensive ++ [entry]))
      by (apply Forall_app; split; [assumption | now constructor]).
    destruct (Str.startsWith (Str.toLowerCase (word entry)) termLower);
      [|destruct (Str.includes (Str.toLowerCase (word entry)) termLower);
        [|destruct (3 <=? String.length searchTerm)]];
      match goal with
      | |- context [?a <=? ?n] => destruct (a <=? n)
      end;
      try (now apply IH); cbn [fst snd]; now split.
Qed.

Lemma fuzzyLoop_from (searchTerm : string) :
  forall candidates results,
    exists added,
      fuzzyLoop searchTerm candidates results = results ++ added /\
      Forall (fun r => exists e, In e candidates /\
                                 r = scored e (_fuzzyMatch (word e) searchTerm) /\
                                 (0 < score r)%Q) added /\
      List.length added <= List.length candidates.
Proof.
  induction candidates as [|entry rest IH]; intros results.
  - exists []. cbn [fuzzyLoop]. rewrite app_nil_r. repeat split; auto.
  - cbn [fuzzyLoop].
    assert (Hweak : forall added,
               Forall (fun r => exists e, In e rest /\
                                          r = scored e (_fuzzyMatch (word e) searchTerm) /\
                                          (0 < score r)%Q) added ->
               Forall (fun r => exists e, In e (entry :: rest) /\
                                          r = scored e (_fuzzyMatch (word e) searchTerm) /\
                                          (0 < score r)%Q) added).
    { intros added H. eapply Forall_impl; [|exact H].
      intros r [e [Hin Hr]]. exists e. split; [now right | exact Hr]. }
    destruct (Qle_bool (_fuzzyMatch (word entry) searchTerm) 0) eqn:E0.
    + destruct (maxResults <=? List.length results).
      * exists []. rewrite app_nil_r. repeat split; auto. simpl; lia.
      * destruct (IH results) as [added [E [Ha Hl]]].
        exists added. repeat split; auto. simpl; lia.
    + assert (Hpos : (0 < _fuzzyMatch (word entry) searchTerm)%Q).
      { apply Qnot_le_lt. intros H. apply Qle_bool_iff in H. congruence. }
      assert (Hme : exists e, In e (entry :: rest) /\
                              scored entry (_fuzzyMatch (word entry) searchTerm)
                              = scored e (_fuzzyMatch (word e) searchTerm) /\
                              (0 < score (scored entry (_fuzzyMatch (word entry) searchTerm)))%Q).
      { exists entry. split; [now left | split; [reflexivity | exact Hpos]]. }
      destruct (maxResults <=? List.length (results ++ [scored entry (_fuzzyMatch (word entry) searchTerm)])).
      * eexists. split; [reflexivity|]. split; [now constructor | simpl; lia].
      * destruct (IH (results ++ [scored entry (_fuzzyMatch (word entry) searchTerm)]))
          as [added [E [Ha Hl]]].
        exists (scored entry (_fuzzyMatch (word entry) searchTerm) :: added).
        rewrite E, <- app_assoc. split; [reflexivity|].
        split; [constructor; auto | simpl; lia].
Qed.

Lemma in_firstn {X} (n : nat) (l : list X) (x : X) : In x (firstn n l) -> In x l.
Proof.
  intros H. rewrite <- (firstn_skipn n l). apply in_or_app. now left.
Qed.

(** Where the collected results come from: the index, the scanned entries
    with 90 or 80, or the matcher with a positive score. *)
Lemma collectResults_from (st : Store) (searchTerm : string) :
  Forall (fun r =>
            (exists e i, JSMap.get (Str.toLowerCase searchTerm) (wordIndex st)
                         = Some (e, i) /\ r = scored e 100) \/
            (exists e, In e (words st) /\
                       (r = scored e 90 \/ r = scored e 80 \/
                        (r = scored e (_fuzzyMatch (word e) searchTerm) /\
                         (0 < score r)%Q /\ 3 <= String.length searchTerm))))
         (collectResults st searchTerm).
Proof.
  unfold collectResults.
  set (termLower := Str.toLowerCase searchTerm).
  assert (Hscan :
            Forall (fun m => In (fst m) (words st) /\ (snd m = 90%Q \/ snd m = 80%Q))
                   (fst (scanWords termLower searchTerm (words st) [] [])) /\
            Forall (fun e => In e (words st))
                   (snd (scanWords termLower searchTerm (words st) [] []))).
  { apply (scanWords_from termLower searchTerm
                           (fun e => In e (words st))
                           (fun m => In (fst m) (words st) /\
                                     (snd m = 90%Q \/ snd m = 80%Q))).
    - intros e He. cbn [fst snd]. split; split; auto.
    - apply Forall_forall. auto.
    - constructor.
    - constructor. }
  assert (Hlen3 : snd (scanWords termLower searchTerm (words st) [] []) <> [] ->
                  3 <= String.length searchTerm).
  { destruct (Nat.leb_spec 3 (String.length searchTerm)) as [H|H]; [auto|].
    intros Hne. exfalso. apply Hne.
    assert (G : forall ws fast expensive,
               snd (scanWords termLower searchTerm ws fast expensive) = expensive).
    { induction ws as [|entry ws IH]; intros fast expensive; [reflexivity|].
      cbn [scanWords].
      destruct (String.eqb _ termLower); [apply IH|].
      destruct (Nat.leb_spec 3 (String.length searchTerm)) as [H'|_]; [lia|].
      destruct (Str.startsWith _ _); [|destruct (Str.includes _ _)];
        match goal with
        | |- context [?a <=? ?n] => destruct (a <=? n)
        end; try apply IH; reflexivity. }
    apply G. }
  destruct Hscan as [Hf He].
  destruct (scanWords termLower searchTerm (words st) [] []) as [fast expensive].
  cbn [fst snd] in Hf, He, Hlen3.
  assert (Hbase : Forall (fun r =>
            (exists e i, JSMap.get termLower (wordIndex st) = Some (e, i)
                         /\ r = scored e 100) \/
            (exists e, In e (words st) /\
                       (r = scored e 90 \/ r = scored e 80 \/
                        (r = scored e (_fuzzyMatch (word e) searchTerm) /\
                         (0 < score r)%Q /\ 3 <= String.length searchTerm))))
                         (exactResults st termLower
                          ++ List.map (fun m => scored (fst m) (snd m)) fast)).
  { apply Forall_app. split.
    - destruct (exactResults_cases st termLower) as [->|[e [i [G ->]]]];
        [constructor|].
      constructor; [|constructor]. left. now exists e, i.
    - rewrite Forall_map. eapply Forall_impl; [|exact Hf].
      intros [e s] [Hin [Hs|Hs]]; cbn [fst snd] in *; subst s;
        right; exists e; split; auto. }
  destruct ((_ <? 50) && (0 <? List.length expensive)) eqn:Hcond; [|exact Hbase].
  apply andb_prop in Hcond. destruct Hcond as [_ Hexp].
  apply Nat.ltb_lt in Hexp.
  assert (H3 : 3 <= String.length searchTerm)
    by (apply Hlen3; intros ->; simpl in Hexp; lia).
  destruct (fuzzyLoop_from searchTerm
              (firstn (Nat.min (List.length expensive) 500) expensive)
              (exactResults st termLower
               ++ List.map (fun m => scored (fst m) (snd m)) fast))
    as [added [E [Ha _]]].
  rewrite E. apply Forall_app. split; [exact Hbase|].
  eapply Forall_impl; [|exact Ha].
  intros r [e [Hin [Hr Hpos]]]. right. exists e. split.
  - rewrite Forall_forall in He. apply He. eapply in_firstn. exact Hin.
  - right; right. repeat split; auto.
Qed.

Lemma searchWords_in_collect (st : Store) (searchTerm : string) (r : SearchResult) :
  In r (searchWords st searchTerm) -> In r (collectResults st searchTerm).
Proof.
  unfold searchWords.
  destruct (negb (isLoaded st) || String.eqb searchTerm ""); [intros []|].
  intros H. apply in_firstn in H.
  eapply Permutation_in; [apply Permutation_sym, array_sort_perm | exact H].
Qed.

(** X9: a query of fewer than 3 characters never reaches the matcher: every
    one of its results has score 100, 90 or 80. *)
Theorem X9_short_query_no_fuzzy :
  forall (st : Store) (query : string) (r : SearchResult),
    String.length query < 3 ->
    In r (searchWords st query) ->
    score r = 100%Q \/ score r = 90%Q \/ score r = 80%Q.
Proof.
  intros st query r Hshort Hin.
  apply searchWords_in_collect in Hin.
  pose proof (collectResults_from st query) as H.
  rewrite Forall_forall in H. specialize (H r Hin).
  destruct H as [[e [i [_ ->]]] | [e' [_ [-> | [-> | [_ [_ H3]]]]]]]; auto; lia.
Qed.

Lemma X9_short_query_no_fuzzy_witness :
  String.length "ap" < 3 /\
  In (scored (mkEntry "apple" "a fruit") 90) (searchWords sampleStore "ap") /\
  (score (scored (mkEntry "apple" "a fruit") 90) = 100%Q \/
   score (scored (mkEntry "apple" "a fruit") 90) = 90%Q \/
   score (scored (mkEntry "apple" "a fruit") 90) = 80%Q).
Proof.
  assert (Hin : In (scored (mkEntry "apple" "a fruit") 90) (searchWords sampleStore "ap"))
    by (vm_compute; now left).
  split; [simpl; lia|]. split; [exact Hin|].
  apply (X9_short_query_no_fuzzy sampleStore "ap"); [simpl; lia | exact Hin].
Defined.

(** ** More on the loader *)

Lemma trimEnd_idem (s : string) : Str.trimEnd (Str.trimEnd s) = Str.trimEnd s.
Proof.
  induction s as [|c s IH]; [reflexivity|].
  cbn [Str.trimEnd].
  destruct (Str.is_space c && String.eqb (Str.trimEnd s) "") eqn:E; [reflexivity|].
  cbn [Str.trimEnd]. rewrite IH, E. reflexivity.
Qed.

Lemma trimStart_head (s : string) :
  Str.trimStart s = "" \/
  exists c rest, Str.trimStart s = String c rest /\ Str.is_space c = false.
Proof.
  induction s as [|c s IH]; [now left|].
  cbn [Str.trimStart]. destruct (Str.is_space c) eqn:E; [exact IH|].
  right. now exists c, s.
Qed.

Lemma trim_idem (s : string) : Str.trim (Str.trim s) = Str.trim s.
Proof.
  unfold Str.trim.
  destruct (trimStart_head s) as [-> | [c [rest [-> Hc]]]]; [reflexivity|].
  assert (E : Str.trimEnd (String c rest) = String c (Str.trimEnd rest))
    by (cbn [Str.trimEnd]; now rewrite Hc).
  rewrite E. cbn [Str.trimStart]. rewrite Hc.
  cbn [Str.trimEnd]. rewrite Hc. cbn [andb]. now rewrite trimEnd_idem.
Qed.

Lemma buildIndex_fold (k : string) :
  forall (ws : list Entry) (a : nat) (m : JSMap.t (Entry * nat)) (e : Entry) (i : nat),
    JSMap.get k (fold_left indexStep (combine (seq a (List.length ws)) ws) m)
    = Some (e, i) ->
    (a <= i /\ nth_error ws (i - a) = Some e /\
     Str.toLowerCase (word e) = k /\
     forall j e', i - a < j -> nth_error ws j = Some e' ->
                  Str.toLowerCase (word e') <> k) \/
    (JSMap.get k m = Some (e, i) /\
     forall e', In e' ws -> Str.toLowerCase (word e') <> k).
Proof.
  induction ws as [|x ws IH]; intros a m e i H.
  - right. split; [exact H | intros e' []].
  - cbn [List.length seq combine fold_left] in H.
    destruct (IH (S a) _ e i H) as [[Ha [Hn [Hk Hlast]]] | [Hm Hnone]].
    + left. split; [lia|].
      replace (i - a) with (S (i - S a)) by lia.
      cbn [nth_error]. repeat split; auto.
      intros [|j] e' Hj He'; [lia|]. cbn [nth_error] in He'.
      apply (Hlast j e'); [lia | exact He'].
    + unfold indexStep in Hm. cbn [fst snd] in Hm. rewrite get_set in Hm.
      destruct (String.eqb_spec (Str.toLowerCase (word x)) k) as [Hx|Hx].
      * inversion Hm; subst e i. left.
        rewrite Nat.sub_diag. cbn [nth_error]. repeat split; auto.
        intros [|j] e' Hj He'; [lia|]. cbn [nth_error] in He'.
        apply Hnone. eapply nth_error_In. exact He'.
      * right. split; [exact Hm|].
        intros e' [<-|Hin]; [exact Hx | now apply Hnone].
Qed.

Lemma buildIndex_lookup (k : string) (ws : list Entry) (e : Entry) (i : nat) :
  JSMap.get k (buildIndex ws) = Some (e, i) ->
  nth_error ws i = Some e /\ Str.toLowerCase (word e) = k /\
  forall j e', i < j -> nth_error ws j = Some e' ->
               Str.toLowerCase (word e') <> k.
Proof.
  unfold buildIndex, indexed. change (fun m ie => JSMap.set _ _ m) with indexStep.
  intros H. apply buildIndex_fold in H.
  destruct H as [[_ [Hn [Hk Hlast]]] | [Hm _]]; [|discriminate].
  rewrite Nat.sub_0_r in *. repeat split; auto.
Qed.

Lemma buildIndex_has (k : string) (ws : list Entry) :
  JSMap.has k (buildIndex ws) = true
  <-> exists e, In e ws /\ Str.toLowerCase (word e) = k.
Proof.
  unfold JSMap.has. split.
  - destruct (JSMap.get k (buildIndex ws)) as [[e i]|] eqn:G; [|discriminate].
    intros _. apply buildIndex_lookup in G. destruct G as [Hn [Hk _]].
    exists e. split; [eapply nth_error_In; exact Hn | exact Hk].
  - intros [e [Hin Hk]].
    pose proof (buildIndex_get k ws) as G.
    destruct (findLast_in (fun x => String.eqb (Str.toLowerCase (word x)) k) ws e Hin)
      as [y Hy]; [now apply String.eqb_eq|].
    rewrite Hy in G.
    destruct (JSMap.get k (buildIndex ws)); [reflexivity | discriminate].
Qed.

Lemma map_throwing_map {X Y Z} (f : Y -> option Z) (g : X -> Y) (h : X -> Z)
      (l : list X) :
  (forall x, In x l -> f (g x) = Some (h x)) ->
  map_throwing f (List.map g l) = Some (List.map h l).
Proof.
  induction l as [|x l IH]; intros H; [reflexivity|].
  cbn [map_throwing List.map]. rewrite (H x) by now left.
  rewrite IH by (intros y Hy; apply H; now right). reflexivity.
Qed.

Lemma map_throwing_from {X Y} (f : X -> option Y) :
  forall xs ys, map_throwing f xs = Some ys ->
                Forall (fun y => exists x, In x xs /\ f x = Some y) ys.
Proof.
  induction xs as [|x xs IH]; intros ys H; cbn [map_throwing] in H.
  - inversion H. constructor.
  - destruct (f x) as [y|] eqn:Fx; [|discriminate].
    destruct (map_throwing f xs) as [ys'|]; [|discriminate].
    inversion H; subst. constructor.
    + exists x. split; [now left | exact Fx].
    + eapply Forall_impl; [|apply IH; reflexivity].
      intros y' [x' [Hin Hf]]. exists x'. split; [now right | exact Hf].
Qed.

Section LoaderMore.
Context {host : Host}.

Lemma parseJSON_words (st st' : Store) (jsonData : JSValue) :
  parseJSON st jsonData = (st', None) ->
  (exists items, jsonData = JArr items /\
                 exists kept, map_throwing entryOfObject kept = Some (words st')) \/
  (exists props, jsonData = JObj props /\
                 exists kept, map_throwing entryOfPair kept = Some (words st')).
Proof.
  unfold parseJSON. intros H.
  destruct jsonData; try discriminate;
    match type of H with
    | context [map_throwing ?f ?l] =>
        destruct (map_throwing f l) as [ws|] eqn:E
    end; try discriminate;
    apply checkAndIndex_success in H; destruct H as [Hw _];
    cbn [words with_words] in Hw; rewrite Hw;
    [left | right]; eexists; (split; [reflexivity|]); eexists; exact E.
Qed.

Lemma loadWords_words (st st' : Store) (jsonData : JSValue) :
  loadWords st jsonData = (st', None) ->
  exists st1, parseJSON st jsonData = (st1, None) /\ words st' = words st1.
Proof.
  unfold loadWords.
  destruct (parseJSON st jsonData) as [st1 [e|]]; [discriminate|].
  intros H. inversion H; subst. now exists st1.
Qed.

(** X10: after a load that succeeds, an index hit for a key gives an entry
    of the store together with its position, the word of that entry is the
    key up to case, and no later entry has that word: the last writer
    wins. *)
Theorem X10_index_lookup_last_writer :
  forall (st0 st : Store) (jsonData : JSValue) (k : string) (e : Entry) (i : nat),
    loadWords st0 jsonData = (st, None) ->
    JSMap.get k (wordIndex st) = Some (e, i) ->
    nth_error (words st) i = Some e /\
    Str.toLowerCase (word e) = k /\
    forall j e', i < j -> nth_error (words st) j = Some e' ->
                 Str.toLowerCase (word e') <> k.
Proof.
  intros st0 st jsonData k e i Hload Hget.
  destruct (loadWords_success _ _ _ Hload) as [_ [_ [Hidx _]]].
  rewrite Hidx in Hget. now apply buildIndex_lookup.
Qed.

(** X11: after a load that succeeds, the index has a key exactly when some
    stored entry has that word, case folded. *)
Theorem X11_index_keys_are_the_words :
  forall (st0 st : Store) (jsonData : JSValue) (k : string),
    loadWords st0 jsonData = (st, None) ->
    (JSMap.has k (wordIndex st) = true
     <-> exists e, In e (words st) /\ Str.toLowerCase (word e) = k).
Proof.
  intros st0 st jsonData k Hload.
  destruct (loadWords_success _ _ _ Hload) as [_ [_ [Hidx _]]].
  rewrite Hidx. apply buildIndex_has.
Qed.

(** X12: a load that succeeds replaces the store wholesale: its result does
    not depend on the store it started from. *)
Theorem X12_successful_load_ignores_previous_store :
  forall (st1 st2 : Store) (jsonData : JSValue),
    snd (loadWords st1 jsonData) = None ->
    loadWords st2 jsonData = loadWords st1 jsonData.
Proof.
  intros st1 st2 jsonData. unfold loadWords, parseJSON.
  destruct jsonData; cbn; try discriminate;
    match goal with
    | |- context [map_throwing ?f ?l] => destruct (map_throwing f l) as [[|x ws]|]
    end; cbn; try discriminate; reflexivity.
Qed.

(** X13: a load that fails never touches the indexes nor the loaded flag,
    and unless the failure is the empty-dataset error it leaves the whole
    store as it was. *)
Theorem X13_failed_load_keeps_indexes :
  forall (st st' : Store) (jsonData : JSValue) (e : Thrown),
    loadWords st jsonData = (st', Some e) ->
    wordIndex st' = wordIndex st /\ sortedWords st' = sortedWords st /\
    isLoaded st' = isLoaded st /\
    (e <> NoValidEntries -> st' = st).
Proof.
  intros st st' jsonData e. unfold loadWords.
  destruct (parseJSON st jsonData) as [st1 [e1|]] eqn:E; [|discriminate].
  intros H. inversion H; subst.
  destruct (parseJSON_failure _ _ _ _ E) as [Hi [Hs [Hl [Hsame _]]]].
  repeat split; assumption.
Qed.

(** X14: every entry stored by a load that succeeds is trimmed: trimming
    its word or its definition again changes nothing. *)
Theorem X14_stored_entries_are_trimmed :
  forall (st0 st : Store) (jsonData : JSValue) (e : Entry),
    loadWords st0 jsonData = (st, None) ->
    In e (words st) ->
    Str.trim (word e) = word e /\ Str.trim (definition e) = definition e.
Proof.
  intros st0 st jsonData e Hload Hin.
  destruct (loadWords_words _ _ _ Hload) as [st1 [Hp Hw]]. rewrite Hw in Hin.
  destruct (parseJSON_words _ _ _ Hp) as [[items [_ [kept Hk]]] | [props [_ [kept Hk]]]];
    apply map_throwing_from in Hk; rewrite Forall_forall in Hk;
    destruct (Hk e Hin) as [x [_ Hx]].
  - unfold entryOfObject in Hx.
    destruct (toString_field "word" x); [|discriminate].
    destruct (toString_field "definition" x); [|discriminate].
    inversion Hx. cbn [word definition]. now rewrite !trim_idem.
  - unfold entryOfPair in Hx.
    destruct (toString (snd x)); [|discriminate].
    inversion Hx. cbn [word definition]. now rewrite !trim_idem.
Qed.

Lemma filter_map_swap {X Y} (g : X -> Y) (p : Y -> bool) (l : list X) :
  filter p (List.map g l) = List.map g (filter (fun x => p (g x)) l).
Proof.
  induction l as [|x l IH]; [reflexivity|].
  cbn [List.map filter]. rewrite IH. now destruct (p (g x)).
Qed.

(** X15: the two dataset formats load alike. For a dataset of string pairs
    whose words are pairwise different and stand in the order in which an
    object enumerates its keys (array indices first and ascending, the
    other keys as written), given as an array of objects or as one object,
    [parseJSON] stores the pairs whose word and definition are both
    non-empty, trimmed and in the order of the dataset, and fails with the
    empty-dataset error when there is none. *)
Theorem X15_both_formats_load_alike :
  forall (st : Store) (pairs : list (string * string)),
    ownKeyOrder (List.map fst pairs) = true ->
    let asArray := JArr (List.map (fun p => objectOf (fst p) (snd p)) pairs) in
    let asObject := JObj (List.map (fun p => (fst p, JStr (snd p))) pairs) in
    parseJSON st asArray = checkAndIndex (with_words (entriesOfPairs pairs) st) /\
    parseJSON st asObject = checkAndIndex (with_words (entriesOfPairs pairs) st).
Proof.
  intros st pairs _ asArray asObject. subst asArray asObject.
  unfold parseJSON, entriesOfPairs. split.
  - rewrite filter_map_swap.
    rewrite (map_throwing_map entryOfObject _
               (fun p => mkEntry (Str.trim (fst p)) (Str.trim (snd p))))
      by (intros; reflexivity).
    do 3 f_equal; try (apply filter_ext; intros [w d]; reflexivity).
  - rewrite filter_map_swap.
    rewrite (map_throwing_map entryOfPair _
               (fun p => mkEntry (Str.trim (fst p)) (Str.trim (snd p))))
      by (intros; reflexivity).
    do 3 f_equal; try (apply filter_ext; intros [w d]; reflexivity).
Qed.

End LoaderMore.

(** ** What a search returns *)

Section SearchAfterLoad.
Context {host : Host}.

(** X8: after a load that succeeds, every result of a search is a stored
    entry, carried with match type ["word"] and a score above 0. *)
Theorem X8_results_are_stored_entries :
  forall (st0 st : Store) (jsonData : JSValue) (query : string) (r : SearchResult),
    loadWords st0 jsonData = (st, None) ->
    In r (searchWords st query) ->
    exists e, In e (words st) /\
              res_word r = word e /\ res_definition r = definition e /\
              matchType r = "word" /\ (0 < score r)%Q.
Proof.
  intros st0 st jsonData query r Hload Hin.
  destruct (loadWords_success _ _ _ Hload) as [_ [_ [Hidx _]]].
  apply searchWords_in_collect in Hin.
  pose proof (collectResults_from st query) as H.
  rewrite Forall_forall in H. specialize (H r Hin).
  destruct H as [[e [i [G ->]]] | [e [He [-> | [-> | [Hr [Hpos _]]]]]]].
  - rewrite Hidx in G. apply buildIndex_lookup in G. destruct G as [Hn _].
    exists e. split; [eapply nth_error_In; exact Hn|].
    repeat split; reflexivity.
  - exists e. split; [exact He|]. repeat split; reflexivity.
  - exists e. split; [exact He|]. repeat split; reflexivity.
  - exists e. split; [exact He|]. rewrite Hr in *. repeat split; auto.
Qed.

End SearchAfterLoad.

Lemma startsWith_includes (s p : string) :
  Str.startsWith s p = true -> Str.includes s p = true.
Proof.
  intros H. destruct s; cbn [Str.includes]; now rewrite H.
Qed.

Lemma fastMatchOf_length (termLower : string) (ws : list Entry) :
  List.length (flat_map (fastMatchOf termLower) ws)
  <= List.length (filter (containsTerm termLower) ws).
Proof.
  induction ws as [|e ws IH]; [reflexivity|].
  cbn [flat_map filter]. rewrite length_app.
  unfold fastMatchOf at 1, containsTerm at 1.
  destruct (String.eqb _ termLower); [destruct (Str.includes _ _); simpl; lia|].
  destruct (Str.startsWith _ _) eqn:Es.
  - rewrite (startsWith_includes _ _ Es). simpl. lia.
  - destruct (Str.includes _ _); simpl; lia.
Qed.

(** Below the bound of 500 fast matches the scan visits every entry. *)
Lemma scanWords_complete (termLower searchTerm : string) :
  forall ws fastMatches expensiveMatches,
    List.length fastMatches
    + List.length (flat_map (fastMatchOf termLower) ws) < 500 ->
    fst (scanWords termLower searchTerm ws fastMatches expensiveMatches)
    = fastMatches ++ flat_map (fastMatchOf termLower) ws.
Proof.
  induction ws as [|entry ws IH]; intros fast expensive Hlen.
  - cbn [scanWords fst flat_map]. now rewrite app_nil_r.
  - cbn [scanWords flat_map] in *. rewrite length_app in Hlen.
    change (maxResults / 2) with 500.
    unfold fastMatchOf at 1. unfold fastMatchOf at 1 in Hlen.
    destruct (String.eqb (Str.toLowerCase (word entry)) termLower);
      [apply IH; simpl in Hlen; lia|].
    destruct (Str.startsWith (Str.toLowerCase (word entry)) termLower);
      [|destruct (Str.includes (Str.toLowerCase (word entry)) termLower);
        [|destruct (3 <=? String.length searchTerm)]];
      cbn [List.length app] in *;
      match goal with
      | |- context [500 <=? ?n] => destruct (Nat.leb_spec 500 n) as [Hge|Hlt]
      end;
      try (rewrite length_app in Hge; cbn [List.length] in Hge; lia);
      try lia;
      rewrite IH; try (rewrite <- app_assoc; reflexivity); try reflexivity;
      rewrite ?length_app; cbn [List.length]; lia.
Qed.

Lemma collectResults_holds_fast (st : Store) (searchTerm : string) (r : SearchResult) :
  In r (List.map (fun m => scored (fst m) (snd m))
                 (fst (scanWords (Str.toLowerCase searchTerm) searchTerm
                                 (words st) [] []))) ->
  In r (collectResults st searchTerm).
Proof.
  unfold collectResults.
  destruct (scanWords (Str.toLowerCase searchTerm) searchTerm (words st) [] [])
    as [fast expensive].
  cbn [fst]. intros H.
  assert (Hbase : In r (exactResults st (Str.toLowerCase searchTerm)
                        ++ List.map (fun m => scored (fst m) (snd m)) fast))
    by (apply in_or_app; now right).
  destruct (_ && _); [|exact Hbase].
  destruct (fuzzyLoop_from searchTerm
              (firstn (Nat.min (List.length expensive) 500) expensive)
              (exactResults st (Str.toLowerCase searchTerm)
               ++ List.map (fun m => scored (fst m) (snd m)) fast))
    as [added [E _]].
  rewrite E. apply in_or_app. now left.
Qed.

(** X16: when fewer than 500 stored words contain the query, the search
    misses none of them: every entry whose word contains the query, without
    being equal to it, is among the results, with score 90 when the word
    starts with the query and 80 otherwise (case ignored throughout). *)
Theorem X16_search_finds_every_containing_word :
  forall (st : Store) (query : string) (e : Entry),
    isLoaded st = true ->
    query <> "" ->
    List.length (filter (containsTerm (Str.toLowerCase query)) (words st)) < 500 ->
    In e (words st) ->
    Str.toLowerCase (word e) <> Str.toLowerCase query ->
    containsTerm (Str.toLowerCase query) e = true ->
    In (scored e (if Str.startsWith (Str.toLowerCase (word e)) (Str.toLowerCase query)
                  then 90 else 80))
       (searchWords st query).
Proof.
  intros st query e Hl Hq Hfew Hin Hne Hcont.
  rewrite (searchWords_unfold _ _ Hl Hq).
  eapply Permutation_in; [apply array_sort_perm|].
  apply collectResults_holds_fast.
  rewrite scanWords_complete
    by (pose proof (fastMatchOf_length (Str.toLowerCase query) (words st));
        simpl; lia).
  cbn [app]. apply in_map_iff.
  exists (e, if Str.startsWith (Str.toLowerCase (word e)) (Str.toLowerCase query)
             then 90%Q else 80%Q).
  split; [reflexivity|].
  apply in_flat_map. exists e. split; [exact Hin|].
  unfold fastMatchOf. apply string_eqb_false_iff in Hne. rewrite Hne.
  unfold containsTerm in Hcont. rewrite Hcont.
  destruct (Str.startsWith _ _); now left.
Qed.

Lemma X16_search_finds_every_containing_word_witness :
  isLoaded sampleStore = true /\ "ppl" <> "" /\
  In (mkEntry "application" "a program") (words sampleStore) /\
  In (scored (mkEntry "application" "a program") 80) (searchWords sampleStore "ppl").
Proof.
  split; [reflexivity|]. split; [discriminate|].
  split; [vm_compute; right; now left|].
  apply (X16_search_finds_every_containing_word
           sampleStore "ppl" (mkEntry "application" "a program"));
    [reflexivity | discriminate | vm_compute; lia | vm_compute; right; now left
     | vm_compute; discriminate | reflexivity].
Defined.

Lemma scanWords_term_length (termLower q1 q2 : string) :
  String.length q1 = String.length q2 ->
  forall ws fastMatches expensiveMatches,
    scanWords termLower q1 ws fastMatches expensiveMatches
    = scanWords termLower q2 ws fastMatches expensiveMatches.
Proof.
  intros Hlen. induction ws as [|entry ws IH]; intros fast expensive; [reflexivity|].
  cbn [scanWords]. rewrite Hlen.
  destruct (String.eqb _ termLower); [apply IH|].
  destruct (Str.startsWith _ _); [|destruct (Str.includes _ _);
                                   [|destruct (3 <=? String.length q2)]];
    match goal with
    | |- context [?a <=? ?n] => destruct (a <=? n)
    end; try reflexivity; apply IH.
Qed.

Lemma fuzzyMatch_term_case (str term : string) :
  _fuzzyMatch str (Str.toLowerCase term) = _fuzzyMatch str term.
Proof.
  unfold _fuzzyMatch. now rewrite toLowerCase_idem.
Qed.

Lemma fuzzyLoop_term_case (term : string) :
  forall candidates results,
    fuzzyLoop (Str.toLowerCase term) candidates results
    = fuzzyLoop term candidates results.
Proof.
  induction candidates as [|entry rest IH]; intros results; [reflexivity|].
  cbn [fuzzyLoop]. rewrite fuzzyMatch_term_case.
  destruct (Qle_bool _ 0); destruct (maxResults <=? _); try reflexivity; apply IH.
Qed.

(** X17: a search ignores the case of the query: the query and its lower
    case give the same results. *)
Theorem X17_search_ignores_query_case :
  forall (st : Store) (query : string),
    searchWords st (Str.toLowerCase query) = searchWords st query.
Proof.
  intros st query. unfold searchWords.
  replace (String.eqb (Str.toLowerCase query) "") with (String.eqb query "")
    by (destruct query; reflexivity).
  destruct (negb (isLoaded st) || String.eqb query ""); [reflexivity|].
  f_equal. f_equal. unfold collectResults.
  rewrite toLowerCase_idem.
  rewrite (scanWords_term_length _ (Str.toLowerCase query) query
                                 (toLowerCase_length query)).
  destruct (scanWords _ _ _ _ _) as [fast expensive].
  destruct (_ && _); [|reflexivity].
  apply fuzzyLoop_term_case.
Qed.

(** X18: a search never returns more than 549 results: at most one exact
    match and 500 fast matches, and the matcher adds up to 500 more only to
    fewer than 50. The cap of 1000 is never reached. *)
Theorem X18_search_returns_at_most_549 :
  forall (st : Store) (query : string),
    List.length (searchWords st query) <= 549 /\
    List.length (collectResults st query) <= 549.
Proof.
  intros st query.
  assert (Hc : List.length (collectResults st query) <= 549).
  { unfold collectResults.
    set (termLower := Str.toLowerCase query).
    destruct (scanWords_spec termLower query (words st) [] [])
      as [_ [_ Hn]]; [constructor | constructor | simpl; lia |].
    destruct (scanWords termLower query (words st) [] []) as [fast expensive].
    cbn [fst] in Hn.
    pose proof (exactResults_length st termLower) as Hx.
    destruct ((_ <? 50) && _) eqn:Hcond.
    - apply andb_prop in Hcond. destruct Hcond as [H50 _].
      apply Nat.ltb_lt in H50.
      destruct (fuzzyLoop_from query
                  (firstn (Nat.min (List.length expensive) 500) expensive)
                  (exactResults st termLower
                   ++ List.map (fun m => scored (fst m) (snd m)) fast))
        as [added [E [_ Hl]]].
      rewrite E, length_app. rewrite length_firstn in Hl. lia.
    - rewrite length_app, length_map. lia. }
  split; [|exact Hc].
  unfold searchWords. destruct (_ || _); [simpl; lia|].
  rewrite length_firstn, array_sort_length. lia.
Qed.

(** ** More on the cache *)

Lemma set_size {V} (k : string) (v : V) (m : JSMap.t V) :
  JSMap.size (JSMap.set k v m) <= S (JSMap.size m).
Proof.
  unfold JSMap.size. induction m as [|[k' v'] m IH]; cbn [JSMap.set List.length].
  - lia.
  - destruct (String.eqb k' k); cbn [List.length]; lia.
Qed.

Lemma delete_first_size {V} (k : string) (v : V) (m : JSMap.t V) :
  JSMap.size (JSMap.delete k ((k, v) :: m)) = JSMap.size m.
Proof.
  cbn [JSMap.delete]. now rewrite String.eqb_refl.
Qed.

Lemma cacheStore_size (limit : nat) (cache : Cache) (k : string)
      (results : list SearchResult) :
  1 <= limit -> JSMap.size cache <= limit ->
  JSMap.size (cacheStore limit cache k results) <= limit.
Proof.
  intros Hlimit Hsize. unfold cacheStore.
  destruct (Nat.leb_spec limit (JSMap.size cache)) as [Hfull|Hroom].
  - destruct cache as [|[k0 v0] cache'].
    + unfold JSMap.size in Hfull. simpl in Hfull. lia.
    + cbn [JSMap.firstKey].
      pose proof (set_size k results (JSMap.delete k0 ((k0, v0) :: cache'))) as H.
      rewrite delete_first_size in H.
      unfold JSMap.size in *. cbn [List.length] in Hsize. lia.
  - pose proof (set_size k results cache). lia.
Qed.

Lemma get_delete_other {V} (k k0 : string) (m : JSMap.t V) :
  k <> k0 -> JSMap.get k (JSMap.delete k0 m) = JSMap.get k m.
Proof.
  intros Hne. induction m as [|[k' v'] m IH]; [reflexivity|].
  cbn [JSMap.delete JSMap.get].
  destruct (String.eqb_spec k' k0) as [->|H0].
  - destruct (String.eqb_spec k0 k); [congruence | reflexivity].
  - cbn [JSMap.get]. now rewrite IH.
Qed.

Lemma in_set {V} (k : string) (v : V) (m : JSMap.t V) (kv : string * V) :
  In kv (JSMap.set k v m) -> kv = (k, v) \/ In kv m.
Proof.
  induction m as [|[k' v'] m IH]; cbn [JSMap.set].
  - intros [H|[]]. now left.
  - destruct (String.eqb k' k).
    + intros [H|H]; [now left | right; now right].
    + intros [H|H]; [right; now left|].
      destruct (IH H); [now left | right; now right].
Qed.

Lemma in_delete {V} (k : string) (m : JSMap.t V) (kv : string * V) :
  In kv (JSMap.delete k m) -> In kv m.
Proof.
  induction m as [|[k' v'] m IH]; cbn [JSMap.delete]; [auto|].
  destruct (String.eqb k' k); [now right|].
  intros [H|H]; [now left | right; auto].
Qed.

Lemma in_cacheStore (limit : nat) (cache : Cache) (k : string)
      (results : list SearchResult) (kv : string * list SearchResult) :
  In kv (cacheStore limit cache k results) -> kv = (k, results) \/ In kv cache.
Proof.
  unfold cacheStore. intros H. apply in_set in H.
  destruct H as [H|H]; [now left | right].
  destruct (limit <=? JSMap.size cache); [|exact H].
  destruct (JSMap.firstKey cache); [|exact H].
  eapply in_delete. exact H.
Qed.

Lemma get_in {V} (k : string) (m : JSMap.t V) (v : V) :
  JSMap.get k m = Some v -> In (k, v) m.
Proof.
  induction m as [|[k' v'] m IH]; cbn [JSMap.get]; [discriminate|].
  destruct (String.eqb_spec k' k) as [->|_].
  - intros H. inversion H. now left.
  - intros H. right. auto.
Qed.

(** X22: storing into a cache that respects its bound keeps it within the
    bound, whether the key is new or already there. *)
Theorem X22_cacheStore_respects_bound :
  forall (limit : nat) (cache : Cache) (k : string) (results : list SearchResult),
    1 <= limit ->
    JSMap.size cache <= limit ->
    JSMap.size (cacheStore limit cache k results) <= limit.
Proof.
  exact cacheStore_size.
Qed.

Lemma X22_cacheStore_respects_bound_witness :
  1 <= 2 /\
  JSMap.size (cacheOf (fun _ => []) ["a"; "b"]) <= 2 /\
  JSMap.size (cacheStore 2 (cacheOf (fun _ => []) ["a"; "b"]) "c" []) <= 2.
Proof.
  split; [lia|]. split; [vm_compute; lia|].
  apply (X22_cacheStore_respects_bound 2 (cacheOf (fun _ => []) ["a"; "b"]) "c" []);
    [lia | vm_compute; lia].
Defined.

(** X23: what has just been stored is what the next lookup of that key
    finds, whatever the bound and the content of the cache. *)
Theorem X23_cacheStore_then_get :
  forall (limit : nat) (cache : Cache) (k : string) (results : list SearchResult),
    JSMap.get k (cacheStore limit cache k results) = Some results.
Proof.
  intros limit cache k results. unfold cacheStore.
  rewrite get_set. now rewrite String.eqb_refl.
Qed.

(** X24: storing under one key leaves the lookup of every other key as it
    was, unless that other key was the oldest one of a cache that had
    reached its bound. *)
Theorem X24_cacheStore_keeps_other_keys :
  forall (limit : nat) (cache : Cache) (k k' : string) (results : list SearchResult),
    k' <> k ->
    JSMap.size cache < limit \/ JSMap.firstKey cache <> Some k' ->
    JSMap.get k' (cacheStore limit cache k results) = JSMap.get k' cache.
Proof.
  intros limit cache k k' results Hne Hkeep. unfold cacheStore.
  rewrite get_set.
  destruct (String.eqb_spec k k'); [congruence|].
  destruct (Nat.leb_spec limit (JSMap.size cache)) as [Hfull|_]; [|reflexivity].
  destruct (JSMap.firstKey cache) as [k0|] eqn:F; [|reflexivity].
  apply get_delete_other. intros ->.
  destruct Hkeep as [H|H]; [lia | congruence].
Qed.

Lemma X24_cacheStore_keeps_other_keys_witness :
  "b" <> "c" /\
  JSMap.get "b" (cacheStore 2 (cacheOf (fun _ => []) ["a"; "b"]) "c" [])
  = JSMap.get "b" (cacheOf (fun _ => []) ["a"; "b"]).
Proof.
  split; [discriminate|].
  apply (X24_cacheStore_keeps_other_keys 2 (cacheOf (fun _ => []) ["a"; "b"]) "c" "b" []);
    [discriminate | right; discriminate].
Defined.

(** ** Pagination *)

Lemma firstn_min_length {X} (n : nat) (l : list X) :
  firstn (Nat.min n (List.length l)) l = firstn n l.
Proof.
  destruct (Nat.le_ge_cases n (List.length l)) as [H|H].
  - now rewrite Nat.min_l.
  - rewrite Nat.min_r by exact H. now rewrite !firstn_all2 by lia.
Qed.

Lemma firstn_plus {X} (n m : nat) (l : list X) :
  firstn (n + m) l = firstn n l ++ firstn m (skipn n l).
Proof.
  revert l; induction n as [|n IH]; intros l; [reflexivity|].
  destruct l as [|x l]; cbn [Nat.add firstn skipn app].
  - now rewrite firstn_nil.
  - now rewrite IH.
Qed.

Lemma slice_app {X} (a b c : nat) (l : list X) :
  a <= b -> b <= c -> slice a b l ++ slice b c l = slice a c l.
Proof.
  intros Hab Hbc. unfold slice.
  replace (c - a) with ((b - a) + (c - b)) by lia.
  rewrite firstn_plus. f_equal. f_equal.
  rewrite skipn_skipn. f_equal. lia.
Qed.

Lemma displaySearchResults_new (s : Session) (results : list SearchResult)
      (searchTerm : string) :
  displaySearchResults s results searchTerm false
  = (mkSession results searchTerm (Nat.min 10 (List.length results))
               (isSearchMode s) (lastSearchTerm s) (cachedSearchResults s),
     mkPage (firstn 10 results)
            (if Nat.min 10 (List.length results) <? List.length results
             then Some (Nat.min 10 (List.length results
                                    - Nat.min 10 (List.length results)),
                        List.length results - Nat.min 10 (List.length results))
             else None)).
Proof.
  unfold displaySearchResults, slice, RESULTS_PER_PAGE.
  cbn [displayedResultsCount currentSearchResults currentSearchTerm
       isSearchMode lastSearchTerm cachedSearchResults Nat.add skipn].
  rewrite Nat.sub_0_r, firstn_min_length. reflexivity.
Qed.

Lemma last_cons_default {X} (x d : X) (l : list X) :
  last (x :: l) d = last l x.
Proof.
  revert x d; induction l as [|y l IH]; intros x d; [reflexivity|].
  change (last (x :: y :: l) d) with (last (y :: l) d).
  now rewrite !IH.
Qed.

(** The clicks on the load-more button, from a session that has shown the
    first [displayedResultsCount] results. [previous] is the page rendered
    last. *)
Lemma loadMoreTimes_spec :
  forall (n : nat) (s : Session) (previous : Page),
    displayedResultsCount s <= List.length (currentSearchResults s) ->
    (loadMoreButton previous = None
     <-> List.length (currentSearchResults s) <= displayedResultsCount s) ->
    let reached := Nat.min (displayedResultsCount s + 10 * n)
                           (List.length (currentSearchResults s)) in
    currentSearchResults (fst (loadMoreTimes n s)) = currentSearchResults s /\
    displayedResultsCount (fst (loadMoreTimes n s)) = reached /\
    List.concat (List.map resultsToShow (snd (loadMoreTimes n s)))
    = slice (displayedResultsCount s) reached (currentSearchResults s) /\
    (loadMoreButton (last (snd (loadMoreTimes n s)) previous) = None
     <-> List.length (currentSearchResults s) <= displayedResultsCount s + 10 * n).
Proof.
  induction n as [|n IH]; intros s previous Hd Hprev; cbv zeta.
  - cbn [loadMoreTimes fst snd List.map List.concat last].
    rewrite Nat.mul_0_r, Nat.add_0_r, Nat.min_l by exact Hd.
    unfold slice. rewrite Nat.sub_diag. cbn [firstn].
    repeat split; auto; apply Hprev.
  - cbn [loadMoreTimes]. unfold loadMoreResults.
    destruct (Nat.ltb_spec 0 (List.length (currentSearchResults s))) as [Hpos|Hzero].
    + unfold displaySearchResults, RESULTS_PER_PAGE.
      set (len := List.length (currentSearchResults s)) in *.
      set (d := displayedResultsCount s) in *.
      set (s' := mkSession (currentSearchResults s) (currentSearchTerm s)
                           (Nat.min (d + 10) len) (isSearchMode s)
                           (lastSearchTerm s) (cachedSearchResults s)).
      set (page := mkPage _ _).
      specialize (IH s' page).
      assert (Es1 : currentSearchResults s' = currentSearchResults s) by reflexivity.
      assert (Es2 : displayedResultsCount s' = Nat.min (d + 10) len) by reflexivity.
      rewrite !Es1, !Es2 in IH. fold len in IH.
      destruct IH as [Hc [Hdis [Hcat Hbtn]]]; [lia | |].
      { subst page. cbn [loadMoreButton].
        destruct (Nat.ltb_spec (Nat.min (d + 10) len) len); split; intros; try lia;
          try discriminate; reflexivity. }
      destruct (loadMoreTimes n s') as [s'' pages].
      cbn [fst snd List.map List.concat] in *.
      split; [exact Hc|]. split; [rewrite Hdis; lia|]. split.
      * rewrite Hcat. subst page. cbn [resultsToShow].
        rewrite slice_app by lia. f_equal. lia.
      * rewrite last_cons_default, Hbtn. lia.
    + assert (Hlen : List.length (currentSearchResults s) = 0) by lia.
      specialize (IH s previous Hd Hprev). cbv zeta in IH.
      destruct IH as [Hc [Hdis [Hcat Hbtn]]].
      rewrite Hlen in *.
      repeat split; auto.
      * rewrite Hdis. lia.
      * rewrite Hcat. unfold slice. f_equal. lia.
      * intros _. lia.
      * intros _. apply Hbtn. lia.
Qed.

(** X25: pagination shows every result once and in order. After a new
    search and [n] clicks on the load-more button the pages rendered, put
    end to end, are the first [10 * (n + 1)] results; the counter is that
    number, capped by the number of results; and the page rendered last
    carries no load-more button exactly when all results have been shown. *)
Theorem X25_pages_are_consecutive_slices :
  forall (s : Session) (results : list SearchResult) (searchTerm : string) (n : nat),
    let first := displaySearchResults s results searchTerm false in
    let more := loadMoreTimes n (fst first) in
    resultsToShow (snd first) ++ List.concat (List.map resultsToShow (snd more))
    = firstn (10 * (n + 1)) results /\
    displayedResultsCount (fst more)
    = Nat.min (10 * (n + 1)) (List.length results) /\
    currentSearchResults (fst more) = results /\
    (loadMoreButton (last (snd more) (snd first)) = None
     <-> List.length results <= 10 * (n + 1)).
Proof.
  intros s results searchTerm n. cbv zeta.
  rewrite displaySearchResults_new. cbn [fst snd].
  set (s0 := mkSession results searchTerm (Nat.min 10 (List.length results))
                       (isSearchMode s) (lastSearchTerm s) (cachedSearchResults s)).
  set (p0 := mkPage _ _).
  pose proof (loadMoreTimes_spec n s0 p0) as H. cbv zeta in H.
  assert (E1 : currentSearchResults s0 = results) by reflexivity.
  assert (E2 : displayedResultsCount s0 = Nat.min 10 (List.length results))
    by reflexivity.
  assert (E3 : loadMoreButton p0
               = if Nat.min 10 (List.length results) <? List.length results
                 then Some (Nat.min 10 (List.length results
                                        - Nat.min 10 (List.length results)),
                            List.length results - Nat.min 10 (List.length results))
                 else None) by reflexivity.
  assert (E4 : resultsToShow p0 = firstn 10 results) by reflexivity.
  rewrite !E1, !E2 in H.
  destruct H as [Hc [Hd [Hcat Hbtn]]].
  - lia.
  - rewrite E3.
    destruct (Nat.ltb_spec (Nat.min 10 (List.length results)) (List.length results));
      split; intros; try lia; try discriminate; reflexivity.
  - split; [|split; [rewrite Hd; lia | split; [exact Hc | rewrite Hbtn; lia]]].
    rewrite Hcat, E4.
    rewrite <- (firstn_min_length 10 results).
    replace (firstn (Nat.min 10 (List.length results)) results)
      with (slice 0 (Nat.min 10 (List.length results)) results)
      by (unfold slice; cbn [skipn]; now rewrite Nat.sub_0_r).
    rewrite slice_app by lia.
    unfold slice. cbn [skipn]. rewrite Nat.sub_0_r.
    rewrite <- (firstn_min_length (10 * (n + 1)) results). f_equal. lia.
Qed.

(** ** The relevance bar *)

Lemma search_scores_range (st : Store) (query : string) (r : SearchResult) :
  In r (searchWords st query) -> (40 < score r)%Q /\ (score r <= 100)%Q.
Proof.
  intros Hin. apply searchWords_in_collect in Hin.
  pose proof (collectResults_from st query) as H.
  rewrite Forall_forall in H. specialize (H r Hin).
  destruct H as [[e [i [_ ->]]] | [e [_ [-> | [-> | [Hr [Hpos _]]]]]]];
    try (cbn [score scored]; split; [reflexivity | discriminate]).
  rewrite Hr in *. cbn [score scored] in *.
  destruct (fuzzyMatch_values (word e) query)
    as [E | [E | [E | [E | [H40 [H100 _]]]]]];
    try (rewrite E in *; split; [reflexivity | discriminate]).
  - rewrite E in Hpos. discriminate Hpos.
  - split; [exact H40 | lra].
Qed.

(** X26: every result of a search gets a relevance bar of 4 to 10 filled
    marks: [Math.round(score / 10)] lies between 4 and 10, so neither
    [repeat] of the bar is ever given a negative count. *)
Theorem X26_score_bar_between_4_and_10 :
  forall (st : Store) (query : string) (r : SearchResult),
    In r (searchWords st query) ->
    (4 <= scoreBar r <= 10)%Z /\ (0 <= 10 - scoreBar r)%Z.
Proof.
  intros st query r Hin.
  destruct (search_scores_range st query r Hin) as [Hlo Hhi].
  unfold scoreBar.
  set (x := (score r / 10 + (1 # 2))%Q).
  assert (Hx : (inject_Z 4 <= x)%Q /\ (x < inject_Z 11)%Q).
  { subst x. unfold Qdiv.
    change (inject_Z 4) with (4 # 1)%Q. change (inject_Z 11) with (11 # 1)%Q.
    change (/ 10)%Q with (1 # 10)%Q. split; lra. }
  destruct Hx as [H4 H11].
  assert (Hge : (4 <= Qfloor x)%Z).
  { rewrite <- (Qfloor_Z 4). now apply Qfloor_resp_le. }
  assert (Hlt : (Qfloor x < 11)%Z).
  { rewrite Zlt_Qlt. pose proof (Qfloor_le x). lra. }
  lia.
Qed.

Lemma X26_score_bar_between_4_and_10_witness :
  In (scored (mkEntry "apple" "a fruit") 90) (searchWords sampleStore "ap") /\
  scoreBar (scored (mkEntry "apple" "a fruit") 90) = 9%Z /\
  (4 <= scoreBar (scored (mkEntry "apple" "a fruit") 90) <= 10)%Z.
Proof.
  assert (Hin : In (scored (mkEntry "apple" "a fruit") 90) (searchWords sampleStore "ap"))
    by (vm_compute; now left).
  split; [exact Hin|]. split; [reflexivity|].
  apply (X26_score_bar_between_4_and_10 sampleStore "ap" _ Hin).
Defined.

(** ** The session over the events of the page *)

Lemma properKeys_cacheStore (limit : nat) (cache : Cache) (k : string)
      (results : list SearchResult) :
  properKeys cache -> 2 <= String.length k -> Str.trim k = k ->
  properKeys (cacheStore limit cache k results).
Proof.
  unfold properKeys, JSMap.keys. rewrite !Forall_forall.
  intros Hc Hk Ht k' Hin. apply in_map_iff in Hin.
  destruct Hin as [[k0 v0] [<- Hin]]. cbn [fst].
  apply in_cacheStore in Hin. destruct Hin as [H|H].
  - inversion H; subst. now split.
  - apply Hc. apply in_map_iff. exists (k0, v0). now split.
Qed.

Lemma coherent_cacheStore (st : Store) (limit : nat) (cache : Cache) (k : string) :
  coherent st cache ->
  coherent st (cacheStore limit cache k (searchWords st k)).
Proof.
  unfold coherent. rewrite !Forall_forall.
  intros Hc kv Hin. apply in_cacheStore in Hin.
  destruct Hin as [->|H]; [reflexivity | now apply Hc].
Qed.

Lemma coherent_get (st : Store) (cache : Cache) (k : string)
      (v : list SearchResult) :
  coherent st cache -> JSMap.get k cache = Some v -> v = searchWords st k.
Proof.
  unfold coherent. rewrite Forall_forall. intros Hc Hget.
  apply get_in in Hget. exact (Hc _ Hget).
Qed.

Lemma sessionOK_initial (st : Store) : sessionOK st initialSession.
Proof.
  unfold sessionOK, initialSession.
  cbn [cachedSearchResults currentSearchResults displayedResultsCount
       currentSearchTerm List.length].
  split; [unfold JSMap.size, JSMap.empty, CACHE_SIZE_LIMIT; simpl; lia|].
  split; [constructor|]. split; [constructor|]. split; [lia | now left].
Qed.

Lemma sessionOK_clearSearch (st : Store) (s : Session) :
  sessionOK st s -> sessionOK st (clearSearch s).
Proof.
  intros [Hsize [Hkeys [Hcoh _]]]. unfold sessionOK, clearSearch.
  cbn [cachedSearchResults currentSearchResults displayedResultsCount
       currentSearchTerm List.length].
  destruct (20 <? JSMap.size (cachedSearchResults s)).
  - split; [unfold JSMap.size, JSMap.empty, CACHE_SIZE_LIMIT; simpl; lia|].
    split; [constructor|]. split; [constructor|]. split; [lia | now left].
  - split; [exact Hsize|]. split; [exact Hkeys|]. split; [exact Hcoh|].
    split; [lia | now left].
Qed.

Lemma sessionOK_search (st : Store) (s : Session) (query : string) :
  sessionOK st s -> 2 <= String.length query -> Str.trim query = query ->
  sessionOK st (fst (performLiveSearchSession st s query)).
Proof.
  intros Hok Hlen Htrim. pose proof Hok as [Hsize [Hkeys [Hcoh [Hdis Hcur]]]].
  unfold performLiveSearchSession.
  destruct (isLoaded st); cbn [negb]; [|exact Hok].
  destruct (JSMap.get query (cachedSearchResults s)) as [cached|] eqn:G.
  - rewrite displaySearchResults_new. cbn [fst]. unfold sessionOK.
    cbn [cachedSearchResults currentSearchResults displayedResultsCount
         currentSearchTerm].
    split; [exact Hsize|]. split; [exact Hkeys|]. split; [exact Hcoh|].
    split; [lia | right; eapply coherent_get; eassumption].
  - assert (Hsize' : JSMap.size (cacheStore CACHE_SIZE_LIMIT (cachedSearchResults s)
                                            query (searchWords st query))
                     <= CACHE_SIZE_LIMIT)
      by (apply cacheStore_size; [unfold CACHE_SIZE_LIMIT; lia | exact Hsize]).
    pose proof (properKeys_cacheStore CACHE_SIZE_LIMIT _ query
                  (searchWords st query) Hkeys Hlen Htrim) as Hkeys'.
    pose proof (coherent_cacheStore st CACHE_SIZE_LIMIT _ query Hcoh) as Hcoh'.
    destruct (0 <? List.length (searchWords st query)).
    + rewrite displaySearchResults_new. cbn [fst]. unfold sessionOK.
      cbn [cachedSearchResults currentSearchResults displayedResultsCount
           currentSearchTerm].
      split; [exact Hsize'|]. split; [exact Hkeys'|]. split; [exact Hcoh'|].
      split; [lia | now right].
    + cbn [fst]. unfold sessionOK.
      cbn [cachedSearchResults currentSearchResults displayedResultsCount
           currentSearchTerm List.length].
      split; [exact Hsize'|]. split; [exact Hkeys'|]. split; [exact Hcoh'|].
      split; [lia | now left].
Qed.

Lemma sessionOK_loadMore (st : Store) (s : Session) :
  sessionOK st s -> sessionOK st (fst (loadMoreResults s)).
Proof.
  intros Hok. pose proof Hok as [Hsize [Hkeys [Hcoh [Hdis Hcur]]]].
  unfold loadMoreResults.
  destruct (0 <? List.length (currentSearchResults s)); [|exact Hok].
  unfold displaySearchResults. cbn [fst]. unfold sessionOK.
  cbn [cachedSearchResults currentSearchResults displayedResultsCount
       currentSearchTerm].
  split; [exact Hsize|]. split; [exact Hkeys|]. split; [exact Hcoh|].
  split; [lia | exact Hcur].
Qed.

Lemma sessionOK_step (st : Store) (s : Session) (ev : Event) :
  sessionOK st s -> sessionOK st (step st s ev).
Proof.
  intros Hok. destruct ev as [value | value | key | | |]; cbn [step].
  - destruct (String.length (Str.trim value) =? 0);
      [now apply sessionOK_clearSearch|].
    destruct (Nat.ltb_spec (String.length (Str.trim value)) 2); [exact Hok|].
    apply sessionOK_search; auto using trim_idem.
  - destruct (Nat.leb_spec 2 (String.length (Str.trim value))); [|exact Hok].
    apply sessionOK_search; auto using trim_idem.
  - assert (Hr : sessionOK st (randomPressed s))
      by (unfold randomPressed; destruct (isSearchMode s);
          [now apply sessionOK_clearSearch | exact Hok]).
    destruct (_ || _); [exact Hr|].
    destruct (String.eqb key "5"); [exact Hr|].
    destruct (String.eqb key "/"); [exact Hok|].
    destruct (String.eqb key "Escape"); [now apply sessionOK_clearSearch | exact Hok].
  - unfold randomPressed. destruct (isSearchMode s);
      [now apply sessionOK_clearSearch | exact Hok].
  - unfold randomPressed. destruct (isSearchMode s);
      [now apply sessionOK_clearSearch | exact Hok].
  - now apply sessionOK_loadMore.
Qed.

Lemma sessionOK_run (st : Store) (events : list Event) : sessionOK st (run st events).
Proof.
  unfold run.
  assert (G : forall s, sessionOK st s -> sessionOK st (fold_left (step st) events s)).
  { induction events as [|ev events IH]; intros s Hs; [exact Hs|].
    cbn [fold_left]. apply IH. now apply sessionOK_step. }
  apply G, sessionOK_initial.
Qed.

(** X27: whatever the events of the page, the result cache never holds
    more than 50 queries, and each of its keys is a trimmed query of at
    least 2 characters. *)
Theorem X27_cache_bounded_over_any_events :
  forall (st : Store) (events : list Event),
    JSMap.size (cachedSearchResults (run st events)) <= 50 /\
    Forall (fun k => 2 <= String.length k /\ Str.trim k = k)
           (JSMap.keys (cachedSearchResults (run st events))).
Proof.
  intros st events.
  destruct (sessionOK_run st events) as [Hsize [Hkeys _]].
  split; [exact Hsize | exact Hkeys].
Qed.

(** X28: the cache is transparent. Whatever events came before, a live
    search on a loaded store leaves as current results exactly what
    [searchWords] returns for the query, whether they come from the cache or
    from a new search. *)
Theorem X28_cached_results_equal_fresh_search :
  forall (st : Store) (events : list Event) (query : string),
    isLoaded st = true ->
    currentSearchResults (fst (performLiveSearchSession st (run st events) query))
    = searchWords st query.
Proof.
  intros st events query Hl.
  destruct (sessionOK_run st events) as [_ [_ [Hcoh _]]].
  unfold performLiveSearchSession. rewrite Hl. cbn [negb].
  destruct (JSMap.get query (cachedSearchResults (run st events))) as [cached|] eqn:G.
  - rewrite displaySearchResults_new. cbn [fst currentSearchResults].
    eapply coherent_get; eassumption.
  - destruct (Nat.ltb_spec 0 (List.length (searchWords st query))) as [Hpos|Hz].
    + rewrite displaySearchResults_new. reflexivity.
    + cbn [fst currentSearchResults].
      destruct (searchWords st query); [reflexivity | simpl in Hz; lia].
Qed.

Lemma X28_cached_results_equal_fresh_search_witness :
  isLoaded sampleStore = true /\
  currentSearchResults
    (fst (performLiveSearchSession sampleStore
            (run sampleStore [Typed "app"; KeyPressed "Escape"]) "app"))
  = searchWords sampleStore "app".
Proof.
  split; [reflexivity|].
  apply (X28_cached_results_equal_fresh_search
           sampleStore [Typed "app"; KeyPressed "Escape"] "app").
  reflexivity.
Defined.

(** X29: whatever the events of the page, the counter of displayed results
    never exceeds the number of current results, and the current results are
    empty or what [searchWords] returns for the current term. *)
Theorem X29_session_consistent_over_any_events :
  forall (st : Store) (events : list Event),
    displayedResultsCount (run st events)
    <= List.length (currentSearchResults (run st events)) /\
    (currentSearchResults (run st events) = [] \/
     currentSearchResults (run st events)
     = searchWords st (currentSearchTerm (run st events))).
Proof.
  intros st events.
  destruct (sessionOK_run st events) as [_ [_ [_ [Hdis Hcur]]]].
  split; [exact Hdis | exact Hcur].
Qed.

(** The cache of the session is the one that [performLiveSearch] computes. *)
Lemma performLiveSearchSession_cache (st : Store) (s : Session) (searchTerm : string) :
  cachedSearchResults (fst (performLiveSearchSession st s searchTerm))
  = performLiveSearch st (cachedSearchResults s) searchTerm.
Proof.
  unfold performLiveSearchSession, performLiveSearch, JSMap.has.
  destruct (isLoaded st); cbn [negb]; [|reflexivity].
  destruct (JSMap.get searchTerm (cachedSearchResults s)).
  - now rewrite displaySearchResults_new.
  - destruct (0 <? _); [now rewrite displaySearchResults_new | reflexivity].
Qed.

(** ** More on the random picks *)

Lemma drawFor_unit (i n : nat) :
  i < n -> (Z.of_nat n < arrayLengthLimit)%Z ->
  isRandomValue (drawFor i n) = true.
Proof.
  intros Hi Hlim. unfold drawFor. apply dyadic_isRandomValue.
  apply (floor_dyadic_product (Z.of_nat i) (Z.of_nat n)); [lia | exact Hlim].
Qed.

Lemma drawFor_index (i n : nat) :
  i < n -> (Z.of_nat n < arrayLengthLimit)%Z ->
  randomIndex (drawFor i n) n = i.
Proof.
  intros Hi Hlim. unfold randomIndex, drawFor.
  destruct (floor_dyadic_product (Z.of_nat i) (Z.of_nat n)) as [_ E];
    [lia | exact Hlim |].
  rewrite E. apply Nat2Z.id.
Qed.

(** X19: on a loaded store that holds entries, a random pick returns one of
    the stored entries, never [null] nor [undefined], whatever double of
    [0, 1) [Math.random] returns: the product with the length, rounded to
    the nearest double, stays below the length. *)
Theorem X19_random_pick_is_a_stored_entry :
  forall (st : Store) (r : Q),
    isLoaded st = true ->
    words st <> [] ->
    (Z.of_nat (List.length (words st)) < arrayLengthLimit)%Z ->
    isRandomValue r = true ->
    exists e, getRandomWord st r = Some e /\ In e (words st).
Proof.
  intros st r Hl Hw Hlim Hr. unfold getRandomWord. rewrite Hl. cbn [negb orb].
  destruct (Nat.eqb_spec (List.length (words st)) 0) as [H0|Hpos].
  - destruct (words st); [contradiction | discriminate].
  - assert (Hlt : randomIndex r (List.length (words st)) < List.length (words st))
      by (apply randomIndex_lt; [exact Hr | lia | exact Hlim]).
    destruct (nth_error (words st) (randomIndex r (List.length (words st))))
      as [e|] eqn:E.
    + exists e. split; [reflexivity | eapply nth_error_In; exact E].
    + apply nth_error_None in E. lia.
Qed.

Lemma X19_random_pick_is_a_stored_entry_witness :
  isLoaded sampleStore = true /\ words sampleStore <> [] /\
  (Z.of_nat (List.length (words sampleStore)) < arrayLengthLimit)%Z /\
  isRandomValue (6004799503160661 # 9007199254740992) = true /\
  getRandomWord sampleStore (6004799503160661 # 9007199254740992)
  = Some (mkEntry "Apple" "a company") /\
  exists e,
    getRandomWord sampleStore (6004799503160661 # 9007199254740992) = Some e /\
    In e (words sampleStore).
Proof.
  split; [reflexivity|]. split; [vm_compute; discriminate|].
  split; [reflexivity|]. split; [vm_compute; reflexivity|].
  split; [vm_compute; reflexivity|].
  apply (X19_random_pick_is_a_stored_entry sampleStore
           (6004799503160661 # 9007199254740992));
    [reflexivity | vm_compute; discriminate | reflexivity
     | vm_compute; reflexivity].
Defined.

(** X20: every stored entry can come out of a random pick: for each
    position of a loaded store there is a double of [0, 1) which, returned
    by [Math.random], makes [getRandomWord] return the entry at that
    position. *)
Theorem X20_every_entry_can_be_picked :
  forall (st : Store) (i : nat) (e : Entry),
    isLoaded st = true ->
    (Z.of_nat (List.length (words st)) < arrayLengthLimit)%Z ->
    nth_error (words st) i = Some e ->
    isRandomValue (drawFor i (List.length (words st))) = true /\
    getRandomWord st (drawFor i (List.length (words st))) = Some e.
Proof.
  intros st i e Hl Hlim Hn.
  assert (Hi : i < List.length (words st))
    by (apply nth_error_Some; congruence).
  split; [now apply drawFor_unit|].
  unfold getRandomWord. rewrite Hl. cbn [negb orb].
  destruct (Nat.eqb_spec (List.length (words st)) 0) as [H0|_]; [lia|].
  now rewrite drawFor_index.
Qed.

Lemma X20_every_entry_can_be_picked_witness :
  isLoaded sampleStore = true /\
  (Z.of_nat (List.length (words sampleStore)) < arrayLengthLimit)%Z /\
  nth_error (words sampleStore) 2 = Some (mkEntry "Apple" "a company") /\
  drawFor 2 3 = (7505999378950826 # 9007199254740992)%Q /\
  isRandomValue (drawFor 2 3) = true /\
  getRandomWord sampleStore (drawFor 2 3) = Some (mkEntry "Apple" "a company").
Proof.
  split; [reflexivity|]. split; [reflexivity|]. split; [reflexivity|].
  split; [vm_compute; reflexivity|].
  apply (X20_every_entry_can_be_picked sampleStore 2 (mkEntry "Apple" "a company"));
    reflexivity.
Defined.

(** X21: the loop of [getMultipleRandomWords] cannot end early: as long as
    the draws have produced fewer different indices than asked for, it is
    still running. *)
Theorem X21_random_entries_need_enough_draws :
  forall (st : Store) (count : Z) (draws : list Q),
    isLoaded st = true ->
    (Z.of_nat (distinctCount (drawnIndices (List.length (words st)) draws))
     < Z.min count (Z.of_nat (List.length (words st))))%Z ->
    getMultipleRandomWords st count draws = None.
Proof.
  exact getMultipleRandomWords_starved.
Qed.

Lemma X21_random_entries_need_enough_draws_witness :
  isLoaded sampleStore = true /\
  drawnIndices 3 [6004799503160661 # 9007199254740992; 3 # 4]%Q = [2; 2] /\
  getMultipleRandomWords sampleStore 2
    [6004799503160661 # 9007199254740992; 3 # 4]%Q = None.
Proof.
  split; [reflexivity|]. split; [vm_compute; reflexivity|].
  apply (X21_random_entries_need_enough_draws sampleStore 2
           [6004799503160661 # 9007199254740992; 3 # 4]%Q);
    [reflexivity | vm_compute; reflexivity].
Defined.

Section ExactWordAfterLoad.
Context {host : Host}.

(** X30: after a load that succeeds, the search for the word of any stored
    entry, provided the word is not empty, returns first, with score 100,
    the last entry loaded for that word (case ignored), and every other
    result scores below 100. *)
Theorem X30_search_finds_nonempty_stored_word :
  forall (st0 st : Store) (jsonData : JSValue) (e : Entry),
    loadWords st0 jsonData = (st, None) ->
    In e (words st) ->
    word e <> "" ->
    exists e' rest,
      searchWords st (Str.toLowerCase (word e)) = scored e' 100 :: rest /\
      findLast (fun x => String.eqb (Str.toLowerCase (word x))
                                    (Str.toLowerCase (word e))) (words st)
      = Some e' /\
      Forall (fun r => (score r < 100)%Q) rest.
Proof.
  exact search_exact_word_first.
Qed.


End ExactWordAfterLoad.

(** ** The loader on concrete datasets *)

#[local] Existing Instance sampleHost.

(** C1 at a failing input: a loaded store asked to load the empty array.
    The load fails with the empty-dataset error, yet [words] has already
    been overwritten with the empty sequence, while [wordIndex],
    [sortedWords] and [isLoaded] are those of the earlier load. *)
Theorem C1_failed_reload_overwrites_entries :
  let st := sampleStore in
  let st' := fst (loadWords st (JArr [])) in
  snd (loadWords st (JArr [])) = Some NoValidEntries /\
  words st = [mkEntry "apple" "a fruit";
              mkEntry "application" "a program";
              mkEntry "Apple" "a company"] /\
  words st' = [] /\
  wordIndex st' = wordIndex st /\
  sortedWords st' = sortedWords st /\
  isLoaded st' = true /\
  JSMap.has "apple" (wordIndex st') = true.
Proof.
  cbv zeta. repeat split; vm_compute; reflexivity.
Qed.

(** C4 at a failing input: the word [" "] is truthy, so the entry passes
    the filter, and it is trimmed afterwards; the load succeeds and stores
    an entry whose word is empty. *)
Theorem C4_blank_word_is_stored :
  loadWords newStore blankWordDataset
  = (mkStore [mkEntry "" "x"] true [("", (mkEntry "" "x", 0))] [mkEntry "" "x"],
     None).
Proof.
  vm_compute. reflexivity.
Qed.

(** The stored entry of that dataset breaks the invariant of an entry, and
    the search for its word, the empty query, is stopped by the guard. *)
Lemma blank_word_is_not_found :
  let st := fst (loadWords newStore blankWordDataset) in
  snd (loadWords newStore blankWordDataset) = None /\
  In (mkEntry "" "x") (words st) /\
  forallb entryInvariant (words st) = false /\
  searchWords st (Str.toLowerCase (word (mkEntry "" "x"))) = [].
Proof.
  cbv zeta. split; [vm_compute; reflexivity|].
  split; [vm_compute; now left|].
  split; vm_compute; reflexivity.
Qed.

(** ** The loader and the search on the sample dataset *)

Lemma sampleStore_loaded : loadWords newStore sampleDataset = (sampleStore, None).
Proof. vm_compute. reflexivity. Qed.

Lemma X8_results_are_stored_entries_witness :
  loadWords newStore sampleDataset = (sampleStore, None) /\
  In (scored (mkEntry "apple" "a fruit") 90) (searchWords sampleStore "ap") /\
  exists e, In e (words sampleStore) /\
            res_word (scored (mkEntry "apple" "a fruit") 90) = word e /\
            res_definition (scored (mkEntry "apple" "a fruit") 90) = definition e /\
            matchType (scored (mkEntry "apple" "a fruit") 90) = "word" /\
            (0 < score (scored (mkEntry "apple" "a fruit") 90))%Q.
Proof.
  assert (Hin : In (scored (mkEntry "apple" "a fruit") 90) (searchWords sampleStore "ap"))
    by (vm_compute; now left).
  split; [exact sampleStore_loaded|]. split; [exact Hin|].
  apply (X8_results_are_stored_entries newStore sampleStore sampleDataset "ap" _
           sampleStore_loaded Hin).
Defined.

Lemma X10_index_lookup_last_writer_witness :
  loadWords newStore sampleDataset = (sampleStore, None) /\
  JSMap.get "apple" (wordIndex sampleStore) = Some (mkEntry "Apple" "a company", 2) /\
  nth_error (words sampleStore) 2 = Some (mkEntry "Apple" "a company") /\
  Str.toLowerCase (word (mkEntry "Apple" "a company")) = "apple".
Proof.
  split; [exact sampleStore_loaded|]. split; [reflexivity|].
  destruct (X10_index_lookup_last_writer newStore sampleStore sampleDataset "apple"
              (mkEntry "Apple" "a company") 2 sampleStore_loaded eq_refl)
    as [Hn [Hk _]].
  split; [exact Hn | exact Hk].
Defined.

Lemma X11_index_keys_are_the_words_witness :
  loadWords newStore sampleDataset = (sampleStore, None) /\
  (JSMap.has "application" (wordIndex sampleStore) = true
   <-> exists e, In e (words sampleStore) /\ Str.toLowerCase (word e) = "application").
Proof.
  split; [exact sampleStore_loaded|].
  apply (X11_index_keys_are_the_words newStore sampleStore sampleDataset "application"
           sampleStore_loaded).
Defined.

Lemma X12_successful_load_ignores_previous_store_witness :
  snd (loadWords newStore sampleDataset) = None /\
  loadWords sampleStore sampleDataset = loadWords newStore sampleDataset.
Proof.
  split; [reflexivity|].
  apply (X12_successful_load_ignores_previous_store newStore sampleStore sampleDataset).
  reflexivity.
Defined.

Lemma X13_failed_load_keeps_indexes_witness :
  loadWords sampleStore (JStr "words") = (sampleStore, Some InvalidFormat) /\
  wordIndex sampleStore = wordIndex sampleStore /\
  (InvalidFormat <> NoValidEntries -> sampleStore = sampleStore).
Proof.
  split; [reflexivity|].
  destruct (X13_failed_load_keeps_indexes sampleStore sampleStore (JStr "words")
              InvalidFormat eq_refl) as [Hi [_ [_ Hsame]]].
  split; [exact Hi | exact Hsame].
Defined.

Lemma X14_stored_entries_are_trimmed_witness :
  loadWords newStore (JArr [entryObject "  apple " " a fruit  "])
  = (mkStore [mkEntry "apple" "a fruit"] true
             [("apple", (mkEntry "apple" "a fruit", 0))]
             [mkEntry "apple" "a fruit"], None) /\
  Str.trim (word (mkEntry "apple" "a fruit")) = word (mkEntry "apple" "a fruit") /\
  Str.trim (definition (mkEntry "apple" "a fruit"))
  = definition (mkEntry "apple" "a fruit").
Proof.
  assert (Hload : loadWords newStore (JArr [entryObject "  apple " " a fruit  "])
                  = (mkStore [mkEntry "apple" "a fruit"] true
                             [("apple", (mkEntry "apple" "a fruit", 0))]
                             [mkEntry "apple" "a fruit"], None))
    by (vm_compute; reflexivity).
  split; [exact Hload|].
  apply (X14_stored_entries_are_trimmed newStore _ _ (mkEntry "apple" "a fruit") Hload).
  now left.
Defined.

Lemma X30_search_finds_nonempty_stored_word_witness :
  loadWords newStore sampleDataset = (sampleStore, None) /\
  In (mkEntry "apple" "a fruit") (words sampleStore) /\
  searchWords sampleStore "apple" = [scored (mkEntry "Apple" "a company") 100] /\
  exists e' rest,
    searchWords sampleStore (Str.toLowerCase (word (mkEntry "apple" "a fruit")))
    = scored e' 100 :: rest.
Proof.
  split; [exact sampleStore_loaded|]. split; [vm_compute; now left|].
  split; [vm_compute; reflexivity|].
  destruct (X30_search_finds_nonempty_stored_word
              newStore sampleStore sampleDataset (mkEntry "apple" "a fruit")
              sampleStore_loaded)
    as [e' [rest [E _]]]; [vm_compute; now left | discriminate |].
  now exists e', rest.
Defined.


Lemma X15_both_formats_load_alike_witness :
  ownKeyOrder (List.map fst [("7", "a number"); ("Cat", "An animal")]) = true /\
  ownKeyOrder ["Cat"; "7"] = false /\
  ownKeyOrder ["Cat"; "Cat"] = false /\
  parseJSON newStore (JArr [objectOf "7" "a number"; objectOf "Cat" "An animal"])
  = parseJSON newStore (JObj [("7", JStr "a number"); ("Cat", JStr "An animal")]) /\
  fst (parseJSON newStore (JObj [("7", JStr "a number"); ("Cat", JStr "An animal")]))
  = mkStore [mkEntry "7" "a number"; mkEntry "Cat" "An animal"] false
            [("7", (mkEntry "7" "a number", 0));
             ("cat", (mkEntry "Cat" "An animal", 1))]
            [mkEntry "7" "a number"; mkEntry "Cat" "An animal"].
Proof.
  split; [reflexivity|]. split; [reflexivity|]. split; [reflexivity|].
  pose proof (X15_both_formats_load_alike
                newStore [("7", "a number"); ("Cat", "An animal")] eq_refl)
    as H.
  cbv zeta in H. destruct H as [Ha Ho].
  split; [|vm_compute; reflexivity].
  cbn [List.map fst snd] in Ha, Ho. rewrite Ha, Ho. reflexivity.
Defined.
